(** * Kantchelian MILP attack on tree ensembles: a shallow embedding

    Embedding of [groot/verification/kantchelian_attack.py]: the tree
    compiler ([dfs]), the constraint model built by
    [KantchelianAttack.__init__], the two queries [attack] and
    [optimal_adversarial_example], the manual verifier [check] and the
    multiclass decomposition [KantchelianAttackMultiClass].

    Numbers are exact rationals ([Q]); the external MILP solver is an oracle
    that maps a model to a status code and a value for every variable. *)

From Stdlib Require Import String.
From Stdlib Require Import List Bool Arith ZArith QArith Qabs Qround Lia Lqa.
From Stdlib Require Import Sorted Permutation.
Import ListNotations.

Set Implicit Arguments.

(** ** Exceptions and the error monad *)

Inductive exn : Type :=
| ValueError (msg : string)
| IndexError
| TypeError
| AttributeError
| AssertionError (msg : string)
| Exception (msg : string).

Inductive result (A : Type) : Type :=
| Ok (a : A)
| Raise (e : exn).

Arguments Ok {A} a.
Arguments Raise {A} e.

Definition bind {A B : Type} (c : result A) (k : A -> result B) : result B :=
  match c with
  | Ok a => k a
  | Raise e => Raise e
  end.

Declare Scope result_scope.
Delimit Scope result_scope with result.
Notation "x <- c ;; k" := (bind c (fun x => k))
  (at level 100, c at next level, right associativity) : result_scope.
Notation "' p <- c ;; k" := (bind c (fun p => k))
  (at level 100, p pattern, c at next level, right associativity) : result_scope.
Open Scope result_scope.

Fixpoint mapM {A B : Type} (f : A -> result B) (l : list A) : result (list B) :=
  match l with
  | [] => Ok []
  | a :: l' => b <- f a ;; bs <- mapM f l' ;; Ok (b :: bs)
  end.

(** Left-to-right loop with an accumulator that stops at the first exception. *)
Fixpoint foldM {A S : Type} (f : S -> A -> result S) (l : list A) (s : S) : result S :=
  match l with
  | [] => Ok s
  | a :: l' => s' <- f s a ;; foldM f l' s'
  end.

(** ** Numbers *)

Open Scope Q_scope.

Definition Qlt_bool (a b : Q) : bool := negb (Qle_bool b a).

Definition Qsum (l : list Q) : Q := fold_right Qplus 0 l.

(** Python's [min(a, b)]: [b] when [b < a], else [a]. *)
Definition py_min (a b : Q) : Q := if Qlt_bool b a then b else a.

(** Nearest integer, ties to the even one. *)
Definition round_half_even (q : Q) : Z :=
  let f := Qfloor q in
  match Qcompare (q - inject_Z f) (1 # 2) with
  | Lt => f
  | Gt => (f + 1)%Z
  | Eq => if Z.even f then f else (f + 1)%Z
  end.

(** [round(x, ndigits)]: the multiple of [10^-ndigits] nearest to [x].  The
    result is stored in lowest terms, so that two rounded thresholds are the
    same number exactly when they are the same term. *)
Definition py_round (x : Q) (ndigits : Z) : Q :=
  Qred (inject_Z (round_half_even (x * Qpower 10 ndigits)) / Qpower 10 ndigits).

Definition GUARD_VAL : Q := 5 # 1000000.
Definition ROUND_DIGITS : Z := 6.

(** ** Samples: [x[i]] raises [IndexError] out of range *)

Definition sample := list Q.

Definition getitem (x : sample) (i : nat) : result Q :=
  match nth_error x i with
  | Some v => Ok v
  | None => Raise IndexError
  end.

Fixpoint setitem (x : sample) (i : nat) (v : Q) : result sample :=
  match x, i with
  | [], _ => Raise IndexError
  | _ :: x', O => Ok (v :: x')
  | a :: x', S i' => r <- setitem x' i' v ;; Ok (a :: r)
  end.

(** ** The JSON tree shape

    A node is a leaf [{nodeid, leaf}] or a split
    [{nodeid, split, split_condition, yes, no, children: [c0, c1]}].  The
    feature reference is kept as the integer index it denotes. *)

Inductive json_tree : Type :=
| JLeaf (nodeid : nat) (leaf : Q)
| JSplit (nodeid : nat) (split : nat) (split_condition : Q)
         (yes no : nat) (c0 c1 : json_tree).

Definition tree_nodeid (t : json_tree) : nat :=
  match t with
  | JLeaf n _ => n
  | JSplit n _ _ _ _ _ _ => n
  end.

(** ** [KantchelianAttack.check]: manual traversal of the raw trees *)

Fixpoint check_tree (x : sample) (tree : json_tree) : result Q :=
  match tree with
  | JLeaf _ leaf => Ok leaf
  | JSplit _ attribute threshold yes no c0 c1 =>
      xa <- getitem x attribute ;;
      if Qlt_bool xa threshold then
        if tree_nodeid c0 =? yes then check_tree x c0
        else if tree_nodeid c1 =? yes then check_tree x c1
        else Raise (ValueError "child not found")
      else
        if tree_nodeid c0 =? no then check_tree x c0
        else if tree_nodeid c1 =? no then check_tree x c1
        else Raise (ValueError "child not found")
  end.

Definition check (x : sample) (json_file : list json_tree) : result Q :=
  leaf_values <- mapM (check_tree x) json_file ;;
  Ok (Qsum leaf_values).

(** ** [node_wrapper]: a unique split and its occurrences *)

(** One element of [leaves_lists]: the tuple [(left_leaves, right_leaves)],
    or [(left_leaves, right_leaves, "root")] when [is_root] holds. *)
Record leaves_item : Type := mk_leaves_item {
  left_leaves : list nat;
  right_leaves : list nat;
  is_root : bool
}.

Record node_wrapper : Type := mk_node_wrapper {
  attribute : nat;
  threshold : Q;
  node_pos : list (nat * nat);          (* (treeid, nodeid) *)
  leaves_lists : list leaves_item
}.

Definition add_leaves (self : node_wrapper) (treeid nodeid : nat)
    (left_l right_l : list nat) (root : bool) : node_wrapper :=
  {| attribute := attribute self;
     threshold := threshold self;
     node_pos := node_pos self ++ [(treeid, nodeid)];
     leaves_lists := leaves_lists self ++ [mk_leaves_item left_l right_l root] |}.

Definition node_wrapper_init (treeid nodeid attr : nat) (th : Q)
    (left_l right_l : list nat) (root : bool) : node_wrapper :=
  add_leaves (mk_node_wrapper attr th [] []) treeid nodeid left_l right_l root.

(** ** The tree compiler: [dfs] inside [KantchelianAttack.__init__] *)

(** [node_check]: the dictionary [{(attr, th): index in node_list}], in
    insertion order; keys compare as Python tuples of numbers do. *)
Definition split_key : Type := (nat * Q)%type.

Definition key_eqb (k1 k2 : split_key) : bool :=
  (fst k1 =? fst k2)%nat && Qeq_bool (snd k1) (snd k2).

Fixpoint dict_get {V : Type} (d : list (split_key * V)) (k : split_key) : option V :=
  match d with
  | [] => None
  | (k', v) :: d' => if key_eqb k k' then Some v else dict_get d' k
  end.

Record compiler : Type := mk_compiler {
  node_list : list node_wrapper;
  leaf_v_list : list Q;
  leaf_pos_list : list (nat * nat);
  leaf_count : list nat;
  node_check : list (split_key * nat)
}.

Definition compiler_init : compiler := mk_compiler [] [] [] [0%nat] [].

Fixpoint list_update {A : Type} (l : list A) (i : nat) (f : A -> A) : list A :=
  match l, i with
  | [], _ => []
  | a :: l', O => f a :: l'
  | a :: l', S i' => a :: list_update l' i' f
  end.

(** The loop over [tree["children"]] keeps the last child whose [nodeid] is
    the wanted one: [Some true] for [children[1]], [Some false] for
    [children[0]], [None] when there is none. *)
Definition find_child (id : nat) (c0 c1 : json_tree) : option bool :=
  if tree_nodeid c1 =? id then Some true
  else if tree_nodeid c0 =? id then Some false
  else None.

Definition missing_child : exn := ValueError "should be a tree but one child is missing".

Fixpoint dfs (round_digits : Z) (tree : json_tree) (treeid : nat) (root neg : bool)
    (st : compiler) {struct tree} : result (list nat * compiler) :=
  match tree with
  | JLeaf nodeid leaf =>
      let st' := mk_compiler (node_list st)
                   (leaf_v_list st ++ [if neg then - leaf else leaf])
                   (leaf_pos_list st ++ [(treeid, nodeid)])
                   (leaf_count st) (node_check st) in
      Ok ([(length (leaf_v_list st') - 1)%nat], st')
  | JSplit nodeid attr th yes no c0 c1 =>
      let th := py_round th round_digits in
      match find_child yes c0 c1, find_child no c0 c1 with
      | Some yes_side, Some no_side =>
          '(left_l, st1) <-
             (if yes_side then dfs round_digits c1 treeid false neg st
              else dfs round_digits c0 treeid false neg st) ;;
          '(right_l, st2) <-
             (if no_side then dfs round_digits c1 treeid false neg st1
              else dfs round_digits c0 treeid false neg st1) ;;
          let st3 :=
            match dict_get (node_check st2) (attr, th) with
            | None =>
                let nl := node_list st2 ++
                          [node_wrapper_init treeid nodeid attr th left_l right_l root] in
                mk_compiler nl (leaf_v_list st2) (leaf_pos_list st2) (leaf_count st2)
                  (node_check st2 ++ [((attr, th), (length nl - 1)%nat)])
            | Some node_index =>
                mk_compiler
                  (list_update (node_list st2) node_index
                     (fun n => add_leaves n treeid nodeid left_l right_l root))
                  (leaf_v_list st2) (leaf_pos_list st2) (leaf_count st2) (node_check st2)
            end in
          Ok (left_l ++ right_l, st3)
      | _, _ => Raise missing_child
      end
  end.

Definition enumerate {A : Type} (start : nat) (l : list A) : list (nat * A) :=
  combine (seq start (length l)) l.

(** One iteration of [for i, tree in enumerate(...)]: compile the tree and
    record the running leaf total. *)
Definition compile_tree (round_digits : Z) (neg : bool) (st : compiler)
    (it : nat * json_tree) : result compiler :=
  '(_, st') <- dfs round_digits (snd it) (fst it) true neg st ;;
  Ok (mk_compiler (node_list st') (leaf_v_list st') (leaf_pos_list st')
        (leaf_count st' ++ [length (leaf_v_list st')]) (node_check st')).

Definition leaf_count_check (n_trees : nat) (st : compiler) : result compiler :=
  if (n_trees + 1 =? length (leaf_count st))%nat then Ok st
  else Raise (ValueError "leaf count error").

Definition compile_ensemble (round_digits : Z) (binary : bool)
    (json_model pos_json_input neg_json_input : option (list json_tree))
    : result compiler :=
  if binary then
    match json_model with
    | None => Raise TypeError
    | Some trees =>
        st <- foldM (compile_tree round_digits false) (enumerate 0 trees) compiler_init ;;
        leaf_count_check (length trees) st
    end
  else
    match pos_json_input, neg_json_input with
    | Some pos, Some neg =>
        st <- foldM (compile_tree round_digits false) (enumerate 0 pos) compiler_init ;;
        st' <- foldM (compile_tree round_digits true) (enumerate (length pos) neg) st ;;
        leaf_count_check (length pos + length neg) st'
    | _, _ => Raise TypeError
    end.

(** ** The solver's model: variables, linear expressions, named constraints *)

(** [P j] is the binary variable of [node_list[j]], [L i] the [0..1] variable
    of leaf [i], [B] the l-infinity distance variable. *)
Inductive var : Type :=
| P (j : nat)
| L (i : nat)
| B.

Record LinExpr : Type := mk_LinExpr {
  terms : list (Q * var);
  constant : Q
}.

(** [LinExpr(coeffs, vars)]. *)
Definition LinExpr_of (coeffs : list Q) (vars : list var) : LinExpr :=
  mk_LinExpr (combine coeffs vars) 0.

Definition expr_var (v : var) : LinExpr := mk_LinExpr [(1, v)] 0.
Definition expr_const (c : Q) : LinExpr := mk_LinExpr [] c.
Definition expr_add_var (e : LinExpr) (v : var) : LinExpr :=
  mk_LinExpr (terms e ++ [(1, v)]) (constant e).
Definition expr_sub_var (e : LinExpr) (v : var) : LinExpr :=
  mk_LinExpr (terms e ++ [(- (1), v)]) (constant e).
Definition expr_add_const (e : LinExpr) (c : Q) : LinExpr :=
  mk_LinExpr (terms e) (constant e + c).

Inductive sense : Type := LESS_EQUAL | EQUAL | GREATER_EQUAL.

Record TempConstr : Type := mk_TempConstr {
  lhs : LinExpr;
  rel : sense;
  rhs : LinExpr
}.

(** Constraint names, one constructor per format string of the source. *)
Inductive cname : Type :=
| p_consis_attr (key i : nat)        (* "p_consis_attr{}_{}th" *)
| leaf_sum_one_for_tree (i : nat)    (* "leaf_sum_one_for_tree{}" *)
| p_root_left (j k : nat)            (* "p{}_root_left_{}" *)
| p_root_right (j k : nat)           (* "p_{}_root_right_{}" *)
| p_left (j k : nat)                 (* "p{}_left_{}" *)
| p_right (j k : nat)                (* "p{}_right_{}" *)
| mislabel                           (* "mislabel" *)
| linf_constr_attr (key : nat).      (* "linf_constr_attr{}" *)

Definition cname_eqb (a b : cname) : bool :=
  match a, b with
  | p_consis_attr k i, p_consis_attr k' i' => (k =? k')%nat && (i =? i')%nat
  | leaf_sum_one_for_tree i, leaf_sum_one_for_tree i' => (i =? i')%nat
  | p_root_left j k, p_root_left j' k' => (j =? j')%nat && (k =? k')%nat
  | p_root_right j k, p_root_right j' k' => (j =? j')%nat && (k =? k')%nat
  | p_left j k, p_left j' k' => (j =? j')%nat && (k =? k')%nat
  | p_right j k, p_right j' k' => (j =? j')%nat && (k =? k')%nat
  | mislabel, mislabel => true
  | linf_constr_attr k, linf_constr_attr k' => (k =? k')%nat
  | _, _ => false
  end.

(** The Gurobi model: [n_P] binary variables, [n_L] variables in [0, 1], the
    bounds of [B] when it was created ([None] as upper bound is infinity),
    the named constraints in insertion order, the objective (minimised), and
    what the last [optimize] left: the status code and the variables' [.x]. *)
Record Model : Type := mk_Model {
  n_P : nat;
  n_L : nat;
  B_bounds : option (Q * option Q);
  constrs : list (cname * TempConstr);
  objective : LinExpr;
  status : Z;
  X : var -> Q
}.

Definition LOADED : Z := 1.
Definition INFEASIBLE : Z := 3.

Definition addConstr (m : Model) (name : cname) (c : TempConstr) : Model :=
  mk_Model (n_P m) (n_L m) (B_bounds m) (constrs m ++ [(name, c)])
    (objective m) (status m) (X m).

Fixpoint remove_first (name : cname) (cs : list (cname * TempConstr))
    : list (cname * TempConstr) :=
  match cs with
  | [] => []
  | c :: cs' => if cname_eqb (fst c) name then cs' else c :: remove_first name cs'
  end.

(** [try: c = m.getConstrByName(name); m.remove(c) except Exception: pass]. *)
Definition try_remove (m : Model) (name : cname) : Model :=
  mk_Model (n_P m) (n_L m) (B_bounds m) (remove_first name (constrs m))
    (objective m) (status m) (X m).

Definition setObjective (m : Model) (e : LinExpr) : Model :=
  mk_Model (n_P m) (n_L m) (B_bounds m) (constrs m) e (status m) (X m).

(** [m.optimize()]: the external solver decides the status and the values. *)
Definition optimize (solver : Model -> Z * (var -> Q)) (m : Model) : Model :=
  mk_Model (n_P m) (n_L m) (B_bounds m) (constrs m) (objective m)
    (fst (solver m)) (snd (solver m)).

(** *** What an assignment has to satisfy *)

Definition eval_expr (a : var -> Q) (e : LinExpr) : Q :=
  Qsum (map (fun t => fst t * a (snd t)) (terms e)) + constant e.

Definition holds (a : var -> Q) (c : TempConstr) : Prop :=
  match rel c with
  | LESS_EQUAL => eval_expr a (lhs c) <= eval_expr a (rhs c)
  | EQUAL => eval_expr a (lhs c) == eval_expr a (rhs c)
  | GREATER_EQUAL => eval_expr a (rhs c) <= eval_expr a (lhs c)
  end.

Definition in_bounds (m : Model) (a : var -> Q) : Prop :=
  (forall j, (j < n_P m)%nat -> a (P j) == 0 \/ a (P j) == 1) /\
  (forall i, (i < n_L m)%nat -> 0 <= a (L i) <= 1) /\
  match B_bounds m with
  | Some (lb, Some ub) => lb <= a B <= ub
  | Some (lb, None) => lb <= a B
  | None => True
  end.

Definition feasible (m : Model) (a : var -> Q) : Prop :=
  in_bounds m a /\ forall nc, In nc (constrs m) -> holds a (snd nc).

(** ** [KantchelianAttack.__init__]: the constraint model builder *)

(** The norm order: [np.inf], or a natural exponent (0, 1, 2). *)
Inductive norm_order : Type :=
| inf
| Lp (rho : nat).

Definition is_inf (o : norm_order) : bool :=
  match o with inf => true | Lp _ => false end.

Definition is_None {A : Type} (o : option A) : bool :=
  match o with None => true | Some _ => false end.

(** Truth value of [epsilon] in [if epsilon:]. *)
Definition truthy (epsilon : option Q) : bool :=
  match epsilon with
  | None => false
  | Some e => negb (Qeq_bool e 0)
  end.

(** [pdict]: [{attr: [(threshold, var), ...]}] in insertion order. *)
Definition pdict_t : Type := list (nat * list (Q * var)).

Fixpoint pdict_add (pd : pdict_t) (attr : nat) (e : Q * var) : pdict_t :=
  match pd with
  | [] => [(attr, [e])]
  | (k, l) :: pd' =>
      if (k =? attr)%nat then (k, l ++ [e]) :: pd'
      else (k, l) :: pdict_add pd' attr e
  end.

Definition build_pdict (nodes : list node_wrapper) : pdict_t :=
  fold_left (fun pd it => pdict_add pd (attribute (snd it)) (threshold (snd it), P (fst it)))
    (enumerate 0 nodes) [].

(** [list.sort(key=lambda tup: tup[0])]: stable, ascending in the threshold. *)
Fixpoint insert_by_key (a : Q * var) (l : list (Q * var)) : list (Q * var) :=
  match l with
  | [] => [a]
  | b :: l' => if Qlt_bool (fst b) (fst a) then b :: insert_by_key a l' else a :: l
  end.

Definition sort_by_key (l : list (Q * var)) : list (Q * var) :=
  fold_right insert_by_key [] l.

(** The inner loop on consecutive splits of one feature: the ordering
    constraints and the running [min_diff]. *)
Fixpoint consis_loop (key i : nat) (l : list (Q * var)) (min_diff : Q)
    : list (cname * TempConstr) * Q :=
  match l with
  | a :: ((b :: _) as l') =>
      let r := consis_loop key (S i) l' (py_min min_diff (fst b - fst a)) in
      ((p_consis_attr key i,
        mk_TempConstr (expr_var (snd a)) LESS_EQUAL (expr_var (snd b))) :: fst r, snd r)
  | _ => ([], min_diff)
  end.

(** The guard update after a feature's [min_diff] is known. *)
Definition shrink_guard (min_diff guard : Q) : Q :=
  if Qlt_bool min_diff (2 * guard) then min_diff / 3 else guard.

(** One iteration of [for key in self.pdict.keys()]: the state is the
    dictionary rebuilt so far, the constraints added and the guard value. *)
Definition p_constraints_key (acc : pdict_t * list (cname * TempConstr) * Q)
    (entry : nat * list (Q * var)) : pdict_t * list (cname * TempConstr) * Q :=
  let '(pd, cs, guard) := acc in
  let min_diff := 1000 in
  if (1 <? length (snd entry))%nat then
    let sorted := sort_by_key (snd entry) in
    let r := consis_loop (fst entry) 0 sorted min_diff in
    (pd ++ [(fst entry, sorted)], cs ++ fst r, shrink_guard (snd r) guard)
  else (pd ++ [entry], cs, guard).

Definition p_constraints (pd : pdict_t) (guard : Q)
    : pdict_t * list (cname * TempConstr) * Q :=
  fold_left p_constraints_key pd ([], [], guard).

(** "all leaves sum up to 1", one constraint per tree. *)
Fixpoint leaf_sum_constraints (i : nat) (counts : list nat)
    : list (cname * TempConstr) :=
  match counts with
  | a :: ((b :: _) as rest) =>
      (leaf_sum_one_for_tree i,
       mk_TempConstr (LinExpr_of (repeat 1 (b - a)) (map L (seq a (b - a))))
         EQUAL (expr_const 1))
        :: leaf_sum_constraints (S i) rest
  | _ => []
  end.

(** [LinExpr([1] * len(vars), vars)]. *)
Definition ones_expr (vars : list var) : LinExpr :=
  LinExpr_of (repeat 1 (length vars)) vars.

(** "node leaves constraints" for occurrence [k] of [node_list[j]]. *)
Definition node_leaves_item (j k : nat) (item : leaves_item)
    : list (cname * TempConstr) :=
  let p := P j in
  let left_l := map L (left_leaves item) in
  let right_l := map L (right_leaves item) in
  if is_root item then
    [ (p_root_left j k,
       mk_TempConstr (expr_sub_var (ones_expr left_l) p) EQUAL (expr_const 0));
      (p_root_right j k,
       mk_TempConstr (expr_add_var (ones_expr right_l) p) EQUAL (expr_const 1)) ]
  else
    [ (p_left j k,
       mk_TempConstr (expr_sub_var (ones_expr left_l) p) LESS_EQUAL (expr_const 0));
      (p_right j k,
       mk_TempConstr (expr_add_var (ones_expr right_l) p) LESS_EQUAL (expr_const 1)) ].

Definition node_leaves_constraints (nodes : list node_wrapper)
    : list (cname * TempConstr) :=
  flat_map (fun jn =>
      flat_map (fun ki => node_leaves_item (fst jn) (fst ki) (snd ki))
        (enumerate 0 (leaves_lists (snd jn))))
    (enumerate 0 nodes).

Record KantchelianAttack : Type := mk_KantchelianAttack {
  pred_threshold : Q;
  epsilon : option Q;
  binary : bool;
  pos_json_input : option (list json_tree);
  neg_json_input : option (list json_tree);
  guard_val : Q;
  round_digits : Z;
  json_model : option (list json_tree);
  order : norm_order;
  verbose : bool;
  n_threads : nat;
  compiled : compiler;       (* node_list, leaf_v_list, leaf_pos_list, leaf_count *)
  m : Model;
  pdict : pdict_t
}.

Definition KantchelianAttack_init
    (json_model : option (list json_tree)) (epsilon : option Q) (order : norm_order)
    (guard_val : Q) (round_digits : Z)
    (pos_json_input neg_json_input : option (list json_tree))
    (pred_threshold : Q) (verbose : bool) (n_threads : nat)
    : result KantchelianAttack :=
  if negb (is_None epsilon || is_inf order) then
    Raise (AssertionError "feasibility epsilon can only be used with order inf")
  else
    let binary := is_None pos_json_input || is_None neg_json_input in
    tc <- compile_ensemble round_digits binary json_model pos_json_input neg_json_input ;;
    let b :=
      if truthy epsilon then
        match epsilon with
        | Some e => Some (0, Some (e - (1 # 10000)))
        | None => None
        end
      else if is_inf order then Some (0, None)
      else None in
    let '(pd, p_cs, guard) := p_constraints (build_pdict (node_list tc)) guard_val in
    let cs := p_cs ++ leaf_sum_constraints 0 (leaf_count tc)
                   ++ node_leaves_constraints (node_list tc) in
    Ok (mk_KantchelianAttack pred_threshold epsilon binary
          pos_json_input neg_json_input guard round_digits json_model order
          verbose n_threads tc
          (mk_Model (length (node_list tc)) (length (leaf_v_list tc)) b cs
             (expr_const 0) LOADED (fun _ => 0))
          pd).

(** ** The distance linearizer shared by both queries *)

(** One step of the loop over [axis = [-inf] + thresholds + [inf]]: [lo] is
    [axis[i-1]] ([None] for [-inf]), [hi] is [axis[i]] ([None] for [inf]);
    comparisons against an infinite bound are already decided.  [pw] is the
    power applied to a distance. *)
Definition w_entry (pw : Q -> Q) (guard xk : Q) (lo hi : option Q) : result Q :=
  match lo, hi with
  | None, None => Ok 0
  | None, Some h =>
      if Qlt_bool xk h then Ok 0
      else Ok (pw (Qabs (xk - h + guard)))
  | Some l, None =>
      if Qle_bool l xk then Ok 0
      else Ok (pw (Qabs (xk - l)))
  | Some l, Some h =>
      if Qlt_bool xk h && Qle_bool l xk then Ok 0
      else if Qlt_bool xk h && Qlt_bool xk l then Ok (pw (Qabs (xk - l)))
      else if Qle_bool h xk && Qle_bool l xk then Ok (pw (Qabs (xk - h + guard)))
      else Raise (ValueError "wrong axis ordering")
  end.

(** [for i in range(len(w) - 1): w[i] -= w[i + 1]]. *)
Fixpoint diffs (w : list Q) : list Q :=
  match w with
  | a :: ((b :: _) as rest) => (a - b) :: diffs rest
  | _ => w
  end.

(** The list [w] of one feature, after differencing. *)
Definition w_list (pw : Q -> Q) (guard xk : Q) (ths : list Q) : result (list Q) :=
  w <- mapM (fun lh => w_entry pw guard xk (fst lh) (snd lh))
         (combine (None :: map Some ths) (map Some ths ++ [None])) ;;
  Ok (diffs w).

Definition pdict_list_empty : exn := ValueError "self.pdict list empty".

(** [LinExpr(w[:-1], [item[1] for item in pdict[key]]) + w[-1] <= self.B]. *)
Definition linf_constr (w : list Q) (l : list (Q * var)) : TempConstr :=
  mk_TempConstr (expr_add_const (LinExpr_of (removelast w) (map snd l)) (last w 0))
    LESS_EQUAL (expr_var B).

(** [LinExpr(leaf_v_list, llist) <= pred_threshold - guard_val], or
    [>= pred_threshold + guard_val]. *)
Definition mislabel_constr (self : KantchelianAttack) (label : nat) : TempConstr :=
  let llist := map L (seq 0 (n_L (m self))) in
  let e := LinExpr_of (leaf_v_list (compiled self)) llist in
  if negb (binary self) || (label =? 1)%nat then
    mk_TempConstr e LESS_EQUAL (expr_const (pred_threshold self - guard_val self))
  else
    mk_TempConstr e GREATER_EQUAL (expr_const (pred_threshold self + guard_val self)).

Definition set_m (self : KantchelianAttack) (m' : Model) : KantchelianAttack :=
  mk_KantchelianAttack (pred_threshold self) (epsilon self) (binary self)
    (pos_json_input self) (neg_json_input self) (guard_val self) (round_digits self)
    (json_model self) (order self) (verbose self) (n_threads self) (compiled self)
    m' (pdict self).

(** ** [KantchelianAttack.attack]: the feasibility query *)

(** One iteration of "Generate constraints for self.B". *)
Definition attack_key (guard : Q) (x : sample) (mdl : Model)
    (entry : nat * list (Q * var)) : result Model :=
  let key := fst entry in
  let l := snd entry in
  if (length l =? 0)%nat then Raise pdict_list_empty
  else
    xk <- getitem x key ;;
    w <- w_list (fun d => d) guard xk (map fst l) ;;
    let m1 := try_remove mdl (linf_constr_attr key) in
    if is_None (B_bounds m1) then Raise AttributeError
    else Ok (addConstr m1 (linf_constr_attr key) (linf_constr w l)).

(** The model handed to the solver: "mislabel" replaced, one
    "linf_constr_attr" per feature replaced, objective set to the constant 0. *)
Definition attack_model (self : KantchelianAttack) (x : sample) (label : nat)
    : result Model :=
  let m1 := try_remove (m self) mislabel in
  let m2 := addConstr m1 mislabel (mislabel_constr self label) in
  m3 <- foldM (attack_key (guard_val self) x) (pdict self) m2 ;;
  Ok (setObjective m3 (expr_const 0)).

Definition attack (solver : Model -> Z * (var -> Q)) (self : KantchelianAttack)
    (X0 : sample) (label : nat) : result (bool * KantchelianAttack) :=
  let x := X0 in
  m4 <- attack_model self x label ;;
  let m5 := optimize solver m4 in
  Ok ((status m5 =? INFEASIBLE)%Z, set_m self m5).

(** ** [KantchelianAttack.optimal_adversarial_example] *)

(** The prediction of the raw trees on [x]: [1] or [0]. *)
Definition predict (self : KantchelianAttack) (x : sample) : result nat :=
  if binary self then
    match json_model self with
    | None => Raise TypeError
    | Some jm =>
        v <- check x jm ;;
        Ok (if Qle_bool (pred_threshold self) v then 1%nat else 0%nat)
    end
  else
    match pos_json_input self, neg_json_input self with
    | Some pos, Some neg =>
        pos_value <- check x pos ;;
        neg_value <- check x neg ;;
        Ok (if Qle_bool neg_value pos_value then 1%nat else 0%nat)
    | _, _ => Raise TypeError
    end.

(** State of the "model objective" loop: the model, then [obj_c],
    [obj_coeff_list] and [obj_var_list]. *)
Definition objective_key (ord : norm_order) (guard : Q) (x : sample)
    (acc : Model * (Q * list Q * list var)) (entry : nat * list (Q * var))
    : result (Model * (Q * list Q * list var)) :=
  let '(mdl, (obj_c, obj_coeff_list, obj_var_list)) := acc in
  let key := fst entry in
  let l := snd entry in
  let rho := match ord with inf => 1%nat | Lp r => r end in
  if (length l =? 0)%nat then Raise pdict_list_empty
  else
    xk <- getitem x key ;;
    w <- w_list (fun d => Qpower d (Z.of_nat rho)) guard xk (map fst l) ;;
    match ord with
    | Lp _ =>
        Ok (mdl, (obj_c + last w 0, obj_coeff_list ++ removelast w,
                  obj_var_list ++ map snd l))
    | inf =>
        let m1 := try_remove mdl (linf_constr_attr key) in
        if is_None (B_bounds m1) then Raise AttributeError
        else Ok (addConstr m1 (linf_constr_attr key) (linf_constr w l),
                 (obj_c, obj_coeff_list, obj_var_list))
    end.

(** Read one split variable back into the candidate input. *)
Definition reconstruct_node (xval : var -> Q) (guard : Q) (key : nat)
    (x : sample) (node : Q * var) : result sample :=
  x1 <- (if Qlt_bool (1 # 2) (xval (snd node)) then
           xk <- getitem x key ;;
           if Qle_bool (fst node) xk then setitem x key (fst node - guard) else Ok x
         else Ok x) ;;
  if Qle_bool (xval (snd node)) (1 # 2) then
    xk <- getitem x1 key ;;
    if Qlt_bool xk (fst node) then setitem x1 key (fst node + guard) else Ok x1
  else Ok x1.

Definition reconstruct (xval : var -> Q) (guard : Q) (pd : pdict_t) (x : sample)
    : result sample :=
  foldM (fun x entry => foldM (reconstruct_node xval guard (fst entry)) (snd entry) x)
    pd x.

(** The model handed to the solver by the minimal-distance query. *)
Definition minimal_distance_model (self : KantchelianAttack) (x : sample)
    (label : nat) : result Model :=
  let m1 := try_remove (m self) mislabel in
  let m2 := addConstr m1 mislabel (mislabel_constr self label) in
  '(m3, (obj_c, obj_coeff_list, obj_var_list)) <-
     foldM (objective_key (order self) (guard_val self) x) (pdict self)
       (m2, (0, [], [])) ;;
  Ok (match order self with
      | Lp _ => setObjective m3
                  (expr_add_const (LinExpr_of obj_coeff_list obj_var_list) obj_c)
      | inf => setObjective m3 (expr_var B)
      end).

Definition optimal_adversarial_example (solver : Model -> Z * (var -> Q))
    (self : KantchelianAttack) (sample0 : sample) (label : nat)
    : result (option sample * KantchelianAttack) :=
  pred <- predict self sample0 ;;
  let x := sample0 in
  if negb (pred =? label)%nat then Ok (Some x, self)
  else
    m4 <- minimal_distance_model self x label ;;
    let m5 := optimize solver m4 in
    let self' := set_m self m5 in
    if (status m5 =? INFEASIBLE)%Z then Ok (None, self')
    else
      x' <- reconstruct (X m5) (guard_val self) (pdict self) x ;;
      _ <- predict self x' ;;
      Ok (Some x', self').

(** ** [KantchelianAttackMultiClass] *)

(** Round-robin split of the trees: tree [i] goes to class [i % n_classes]. *)
Definition one_vs_all (n_classes : nat) (trees : list json_tree)
    : list (list json_tree) :=
  fold_left (fun models it =>
               list_update models (fst it mod n_classes) (fun l => l ++ [snd it]))
    (enumerate 0 trees) (repeat [] n_classes).

Record KantchelianAttackMultiClass : Type := mk_KantchelianAttackMultiClass {
  n_classes : nat;
  mc_order : norm_order;
  binary_attackers : list (list (option KantchelianAttack))
}.

(** One iteration of [for other_label in range(self.n_classes)] in the
    constructor, for the row of [class_label]. *)
Definition attackers_step (models : list (list json_tree)) (ord : norm_order)
    (guard : Q) (digits : Z) (pred_th : Q) (verb : bool) (threads : nat)
    (class_label : nat) (attackers : list (option KantchelianAttack))
    (other_label : nat) : result (list (option KantchelianAttack)) :=
  let attackers1 :=
    if (class_label =? other_label)%nat then attackers ++ [None] else attackers in
  attacker <- KantchelianAttack_init None None ord guard digits
                (Some (nth class_label models []))
                (Some (nth other_label models []))
                pred_th verb threads ;;
  Ok (attackers1 ++ [Some attacker]).

Definition KantchelianAttackMultiClass_init (trees : list json_tree) (n : nat)
    (ord : norm_order) (guard : Q) (digits : Z) (pred_th : Q) (verb : bool)
    (threads : nat) : result KantchelianAttackMultiClass :=
  if (n <=? 2)%nat then
    Raise (ValueError "multiclass attack must be used when number of class > 2")
  else
    let models := one_vs_all n trees in
    rows <- mapM (fun class_label =>
                    foldM (attackers_step models ord guard digits pred_th verb threads
                             class_label)
                      (seq 0 n) [])
              (seq 0 n) ;;
    Ok (mk_KantchelianAttackMultiClass n ord rows).

(** The quantity compared in [distance < best_distance]: the maximum of the
    absolute differences for [np.inf], the number of changed features for
    order 0, and for an order [p >= 1] the sum of the [p]-th powers, which
    orders perturbations as its [p]-th root does. *)
Definition norm_key (ord : norm_order) (a b : sample) : Q :=
  let d := map (fun ab => Qabs (fst ab - snd ab)) (combine a b) in
  match ord with
  | inf => fold_right (fun v acc => if Qlt_bool acc v then v else acc) 0 d
  | Lp O => inject_Z (Z.of_nat (length (filter (fun v => negb (Qeq_bool v 0)) d)))
  | Lp p => Qsum (map (fun v => Qpower v (Z.of_nat p)) d)
  end.

(** [best_distance] starts at [float("inf")], modelled as [None]. *)
Definition closer (d : Q) (best_distance : option Q) : bool :=
  match best_distance with
  | None => true
  | Some b => Qlt_bool d b
  end.

Definition no_adv_example : exn :=
  Exception "No adversarial example found, does your model predict a constant value?".

(** One iteration of [for other_label in range(self.n_classes)] in the
    query; the state is [(best_distance, best_adv_example)] and the rows of
    attackers, whose models the queries update. *)
Definition multiclass_step (solver : Model -> Z * (var -> Q)) (ord : norm_order)
    (sample0 : sample) (label : nat)
    (acc : option Q * option sample * list (list (option KantchelianAttack)))
    (other_label : nat)
    : result (option Q * option sample * list (list (option KantchelianAttack))) :=
  let '(best_distance, best_adv_example, rows) := acc in
  if (other_label =? label)%nat then Ok acc
  else
    match nth_error rows label with
    | None => Raise IndexError
    | Some row =>
        match nth_error row other_label with
        | None => Raise IndexError
        | Some None => Raise AttributeError
        | Some (Some attacker) =>
            '(adv_example, attacker') <-
               optimal_adversarial_example solver attacker sample0 1 ;;
            let rows' := list_update rows label
                           (fun r => list_update r other_label
                                       (fun _ => Some attacker')) in
            match adv_example with
            | None => Ok (best_distance, best_adv_example, rows')
            | Some adv =>
                let distance := norm_key ord sample0 adv in
                if closer distance best_distance
                then Ok (Some distance, Some adv, rows')
                else Ok (best_distance, best_adv_example, rows')
            end
        end
    end.

Definition multiclass_optimal_adversarial_example
    (solver : Model -> Z * (var -> Q)) (self : KantchelianAttackMultiClass)
    (sample0 : sample) (label : nat)
    : result (sample * KantchelianAttackMultiClass) :=
  '(_, best_adv_example, rows) <-
     foldM (multiclass_step solver (mc_order self) sample0 label)
       (seq 0 (n_classes self)) (None, None, binary_attackers self) ;;
  match best_adv_example with
  | None => Raise no_adv_example
  | Some adv => Ok (adv, mk_KantchelianAttackMultiClass (n_classes self) (mc_order self) rows)
  end.

(** ** Vocabulary of the statements *)

Definition set_epsilon (self : KantchelianAttack) (e : option Q) : KantchelianAttack :=
  mk_KantchelianAttack (pred_threshold self) e (binary self)
    (pos_json_input self) (neg_json_input self) (guard_val self) (round_digits self)
    (json_model self) (order self) (verbose self) (n_threads self) (compiled self)
    (m self) (pdict self).

(** The reading of the reconstruction step in which a split variable equal to
    1 stands for "feature >= threshold": a taken variable with the feature
    below the threshold moves the feature to threshold plus guard, a
    not-taken one with the feature at or above it to threshold minus guard. *)
Definition taken_means_ge (xval : var -> Q) (guard : Q) (key : nat) (x : sample)
    (node : Q * var) : Prop :=
  forall xk, getitem x key = Ok xk ->
    (1 # 2 < xval (snd node) -> xk < fst node ->
       reconstruct_node xval guard key x node = setitem x key (fst node + guard)) /\
    (xval (snd node) <= 1 # 2 -> fst node <= xk ->
       reconstruct_node xval guard key x node = setitem x key (fst node - guard)).

(** ** Running examples *)

(** One split on feature 0 at 5.0, leaf -1.0 below it and +1.0 from it on. *)
Definition stump : json_tree :=
  JSplit 0 0 5 1 2 (JLeaf 1 (- (1))) (JLeaf 2 1).

(** *** Vocabulary for the split ordering groups *)

Definition key_le (a b : Q * var) : Prop := fst a <= fst b.
Definition key_lt (a b : Q * var) : Prop := fst a < fst b.

(** Differences of consecutive elements: the threshold gaps of a feature. *)
Fixpoint gaps (ths : list Q) : list Q :=
  match ths with
  | a :: ((b :: _) as rest) => (b - a) :: gaps rest
  | _ => []
  end.

(** [m] is the minimum of the non-empty list [l]. *)
Definition is_min (mn : Q) (l : list Q) : Prop :=
  (exists d, In d l /\ d == mn) /\ forall d, In d l -> mn <= d.

(** What one iteration of the loop on [pdict] does to the guard value. *)
Definition guard_step (guard : Q) (entry : nat * list (Q * var)) : Q :=
  snd (p_constraints_key ([], [], guard) entry).

(** The guard value after each iteration, in order. *)
Fixpoint guard_trace (pd : pdict_t) (guard : Q) : list Q :=
  match pd with
  | [] => []
  | entry :: pd' => guard_step guard entry :: guard_trace pd' (guard_step guard entry)
  end.

(** Two splits on feature 0 whose thresholds are 0.000001 apart. *)
Definition close_splits : list (Q * var) :=
  [(5, P 0); (5000001 # 1000000, P 1)].

(** *** Vocabulary for the tree compiler *)

(** The child that the loop over [children] resolves for the link [id]
    (the first child when there is none, a case [dfs] rejects). *)
Definition linked_child (id : nat) (c0 c1 : json_tree) : json_tree :=
  match find_child id c0 c1 with
  | Some true => c1
  | _ => c0
  end.

(** Both links of every split resolve, and to different children. *)
Fixpoint well_formed (t : json_tree) : bool :=
  match t with
  | JLeaf _ _ => true
  | JSplit _ _ _ yes no c0 c1 =>
      match find_child yes c0 c1, find_child no c0 c1 with
      | Some a, Some b => negb (eqb a b)
      | _, _ => false
      end && well_formed c0 && well_formed c1
  end.

(** Every link that [dfs] follows resolves. *)
Fixpoint links_resolve (t : json_tree) : bool :=
  match t with
  | JLeaf _ _ => true
  | JSplit _ _ _ yes no c0 c1 =>
      match find_child yes c0 c1, find_child no c0 c1 with
      | Some _, Some _ =>
          links_resolve (linked_child yes c0 c1) && links_resolve (linked_child no c0 c1)
      | _, _ => false
      end
  end.

(** Leaves in the order [dfs] meets them: "yes" side first. *)
Fixpoint n_leaves (t : json_tree) : nat :=
  match t with
  | JLeaf _ _ => 1
  | JSplit _ _ _ yes no c0 c1 =>
      n_leaves (linked_child yes c0 c1) + n_leaves (linked_child no c0 c1)
  end.

Fixpoint tree_leaves (neg : bool) (t : json_tree) : list Q :=
  match t with
  | JLeaf _ leaf => [if neg then - leaf else leaf]
  | JSplit _ _ _ yes no c0 c1 =>
      tree_leaves neg (linked_child yes c0 c1) ++ tree_leaves neg (linked_child no c0 c1)
  end.

Fixpoint tree_leaf_pos (treeid : nat) (t : json_tree) : list (nat * nat) :=
  match t with
  | JLeaf nodeid _ => [(treeid, nodeid)]
  | JSplit _ _ _ yes no c0 c1 =>
      tree_leaf_pos treeid (linked_child yes c0 c1)
      ++ tree_leaf_pos treeid (linked_child no c0 c1)
  end.

(** One visit of a split by [dfs]: its rounded key, its position
    [(treeid, nodeid)] and the leaf indices on its two sides. *)
Record occurrence : Type := mk_occurrence {
  occ_key : split_key;
  occ_pos : nat * nat;
  occ_item : leaves_item
}.

(** The visits of [dfs] to the splits of a tree, in order (post-order),
    when the first leaf of the tree gets index [start]. *)
Fixpoint occurrences (round_digits : Z) (t : json_tree) (treeid : nat) (root : bool)
    (start : nat) : list occurrence :=
  match t with
  | JLeaf _ _ => []
  | JSplit nodeid attr th yes no c0 c1 =>
      let l := linked_child yes c0 c1 in
      let r := linked_child no c0 c1 in
      occurrences round_digits l treeid false start
      ++ occurrences round_digits r treeid false (start + n_leaves l)
      ++ [mk_occurrence (attr, py_round th round_digits) (treeid, nodeid)
            (mk_leaves_item (seq start (n_leaves l))
               (seq (start + n_leaves l) (n_leaves r)) root)]
  end.

(** What [dfs] does with a visited split: a new [node_wrapper] when the key
    is not in [node_check], one more occurrence of the known one otherwise. *)
Definition record_occurrence (st : compiler) (o : occurrence) : compiler :=
  match dict_get (node_check st) (occ_key o) with
  | None =>
      let nl := node_list st ++
                [node_wrapper_init (fst (occ_pos o)) (snd (occ_pos o))
                   (fst (occ_key o)) (snd (occ_key o))
                   (left_leaves (occ_item o)) (right_leaves (occ_item o))
                   (is_root (occ_item o))] in
      mk_compiler nl (leaf_v_list st) (leaf_pos_list st) (leaf_count st)
        (node_check st ++ [(occ_key o, (length nl - 1)%nat)])
  | Some node_index =>
      mk_compiler
        (list_update (node_list st) node_index
           (fun n => add_leaves n (fst (occ_pos o)) (snd (occ_pos o))
                       (left_leaves (occ_item o)) (right_leaves (occ_item o))
                       (is_root (occ_item o))))
        (leaf_v_list st) (leaf_pos_list st) (leaf_count st) (node_check st)
  end.

Definition with_leaves (st : compiler) (vs : list Q) (ps : list (nat * nat))
    : compiler :=
  mk_compiler (node_list st) (leaf_v_list st ++ vs) (leaf_pos_list st ++ ps)
    (leaf_count st) (node_check st).

(** The state [dfs] leaves behind on [t] entered with [st]. *)
Definition after_dfs (d : Z) (neg : bool) (t : json_tree) (treeid : nat) (root : bool)
    (st : compiler) : compiler :=
  with_leaves
    (fold_left record_occurrence
       (occurrences d t treeid root (length (leaf_v_list st))) st)
    (tree_leaves neg t) (tree_leaf_pos treeid t).

(** The visits over a list of numbered trees. *)
Fixpoint forest_occurrences (round_digits : Z) (its : list (nat * json_tree))
    (start : nat) : list occurrence :=
  match its with
  | [] => []
  | it :: rest =>
      occurrences round_digits (snd it) (fst it) true start
      ++ forest_occurrences round_digits rest (start + n_leaves (snd it))
  end.

(** The trees an attacker compiles, in order. *)
Definition ensemble (self : KantchelianAttack) : list json_tree :=
  if binary self then
    match json_model self with Some trees => trees | None => [] end
  else
    match pos_json_input self, neg_json_input self with
    | Some pos, Some neg => pos ++ neg
    | _, _ => []
    end.

(** All the splits of a tree: [nodeid] and rounded key. *)
Fixpoint tree_splits (round_digits : Z) (t : json_tree) : list (nat * split_key) :=
  match t with
  | JLeaf _ _ => []
  | JSplit nodeid attr th _ _ c0 c1 =>
      (nodeid, (attr, py_round th round_digits))
        :: tree_splits round_digits c0 ++ tree_splits round_digits c1
  end.

Definition split_key_eq_dec (a b : split_key) : {a = b} + {a <> b}.
Proof. repeat decide equality. Defined.

Definition node_key (n : node_wrapper) : split_key := (attribute n, threshold n).

Definition push_counts (st : compiler) (cs : list nat) : compiler :=
  mk_compiler (node_list st) (leaf_v_list st) (leaf_pos_list st)
    (leaf_count st ++ cs) (node_check st).

Definition forest_leaves (neg : bool) (its : list (nat * json_tree)) : list Q :=
  flat_map (fun it => tree_leaves neg (snd it)) its.

Definition forest_leaf_pos (its : list (nat * json_tree)) : list (nat * nat) :=
  flat_map (fun it => tree_leaf_pos (fst it) (snd it)) its.

(** The running leaf totals appended to [leaf_count], tree after tree. *)
Fixpoint running_counts (start : nat) (its : list (nat * json_tree)) : list nat :=
  match its with
  | [] => []
  | it :: rest =>
      (start + n_leaves (snd it))%nat
        :: running_counts (start + n_leaves (snd it)) rest
  end.

(** The state after compiling the numbered trees [its] from [st]. *)
Definition after_forest (d : Z) (neg : bool) (its : list (nat * json_tree))
    (st : compiler) : compiler :=
  push_counts
    (with_leaves
       (fold_left record_occurrence
          (forest_occurrences d its (length (leaf_v_list st))) st)
       (forest_leaves neg its) (forest_leaf_pos its))
    (running_counts (length (leaf_v_list st)) its).

(** A rational stored in lowest terms. *)
Definition canonical (q : Q) : Prop := Qred q = q.

(** The dictionary [node_check] maps the key of [node_list[j]] to [j], the
    keys are pairwise different and their thresholds are in lowest terms. *)
Definition compiler_inv (st : compiler) : Prop :=
  node_check st = combine (map node_key (node_list st))
                    (seq 0 (length (node_list st))) /\
  NoDup (map node_key (node_list st)) /\
  Forall (fun k => canonical (snd k)) (map node_key (node_list st)).

(** The visit [o] is an occurrence of the entry its key is mapped to. *)
Definition recorded (st : compiler) (o : occurrence) : Prop :=
  exists j node,
    dict_get (node_check st) (occ_key o) = Some j /\
    nth_error (node_list st) j = Some node /\
    node_key node = occ_key o /\
    In (occ_pos o) (node_pos node) /\
    In (occ_item o) (leaves_lists node).

(** *** Vocabulary for the feasibility query *)

Definition with_B_bounds (mdl : Model) (b : option (Q * option Q)) : Model :=
  mk_Model (n_P mdl) (n_L mdl) b (constrs mdl) (objective mdl) (status mdl) (X mdl).

(** The solver is exact on a model: it reports status 3 exactly when no
    assignment satisfies the bounds and the constraints. *)
Definition exact_on (solver : Model -> Z * (var -> Q)) (mq : Model) : Prop :=
  fst (solver mq) = INFEASIBLE <-> ~ exists a, feasible mq a.

(** *** More running examples *)

(** Feature 0 at 5.0 at the root, then feature 1 at 1.5 and feature 0 at 7.0. *)
Definition two_level : json_tree :=
  JSplit 0 0 5 1 2
    (JSplit 1 1 (3 # 2) 3 4 (JLeaf 3 1) (JLeaf 4 2))
    (JSplit 2 0 7 5 6 (JLeaf 5 3) (JLeaf 6 4)).

(** A solver that always answers "infeasible". *)
Definition never_feasible (mdl : Model) : Z * (var -> Q) := (INFEASIBLE, fun _ => 0).

(** ** [node_wrapper.add_grb_var] (lines 70-81)

    The two attributes it sets, [p_grb_var] and [l_grb_var_list]:
    [leaf_grb_var_list[i]] raises [IndexError] out of range.  The third
    component of an element is [true] for a tuple ending in ["root"]. *)
Definition list_getitem {A : Type} (l : list A) (i : nat) : result A :=
  match nth_error l i with
  | Some v => Ok v
  | None => Raise IndexError
  end.

Definition add_grb_var (self : node_wrapper) (node_grb_var : var)
    (leaf_grb_var_list : list var)
    : result (var * list (list var * list var * bool)) :=
  l_grb_var_list <-
    mapM (fun item =>
            left_leaf_grb_var <- mapM (list_getitem leaf_grb_var_list) (left_leaves item) ;;
            right_leaf_grb_var <- mapM (list_getitem leaf_grb_var_list) (right_leaves item) ;;
            Ok (left_leaf_grb_var, right_leaf_grb_var, is_root item))
      (leaves_lists self) ;;
  Ok (node_grb_var, l_grb_var_list).

(** [self.llist] and [self.plist]. *)
Definition llist (self : KantchelianAttack) : list var :=
  map L (seq 0 (n_L (m self))).
Definition plist (self : KantchelianAttack) : list var :=
  map P (seq 0 (n_P (m self))).

(** The two sides of an occurrence are adjacent non-empty index ranges that
    end before [bound]. *)
Definition adjacent_ranges (item : leaves_item) (bound : nat) : Prop :=
  exists s nl nr,
    left_leaves item = seq s nl /\ right_leaves item = seq (s + nl) nr /\
    (0 < nl)%nat /\ (0 < nr)%nat /\ (s + nl + nr <= bound)%nat.

(** Every item of every entry is the item of a visit with the entry's key. *)
Definition items_from (st : compiler) (occs : list occurrence) : Prop :=
  forall node item,
    In node (node_list st) -> In item (leaves_lists node) ->
    exists o, In o occs /\ occ_key o = node_key node /\ occ_item o = item.

(** The leaf values of the compiled trees in traversal order; those of the
    negative ensemble are negated. *)
Definition ensemble_leaf_values (self : KantchelianAttack) : list Q :=
  if binary self then forest_leaves false (enumerate 0 (ensemble self))
  else
    match pos_json_input self, neg_json_input self with
    | Some pos, Some neg =>
        forest_leaves false (enumerate 0 pos)
        ++ forest_leaves true (enumerate (length pos) neg)
    | _, _ => []
    end.

(** The exception the constructor ends with, [None] when it returns. *)
Definition init_exception (jm : option (list json_tree)) (eps : option Q)
    (ord : norm_order) (pos neg : option (list json_tree)) : option exn :=
  if negb (is_None eps || is_inf ord) then
    Some (AssertionError "feasibility epsilon can only be used with order inf")
  else
    match pos, neg with
    | Some ptrees, Some ntrees =>
        if forallb links_resolve (ptrees ++ ntrees) then None else Some missing_child
    | _, _ =>
        match jm with
        | None => Some TypeError
        | Some trees =>
            if forallb links_resolve trees then None else Some missing_child
        end
    end.

(** *** Vocabulary for [pdict] *)

(** [pdict.get(a, [])]. *)
Definition lookup_pdict (pd : pdict_t) (a : nat) : list (Q * var) :=
  match find (fun e => (fst e =? a)%nat) pd with
  | Some e => snd e
  | None => []
  end.

(** The pairs (threshold, variable) of the entries of [nodes] on feature
    [a], in the order of [node_list]; the first entry has index [s]. *)
Definition entries_of (a : nat) (s : nat) (nodes : list node_wrapper)
    : list (Q * var) :=
  map (fun jn => (threshold (snd jn), P (fst jn)))
    (filter (fun jn => (attribute (snd jn) =? a)%nat) (enumerate s nodes)).

(** *** Vocabulary for the reconstruction *)

(** What the two tests of the reconstruction loop make of a feature value
    [xk] for a split at [th] whose variable has the value [p]. *)
Definition nudge (guard p xk th : Q) : Q :=
  if Qlt_bool (1 # 2) p then
    if Qle_bool th xk then th - guard else xk
  else
    if Qlt_bool xk th then th + guard else xk.

(** The feature value after all the splits of one feature were read back. *)
Definition nudge_all (xval : var -> Q) (guard : Q) (l : list (Q * var)) (xk : Q) : Q :=
  fold_left (fun y node => nudge guard (xval (snd node)) y (fst node)) l xk.

(** Rounding to [round_digits] leaves every threshold of the tree as it is. *)
Fixpoint thresholds_rounded (round_digits : Z) (t : json_tree) : bool :=
  match t with
  | JLeaf _ _ => true
  | JSplit _ _ th _ _ c0 c1 =>
      Qeq_bool (py_round th round_digits) th
      && thresholds_rounded round_digits c0 && thresholds_rounded round_digits c1
  end.

(** Two splits of a feature, the first before the second: their thresholds
    are at least [guard] apart and their variables ordered. *)
Definition separated (xval : var -> Q) (guard : Q) (a b : Q * var) : Prop :=
  fst a + guard <= fst b /\ xval (snd a) <= xval (snd b).

(** The feature value [y] is on the side of the split that its variable
    says: below the threshold for a variable above 0.5, at or above it
    otherwise. *)
Definition consistent (xval : var -> Q) (y : Q) (node : Q * var) : Prop :=
  (1 # 2 < xval (snd node) -> y < fst node) /\
  (xval (snd node) <= 1 # 2 -> fst node <= y).

(** *** Vocabulary for the leaf variables *)

Definition leaf_sum (a : var -> Q) (idxs : list nat) : Q :=
  Qsum (map (fun i => a (L i)) idxs).

(** The sum of [value * leaf variable] over the leaves that start at [s]. *)
Definition leaf_value (a : var -> Q) (vs : list Q) (s : nat) : Q :=
  Qsum (map (fun vi => fst vi * a (L (snd vi))) (combine vs (seq s (length vs)))).

(** What the coupling constraints of a visit say under [a], with the sample
    [x] on the side of the split that its variable says. *)
Definition side_ok (a : var -> Q) (x : sample) (o : occurrence) : Prop :=
  exists pv xk,
    nth_error x (fst (occ_key o)) = Some xk /\
    (pv == 0 \/ pv == 1) /\
    leaf_sum a (left_leaves (occ_item o)) <= pv /\
    leaf_sum a (right_leaves (occ_item o)) <= 1 - pv /\
    (1 # 2 < pv -> xk < snd (occ_key o)) /\
    (pv <= 1 # 2 -> snd (occ_key o) <= xk).

(** The leaf variables of every tree sum to one. *)
Fixpoint forest_mass_ok (a : var -> Q) (its : list (nat * json_tree)) (s : nat)
    : Prop :=
  match its with
  | [] => True
  | it :: rest =>
      leaf_sum a (seq s (n_leaves (snd it))) == 1 /\
      forest_mass_ok a rest (s + n_leaves (snd it))
  end.

(** *** Vocabulary for the queries *)

(** The name is not one of those a query replaces. *)
Definition kept_name (n : cname) : Prop :=
  n <> mislabel /\ forall key, n <> linf_constr_attr key.

(** A solver answer for the stump attacked at [[3]] with label 0: status 2
    (optimal), the split not taken, the second leaf selected, distance 2. *)
Definition stump_solver (mdl : Model) : Z * (var -> Q) :=
  (2%Z, fun v => match v with
                 | P _ => 0
                 | L 1 => 1
                 | L _ => 0
                 | B => 2
                 end).

(** *** Vocabulary for repeated queries *)

(** A model with the status and the values an earlier [optimize] left. *)
Definition with_solution (mdl : Model) (st : Z) (xv : var -> Q) : Model :=
  mk_Model (n_P mdl) (n_L mdl) (B_bounds mdl) (constrs mdl) (objective mdl) st xv.

(** The "linf_constr_attr" constraints a model holds, in the order of the
    features of [pdict]; [f] gives the constraint of a feature, if any. *)
Definition linf_part (f : nat * list (Q * var) -> option TempConstr) (pd : pdict_t)
    : list (cname * TempConstr) :=
  flat_map (fun e => match f e with
                     | Some c => [(linf_constr_attr (fst e), c)]
                     | None => []
                     end) pd.

(** The attackers reached from [self] by queries that returned. *)
Inductive queried (solver : Model -> Z * (var -> Q)) (self : KantchelianAttack)
    : KantchelianAttack -> Prop :=
| queried_fresh : queried solver self self
| queried_attack (s s' : KantchelianAttack) (x : sample) (label : nat) (r : bool) :
    queried solver self s ->
    attack solver s x label = Ok (r, s') ->
    queried solver self s'
| queried_optimal (s s' : KantchelianAttack) (x : sample) (label : nat)
    (r : option sample) :
    queried solver self s ->
    optimal_adversarial_example solver s x label = Ok (r, s') ->
    queried solver self s'.

(** *** Vocabulary for the multiclass query *)

(** [self.binary_attackers[label][other_label]], when both indices exist. *)
Definition attacker_at (rows : list (list (option KantchelianAttack)))
    (label other_label : nat) : option (option KantchelianAttack) :=
  match nth_error rows label with
  | Some row => nth_error row other_label
  | None => None
  end.

(** The attacker consulted for [other_label] returned the example [adv]. *)
Definition found_by (solver : Model -> Z * (var -> Q))
    (rows : list (list (option KantchelianAttack))) (x : sample)
    (label other_label : nat) (adv : sample) : Prop :=
  other_label <> label /\
  exists a a', attacker_at rows label other_label = Some (Some a) /\
               optimal_adversarial_example solver a x 1 = Ok (Some adv, a').

(** [(best_distance, best_adv_example)] after the labels below [t] were
    tried: nothing was found, or the best example was found by one of them
    and none of them found a closer one. *)
Definition best_so_far (solver : Model -> Z * (var -> Q)) (ord : norm_order)
    (rows : list (list (option KantchelianAttack))) (x : sample) (label t : nat)
    (best_distance : option Q) (best_adv_example : option sample) : Prop :=
  match best_adv_example with
  | None =>
      best_distance = None /\
      forall o adv, (o < t)%nat -> ~ found_by solver rows x label o adv
  | Some adv =>
      best_distance = Some (norm_key ord x adv) /\
      (exists o, (o < t)%nat /\ found_by solver rows x label o adv) /\
      forall o adv2, (o < t)%nat -> found_by solver rows x label o adv2 ->
                     norm_key ord x adv <= norm_key ord x adv2
  end.

(** *** Vocabulary for [check] *)

(** Every split of the tree tests a feature the sample has. *)
Fixpoint features_within (n : nat) (t : json_tree) : bool :=
  match t with
  | JLeaf _ _ => true
  | JSplit _ attribute _ _ _ c0 c1 =>
      (attribute <? n)%nat && features_within n c0 && features_within n c1
  end.

(** *** A running example with a pair of ensembles *)

(** A solver answer for the stump against the constant tree 0, attacked at
    [[7]] toward the negative side: status 2 (optimal), the split taken, the
    first leaf of the stump and the leaf of the constant tree selected,
    distance 3. *)
Definition pair_solver (mdl : Model) : Z * (var -> Q) :=
  (2%Z, fun v => match v with
                 | P _ => 1
                 | L 0 => 1
                 | L 2 => 1
                 | L _ => 0
                 | B => 3
                 end).

(** * Properties *)

Unset Implicit Arguments.

(** ** Elementary facts on the error monad and on lists *)

Lemma bind_Ok_inv {A B : Type} (c : result A) (k : A -> result B) (b : B) :
  bind c k = Ok b -> exists a, c = Ok a /\ k a = Ok b.
Proof.
  destruct c as [a | e]; simpl; intros H; [exists a; auto | discriminate].
Qed.

Ltac bind_inv H :=
  let a := fresh "r" in
  let Ha := fresh "Hr" in
  apply bind_Ok_inv in H; destruct H as [a [Ha H]].

Lemma in_enumerate {A : Type} (l : list A) (start j : nat) (x : A) :
  nth_error l j = Some x -> In ((start + j)%nat, x) (enumerate start l).
Proof.
  unfold enumerate. revert start j.
  induction l as [| a l IH]; intros start j H.
  - destruct j; discriminate.
  - destruct j as [| j]; simpl in *.
    + left. inversion H. f_equal. lia.
    + right. replace (start + S j)%nat with (S start + j)%nat by lia.
      apply IH. exact H.
Qed.

Lemma enumerate_in {A : Type} (l : list A) (start i : nat) (x : A) :
  In (i, x) (enumerate start l) ->
  (start <= i)%nat /\ nth_error l (i - start) = Some x.
Proof.
  unfold enumerate. revert start.
  induction l as [| a l IH]; intros start H; simpl in H.
  - contradiction.
  - destruct H as [H | H].
    + inversion H; subst. split; [lia |]. now rewrite Nat.sub_diag.
    + apply IH in H. destruct H as [Hle Hn]. split; [lia |].
      replace (i - start)%nat with (S (i - S start)) by lia. exact Hn.
Qed.

(** ** The node-leaf coupling constraints (lines 260-283) *)

Lemma node_leaves_item_in (nodes : list node_wrapper) (j k : nat)
    (node : node_wrapper) (item : leaves_item) (nc : cname * TempConstr) :
  nth_error nodes j = Some node ->
  nth_error (leaves_lists node) k = Some item ->
  In nc (node_leaves_item j k item) ->
  In nc (node_leaves_constraints nodes).
Proof.
  intros Hj Hk Hin. unfold node_leaves_constraints.
  apply in_flat_map. exists (j, node). split.
  - apply (in_enumerate nodes 0 j _ Hj).
  - apply in_flat_map. exists (k, item). split.
    + apply (in_enumerate (leaves_lists node) 0 k _ Hk).
    + exact Hin.
Qed.

Lemma init_constrs (jm : option (list json_tree)) (eps : option Q) (ord : norm_order)
    (g : Q) (d : Z) (pos neg : option (list json_tree)) (thr : Q) (vb : bool)
    (nt : nat) (self : KantchelianAttack) :
  KantchelianAttack_init jm eps ord g d pos neg thr vb nt = Ok self ->
  constrs (m self) =
    snd (fst (p_constraints (build_pdict (node_list (compiled self))) g))
    ++ leaf_sum_constraints 0 (leaf_count (compiled self))
    ++ node_leaves_constraints (node_list (compiled self)).
Proof.
  unfold KantchelianAttack_init.
  destruct (negb (is_None eps || is_inf ord)); [discriminate |].
  intros H. bind_inv H.
  destruct (p_constraints (build_pdict (node_list r)) g) as [[pd cs] g'] eqn:Hp.
  inversion H; subst; simpl. rewrite Hp. reflexivity.
Qed.



(** ** The early return of the minimal-distance query (lines 346-355) *)

(** C6. When the prediction of the raw trees on the sample already differs
    from the asserted label, the query returns the sample itself; the
    attacker (its model included) is left as it was, whatever the solver. *)
Theorem wrong_prediction_returns_sample (solver : Model -> Z * (var -> Q))
    (self : KantchelianAttack) (s : sample) (label pred : nat) :
  predict self s = Ok pred ->
  pred <> label ->
  optimal_adversarial_example solver self s label = Ok (Some s, self).
Proof.
  intros Hp Hne. unfold optimal_adversarial_example. rewrite Hp. simpl.
  apply Nat.eqb_neq in Hne. rewrite Hne. reflexivity.
Qed.

Lemma wrong_prediction_returns_sample_witness :
  exists self,
    KantchelianAttack_init (Some [stump]) None inf GUARD_VAL ROUND_DIGITS None None
      0 false 1 = Ok self /\
    optimal_adversarial_example (fun _ => (INFEASIBLE, fun _ => 0)) self [7] 0
      = Ok (Some [7], self).
Proof.
  eexists. split; [vm_compute; reflexivity |].
  apply (wrong_prediction_returns_sample _ _ [7] 0%nat 1%nat);
    [reflexivity | discriminate].
Defined.

(** ** Comparisons *)

Lemma Qlt_bool_iff (a b : Q) : Qlt_bool a b = true <-> a < b.
Proof.
  unfold Qlt_bool. rewrite negb_true_iff. split; intros H.
  - apply Qnot_le_lt. intros Hle. apply Qle_bool_iff in Hle. congruence.
  - destruct (Qle_bool b a) eqn:E; [| reflexivity].
    apply Qle_bool_iff in E. exfalso. exact (Qlt_not_le _ _ H E).
Qed.

Lemma Qlt_bool_false (a b : Q) : Qlt_bool a b = false <-> b <= a.
Proof.
  unfold Qlt_bool. rewrite negb_false_iff. apply Qle_bool_iff.
Qed.

Lemma Qle_bool_false (a b : Q) : Qle_bool a b = false <-> b < a.
Proof.
  rewrite <- Qlt_bool_iff. unfold Qlt_bool. now rewrite negb_true_iff.
Qed.

Lemma bind_Ok_r {A : Type} (c : result A) : bind c (fun a => Ok a) = c.
Proof. now destruct c. Qed.

(** ** Reading the split variables back (lines 441-446) *)

(** C2, as written, fails: with the variable at 1 and the feature (3.0) below
    the threshold (5.0) the source leaves the feature where it is. *)
Lemma taken_means_ge_fails :
  ~ taken_means_ge (fun _ => 1) GUARD_VAL 0 [3] (5, P 0).
Proof.
  intros H. destruct (H 3 eq_refl) as [H1 _].
  assert (Hlt1 : 1 # 2 < 1) by reflexivity.
  assert (Hlt2 : 3 < 5) by reflexivity.
  specialize (H1 Hlt1 Hlt2). vm_compute in H1. discriminate H1.
Qed.

(** C2, amended. A split variable above 0.5 stands for "feature < threshold"
    (the "yes" side): with the feature at or above the threshold it is moved
    to threshold minus guard; a variable at most 0.5 with the feature below
    the threshold moves it to threshold plus guard; otherwise the feature is
    kept. *)
Theorem reconstruct_node_semantics (xval : var -> Q) (guard : Q) (key : nat)
    (x : sample) (node : Q * var) (xk : Q) :
  getitem x key = Ok xk ->
  (1 # 2 < xval (snd node) -> fst node <= xk ->
     reconstruct_node xval guard key x node = setitem x key (fst node - guard)) /\
  (xval (snd node) <= 1 # 2 -> xk < fst node ->
     reconstruct_node xval guard key x node = setitem x key (fst node + guard)) /\
  (1 # 2 < xval (snd node) -> xk < fst node ->
     reconstruct_node xval guard key x node = Ok x) /\
  (xval (snd node) <= 1 # 2 -> fst node <= xk ->
     reconstruct_node xval guard key x node = Ok x).
Proof.
  intros Hx. unfold reconstruct_node.
  repeat split; intros Hv Hc.
  - apply Qlt_bool_iff in Hv. rewrite Hv, Hx. simpl.
    apply Qle_bool_iff in Hc. rewrite Hc.
    apply Qlt_bool_iff, Qle_bool_false in Hv. rewrite Hv.
    apply bind_Ok_r.
  - assert (Hv' := Hv). apply Qlt_bool_false in Hv'. rewrite Hv'. simpl.
    apply Qle_bool_iff in Hv. rewrite Hv, Hx. simpl.
    apply Qlt_bool_iff in Hc. now rewrite Hc.
  - apply Qlt_bool_iff in Hv. rewrite Hv, Hx. simpl.
    apply Qle_bool_false in Hc. rewrite Hc. simpl.
    apply Qlt_bool_iff, Qle_bool_false in Hv. now rewrite Hv.
  - assert (Hv' := Hv). apply Qlt_bool_false in Hv'. rewrite Hv'. simpl.
    apply Qle_bool_iff in Hv. rewrite Hv, Hx. simpl.
    apply Qlt_bool_false in Hc. now rewrite Hc.
Qed.

Lemma reconstruct_node_semantics_witness :
  reconstruct_node (fun _ => 1) GUARD_VAL 0 [7] (5, P 0)
    = setitem [7] 0 (5 - GUARD_VAL) /\
  reconstruct_node (fun _ => 0) GUARD_VAL 0 [3] (5, P 0)
    = setitem [3] 0 (5 + GUARD_VAL).
Proof.
  split.
  - refine (proj1 (reconstruct_node_semantics (fun _ => 1) GUARD_VAL 0 [7] (5, P 0) 7
                     eq_refl) _ _); reflexivity || discriminate.
  - refine (proj1 (proj2 (reconstruct_node_semantics (fun _ => 0) GUARD_VAL 0 [3]
                            (5, P 0) 3 eq_refl)) _ _); reflexivity || discriminate.
Defined.

(** ** [epsilon = 0] (lines 98-101 and 210-215) *)

Lemma set_m_set_epsilon (self : KantchelianAttack) (e : option Q) (m' : Model) :
  set_m (set_epsilon self e) m' = set_epsilon (set_m self m') e.
Proof. reflexivity. Qed.

(** C10. With order infinity, an [epsilon] equal to zero builds what
    [epsilon=None] builds (only the stored [epsilon] differs): the distance
    variable [B] has lower bound 0 and no upper bound, and the feasibility
    query behaves as it does on the attacker built with [None]. *)
Theorem epsilon_zero_is_unbounded (jm : option (list json_tree)) (e g : Q) (d : Z)
    (pos neg : option (list json_tree)) (thr : Q) (vb : bool) (nt : nat) :
  e == 0 ->
  KantchelianAttack_init jm (Some e) inf g d pos neg thr vb nt
    = (a <- KantchelianAttack_init jm None inf g d pos neg thr vb nt ;;
       Ok (set_epsilon a (Some e))) /\
  (forall self,
      KantchelianAttack_init jm (Some e) inf g d pos neg thr vb nt = Ok self ->
      B_bounds (m self) = Some (0, None)) /\
  (forall solver self X0 label,
      attack solver (set_epsilon self (Some e)) X0 label
        = (rs <- attack solver self X0 label ;;
           Ok (fst rs, set_epsilon (snd rs) (Some e)))).
Proof.
  intros He.
  assert (Ht : truthy (Some e) = false).
  { simpl. apply negb_false_iff, Qeq_bool_iff. exact He. }
  assert (Hinit : KantchelianAttack_init jm (Some e) inf g d pos neg thr vb nt
    = (a <- KantchelianAttack_init jm None inf g d pos neg thr vb nt ;;
       Ok (set_epsilon a (Some e)))).
  { unfold KantchelianAttack_init. rewrite Ht. simpl.
    destruct (compile_ensemble d (is_None pos || is_None neg) jm pos neg) as [tc | ex];
      simpl; [| reflexivity].
    destruct (p_constraints (build_pdict (node_list tc)) g) as [[pd cs] g'].
    reflexivity. }
  split; [exact Hinit |]. split.
  - intros self Hs. rewrite Hinit in Hs. bind_inv Hs. inversion Hs; subst. simpl.
    unfold KantchelianAttack_init in Hr. simpl in Hr. bind_inv Hr.
    destruct (p_constraints (build_pdict (node_list r0)) g) as [[pd cs] g'].
    inversion Hr; subst. reflexivity.
  - intros solver self X0 label. unfold attack, attack_model. simpl.
    change (mislabel_constr (set_epsilon self (Some e)) label)
      with (mislabel_constr self label).
    destruct (foldM (attack_key (guard_val self) X0) (pdict self)
                (addConstr (try_remove (m self) mislabel) mislabel
                   (mislabel_constr self label))); reflexivity.
Qed.

Lemma epsilon_zero_is_unbounded_witness :
  0 == 0 /\
  KantchelianAttack_init (Some [stump]) (Some 0) inf GUARD_VAL ROUND_DIGITS
    None None 0 false 1
  = (a <- KantchelianAttack_init (Some [stump]) None inf GUARD_VAL ROUND_DIGITS
            None None 0 false 1 ;;
     Ok (set_epsilon a (Some 0))).
Proof.
  split; [reflexivity |].
  exact (proj1 (epsilon_zero_is_unbounded (Some [stump]) 0 GUARD_VAL
                  ROUND_DIGITS None None 0 false 1 (Qeq_refl 0))).
Defined.

(** ** The split ordering groups: sorting, gaps and the guard value *)

Lemma insert_by_key_perm (a : Q * var) (l : list (Q * var)) :
  Permutation (a :: l) (insert_by_key a l).
Proof.
  induction l as [| b l IH]; simpl.
  - apply Permutation_refl.
  - destruct (Qlt_bool (fst b) (fst a)).
    + eapply perm_trans; [apply perm_swap |]. apply perm_skip. exact IH.
    + apply Permutation_refl.
Qed.

Lemma sort_by_key_perm (l : list (Q * var)) : Permutation l (sort_by_key l).
Proof.
  induction l as [| a l IH]; simpl.
  - apply perm_nil.
  - eapply perm_trans; [apply perm_skip; exact IH |]. apply insert_by_key_perm.
Qed.

Lemma insert_by_key_hd (a b : Q * var) (l : list (Q * var)) :
  HdRel key_le b l -> key_le b a -> HdRel key_le b (insert_by_key a l).
Proof.
  intros Hl Hba. destruct l as [| c l]; simpl.
  - constructor. exact Hba.
  - destruct (Qlt_bool (fst c) (fst a)); constructor.
    + inversion Hl; assumption.
    + exact Hba.
Qed.

Lemma insert_by_key_sorted (a : Q * var) (l : list (Q * var)) :
  Sorted key_le l -> Sorted key_le (insert_by_key a l).
Proof.
  induction l as [| b l IH]; intros Hs; simpl.
  - repeat constructor.
  - inversion Hs as [| ? ? Hs' Hhd]; subst.
    destruct (Qlt_bool (fst b) (fst a)) eqn:E.
    + constructor; [apply IH; exact Hs' |].
      apply insert_by_key_hd; [exact Hhd |].
      apply Qlt_bool_iff in E. unfold key_le. lra.
    + constructor; [exact Hs |]. constructor.
      apply Qlt_bool_false in E. exact E.
Qed.

Lemma sort_by_key_sorted (l : list (Q * var)) : Sorted key_le (sort_by_key l).
Proof.
  induction l as [| a l IH]; simpl.
  - constructor.
  - apply insert_by_key_sorted. exact IH.
Qed.

Lemma sort_by_key_length (l : list (Q * var)) :
  length (sort_by_key l) = length l.
Proof. symmetry. apply Permutation_length, sort_by_key_perm. Qed.

Lemma sort_by_key_short (l : list (Q * var)) :
  (length l <= 1)%nat -> sort_by_key l = l.
Proof.
  destruct l as [| a [| b l]]; simpl; intros H; try reflexivity. lia.
Qed.

(** Gaps of an ascending list are not negative. *)
Lemma gaps_nonneg (l : list (Q * var)) (d : Q) :
  Sorted key_le l -> In d (gaps (map fst l)) -> 0 <= d.
Proof.
  induction l as [| a l IH]; intros Hs Hd; simpl in Hd; [contradiction |].
  destruct l as [| b l]; [contradiction |].
  inversion Hs as [| ? ? Hs' Hhd]; subst.
  simpl in Hd. destruct Hd as [Hd | Hd].
  - inversion Hhd; subst. unfold key_le in *. lra.
  - apply IH; assumption.
Qed.

Lemma py_min_cases (a b : Q) :
  (py_min a b = a /\ a <= b) \/ (py_min a b = b /\ b < a).
Proof.
  unfold py_min. destruct (Qlt_bool b a) eqn:E.
  - right. split; [reflexivity |]. now apply Qlt_bool_iff.
  - left. split; [reflexivity |]. now apply Qlt_bool_false.
Qed.

Lemma fold_py_min_spec (G : list Q) (md : Q) :
  let r := fold_left py_min G md in
  r <= md /\ (forall d, In d G -> r <= d) /\ (r = md \/ In r G).
Proof.
  revert md. induction G as [| d G IH]; intros md; simpl.
  - split; [lra |]. split; [intros ? [] | left; reflexivity].
  - destruct (IH (py_min md d)) as [H1 [H2 H3]].
    destruct (py_min_cases md d) as [[E Hle] | [E Hlt]]; rewrite E in *.
    + split; [exact H1 |]. split.
      * intros d' [<- | Hd']; [lra | now apply H2].
      * destruct H3 as [H3 | H3]; [left; exact H3 | right; right; exact H3].
    + split; [lra |]. split.
      * intros d' [<- | Hd']; [lra | now apply H2].
      * destruct H3 as [H3 | H3]; [right; left; now symmetry | right; right; exact H3].
Qed.

Lemma consis_loop_min_diff (key i : nat) (l : list (Q * var)) (md : Q) :
  snd (consis_loop key i l md) = fold_left py_min (gaps (map fst l)) md.
Proof.
  revert i md. induction l as [| a l IH]; intros i md; [reflexivity |].
  destruct l as [| b l]; [reflexivity |].
  change (snd (consis_loop key i (a :: b :: l) md))
    with (snd (consis_loop key (S i) (b :: l) (py_min md (fst b - fst a)))).
  rewrite IH. reflexivity.
Qed.

Lemma guard_step_eq (guard : Q) (entry : nat * list (Q * var)) :
  guard_step guard entry =
    if (1 <? length (snd entry))%nat then
      shrink_guard
        (fold_left py_min (gaps (map fst (sort_by_key (snd entry)))) 1000) guard
    else guard.
Proof.
  unfold guard_step, p_constraints_key.
  destruct (1 <? length (snd entry))%nat; simpl; [| reflexivity].
  now rewrite consis_loop_min_diff.
Qed.

(** The guard value never grows in an iteration. *)
Lemma guard_step_le (guard : Q) (entry : nat * list (Q * var)) :
  guard_step guard entry <= guard.
Proof.
  rewrite guard_step_eq.
  destruct (1 <? length (snd entry))%nat; [| lra].
  unfold shrink_guard.
  set (G := gaps (map fst (sort_by_key (snd entry)))).
  destruct (fold_py_min_spec G 1000) as [_ [_ H3]]. fold G in H3.
  destruct (Qlt_bool (fold_left py_min G 1000) (2 * guard)) eqn:E; [| lra].
  apply Qlt_bool_iff in E.
  assert (H0 : 0 <= fold_left py_min G 1000).
  { destruct H3 as [-> | H3]; [discriminate |].
    eapply gaps_nonneg; [apply sort_by_key_sorted | exact H3]. }
  apply Qle_shift_div_r; [reflexivity | lra].
Qed.

(** After an iteration, twice the guard value is within every gap of the
    feature just handled. *)
Lemma guard_step_gap (guard : Q) (entry : nat * list (Q * var)) (d : Q) :
  In d (gaps (map fst (sort_by_key (snd entry)))) ->
  2 * guard_step guard entry <= d.
Proof.
  intros Hd. rewrite guard_step_eq.
  set (G := gaps (map fst (sort_by_key (snd entry)))) in *.
  destruct (1 <? length (snd entry))%nat eqn:El.
  - destruct (fold_py_min_spec G 1000) as [_ [H2 _]]. fold G in H2.
    specialize (H2 d Hd). unfold shrink_guard.
    assert (H0 : 0 <= d).
    { eapply gaps_nonneg; [apply sort_by_key_sorted | exact Hd]. }
    destruct (Qlt_bool (fold_left py_min G 1000) (2 * guard)) eqn:E.
    + set (r := fold_left py_min G 1000) in *.
      assert (Hr : r / 3 == r * (1 # 3)) by (unfold Qdiv; reflexivity).
      apply Qlt_bool_iff in E.
      destruct (Qlt_le_dec r 0) as [Hneg | Hpos]; rewrite Hr; lra.
    + apply Qlt_bool_false in E. lra.
  - apply Nat.ltb_ge in El. exfalso.
    unfold G in Hd. rewrite sort_by_key_short in Hd by exact El.
    destruct (snd entry) as [| a [| b l]]; simpl in *; try contradiction. lia.
Qed.

(** The loop on [pdict], iteration by iteration. *)
Lemma p_constraints_fold (pd : pdict_t) (pd0 : pdict_t)
    (cs0 : list (cname * TempConstr)) (g0 : Q) :
  fst (fst (fold_left p_constraints_key pd (pd0, cs0, g0)))
    = pd0 ++ map (fun e => (fst e, sort_by_key (snd e))) pd /\
  snd (fold_left p_constraints_key pd (pd0, cs0, g0)) = fold_left guard_step pd g0.
Proof.
  revert pd0 cs0 g0. induction pd as [| e pd IH]; intros pd0 cs0 g0;
    cbn [fold_left map].
  - simpl. now rewrite app_nil_r.
  - assert (Hstep : exists cs1,
      p_constraints_key (pd0, cs0, g0) e
        = (pd0 ++ [(fst e, sort_by_key (snd e))], cs1, guard_step g0 e)).
    { unfold guard_step, p_constraints_key.
      destruct (1 <? length (snd e))%nat eqn:El; simpl; eexists; [reflexivity |].
      apply Nat.ltb_ge in El. rewrite sort_by_key_short by exact El.
      destruct e; reflexivity. }
    destruct Hstep as [cs1 ->].
    destruct (IH (pd0 ++ [(fst e, sort_by_key (snd e))]) cs1 (guard_step g0 e))
      as [H1 H2].
    split; [| exact H2].
    etransitivity; [exact H1 |]. now rewrite <- app_assoc.
Qed.

Lemma p_constraints_spec (pd : pdict_t) (g : Q) :
  fst (fst (p_constraints pd g)) = map (fun e => (fst e, sort_by_key (snd e))) pd /\
  snd (p_constraints pd g) = fold_left guard_step pd g.
Proof. exact (p_constraints_fold pd [] [] g). Qed.

Lemma fold_guard_step_le (pd : pdict_t) (g : Q) : fold_left guard_step pd g <= g.
Proof.
  revert g. induction pd as [| e pd IH]; intros g; simpl; [lra |].
  specialize (IH (guard_step g e)). pose proof (guard_step_le g e). lra.
Qed.

Lemma init_pdict_guard (jm : option (list json_tree)) (eps : option Q)
    (ord : norm_order) (g : Q) (d : Z) (pos neg : option (list json_tree))
    (thr : Q) (vb : bool) (nt : nat) (self : KantchelianAttack) :
  KantchelianAttack_init jm eps ord g d pos neg thr vb nt = Ok self ->
  pdict self = map (fun e => (fst e, sort_by_key (snd e)))
                 (build_pdict (node_list (compiled self))) /\
  guard_val self = fold_left guard_step (build_pdict (node_list (compiled self))) g.
Proof.
  unfold KantchelianAttack_init.
  destruct (negb (is_None eps || is_inf ord)); [discriminate |].
  intros H. bind_inv H.
  destruct (p_constraints_spec (build_pdict (node_list r)) g) as [H1 H2].
  destruct (p_constraints (build_pdict (node_list r)) g) as [[pd cs] g'].
  inversion H; subst; simpl in *. auto.
Qed.

Lemma fold_guard_step_gap (pd : pdict_t) (g : Q) (e : nat * list (Q * var)) (gap : Q) :
  In e pd ->
  In gap (gaps (map fst (sort_by_key (snd e)))) ->
  2 * fold_left guard_step pd g <= gap.
Proof.
  revert g. induction pd as [| e' pd IH]; intros g He Hgap; [contradiction |].
  simpl. destruct He as [-> | He].
  - pose proof (fold_guard_step_le pd (guard_step g e)).
    pose proof (guard_step_gap g e gap Hgap). lra.
  - apply IH; assumption.
Qed.

Lemma attack_guard_val (solver : Model -> Z * (var -> Q)) (self : KantchelianAttack)
    (X0 : sample) (label : nat) (r : bool) (self' : KantchelianAttack) :
  attack solver self X0 label = Ok (r, self') -> guard_val self' = guard_val self.
Proof.
  unfold attack. intros H. bind_inv H. inversion H; subst. reflexivity.
Qed.

Lemma optimal_guard_val (solver : Model -> Z * (var -> Q)) (self : KantchelianAttack)
    (s : sample) (label : nat) (r : option sample) (self' : KantchelianAttack) :
  optimal_adversarial_example solver self s label = Ok (r, self') ->
  guard_val self' = guard_val self.
Proof.
  unfold optimal_adversarial_example. intros H. bind_inv H.
  destruct (negb (r0 =? label)%nat); [inversion H; subst; reflexivity |].
  bind_inv H.
  destruct (status (optimize solver r1) =? INFEASIBLE)%Z;
    [inversion H; subst; reflexivity |].
  bind_inv H. bind_inv H. inversion H; subst. reflexivity.
Qed.

(** C7. The adaptive guard shrink.  In an iteration on a feature with at
    least two splits, with the current guard value below 500 (half the
    sentinel 1000): when the minimum consecutive gap is below twice the guard
    value, the guard value becomes one third of that gap, otherwise it is
    kept.  No iteration makes it larger, and neither query changes it.
    After construction, twice the guard value is at most every consecutive
    threshold gap of every feature. *)
Theorem guard_shrink_invariant :
  (forall guard key l mn,
      (1 < length l)%nat -> guard < 500 ->
      is_min mn (gaps (map fst (sort_by_key l))) ->
      (mn < 2 * guard -> guard_step guard (key, l) == mn / 3) /\
      (2 * guard <= mn -> guard_step guard (key, l) = guard)) /\
  (forall guard entry, guard_step guard entry <= guard) /\
  (forall jm eps ord g d pos neg thr vb nt self,
      KantchelianAttack_init jm eps ord g d pos neg thr vb nt = Ok self ->
      guard_val self
        = fold_left guard_step (build_pdict (node_list (compiled self))) g /\
      guard_val self <= g /\
      (forall key l gap,
          In (key, l) (pdict self) -> In gap (gaps (map fst l)) ->
          2 * guard_val self <= gap) /\
      (forall solver X0 label r self',
          attack solver self X0 label = Ok (r, self') ->
          guard_val self' = guard_val self) /\
      (forall solver s label r self',
          optimal_adversarial_example solver self s label = Ok (r, self') ->
          guard_val self' = guard_val self)).
Proof.
  split; [| split].
  - intros guard key l mn Hlen Hg [[d0 [Hd0 Hd0m]] Hmin].
    rewrite guard_step_eq. simpl snd.
    apply Nat.ltb_lt in Hlen. rewrite Hlen.
    set (G := gaps (map fst (sort_by_key l))) in *.
    destruct (fold_py_min_spec G 1000) as [H1 [H2 H3]].
    set (r := fold_left py_min G 1000) in *.
    pose proof (H2 d0 Hd0) as Hrd.
    unfold shrink_guard. split; intros Hc.
    + assert (Hrm : r == mn).
      { destruct H3 as [H3 | H3].
        - rewrite H3 in Hrd. lra.
        - specialize (Hmin r H3). lra. }
      assert (E : Qlt_bool r (2 * guard) = true) by (apply Qlt_bool_iff; lra).
      rewrite E. now rewrite Hrm.
    + assert (E : Qlt_bool r (2 * guard) = false).
      { apply Qlt_bool_false. destruct H3 as [H3 | H3].
        - rewrite H3. lra.
        - specialize (Hmin r H3). lra. }
      now rewrite E.
  - exact guard_step_le.
  - intros jm eps ord g d pos neg thr vb nt self Hinit.
    destruct (init_pdict_guard _ _ _ _ _ _ _ _ _ _ _ Hinit) as [Hpd Hg].
    split; [exact Hg |]. split; [rewrite Hg; apply fold_guard_step_le |].
    split; [| split].
    + intros key l gap Hin Hgap. rewrite Hpd in Hin.
      apply in_map_iff in Hin. destruct Hin as [e [He Hin]].
      inversion He; subst. rewrite Hg.
      eapply fold_guard_step_gap; eauto.
    + intros. eapply attack_guard_val; eauto.
    + intros. eapply optimal_guard_val; eauto.
Qed.

Lemma guard_shrink_invariant_witness :
  guard_step GUARD_VAL (0%nat, close_splits) == (1 # 1000000) / 3.
Proof.
  refine (proj1 (proj1 guard_shrink_invariant GUARD_VAL 0%nat close_splits
                   (1 # 1000000) _ _ _) _).
  - vm_compute. lia.
  - reflexivity.
  - split.
    + exists (1 # 1000000). split; [left; reflexivity | reflexivity].
    + intros d [<- | []]. vm_compute. discriminate.
  - reflexivity.
Defined.

(** ** The feasibility query never trips on its own checks *)

Lemma mapM_total {A B : Type} (f : A -> result B) (l : list A) :
  (forall a, In a l -> exists b, f a = Ok b) ->
  exists bs, mapM f l = Ok bs /\ length bs = length l.
Proof.
  induction l as [| a l IH]; intros H; simpl.
  - exists []. auto.
  - destruct (H a (or_introl eq_refl)) as [b Hb].
    destruct IH as [bs [Hbs Hlen]]; [intros; apply H; now right |].
    exists (b :: bs). rewrite Hb, Hbs. simpl. auto.
Qed.

Lemma w_entry_total (pw : Q -> Q) (guard xk : Q) (lo hi : option Q) :
  (forall l h, lo = Some l -> hi = Some h -> l <= h) ->
  exists v, w_entry pw guard xk lo hi = Ok v.
Proof.
  intros Hord. unfold w_entry.
  destruct lo as [l |], hi as [h |].
  - specialize (Hord l h eq_refl eq_refl).
    destruct (Qlt_bool xk h) eqn:E1, (Qle_bool l xk) eqn:E2; simpl;
      try (eexists; reflexivity).
    + apply Qle_bool_false, Qlt_bool_iff in E2. rewrite E2. eexists; reflexivity.
    + apply Qlt_bool_false, Qle_bool_iff in E1. rewrite E1. eexists; reflexivity.
    + exfalso. apply Qlt_bool_false in E1. apply Qle_bool_false in E2. lra.
  - destruct (Qle_bool l xk); eexists; reflexivity.
  - destruct (Qlt_bool xk h); eexists; reflexivity.
  - eexists; reflexivity.
Qed.

(** Consecutive bounds of the axis of an ascending list are ordered. *)
Lemma axis_pairs_ordered (ths : list Q) (lo0 : option Q) (lo hi : option Q) :
  Sorted Qle ths ->
  (forall l t, lo0 = Some l -> In t ths -> l <= t) ->
  In (lo, hi) (combine (lo0 :: map Some ths) (map Some ths ++ [None])) ->
  forall l h, lo = Some l -> hi = Some h -> l <= h.
Proof.
  revert lo0. induction ths as [| a ths IH]; intros lo0 Hs H0 Hin l h Hl Hh.
  - simpl in Hin. destruct Hin as [Hin | []].
    injection Hin as E1 E2. congruence.
  - simpl in Hin. destruct Hin as [Hin | Hin].
    + injection Hin as E1 E2. rewrite <- E2 in Hh. injection Hh as Hh.
      apply (H0 l h); [congruence | now left].
    + inversion Hs as [| ? ? Hs' Hhd]; subst.
      apply (IH (Some a) Hs') with (l := l) (h := h) in Hin; auto.
      intros l' t Hl' Ht. inversion Hl'; subst.
      clear - Hs Ht. apply Sorted_StronglySorted in Hs.
      * inversion Hs as [| ? ? _ Hall]; subst.
        rewrite Forall_forall in Hall. now apply Hall.
      * intros x y z. apply Qle_trans.
Qed.

Lemma diffs_length (w : list Q) : length (diffs w) = length w.
Proof.
  induction w as [| a w IH]; [reflexivity |].
  destruct w as [| b w]; [reflexivity |].
  change (diffs (a :: b :: w)) with ((a - b) :: diffs (b :: w)).
  cbn [length]. f_equal. exact IH.
Qed.

Lemma w_list_total (pw : Q -> Q) (guard xk : Q) (ths : list Q) :
  Sorted Qle ths ->
  exists w, w_list pw guard xk ths = Ok w /\ length w = S (length ths).
Proof.
  intros Hs. unfold w_list.
  destruct (mapM_total (fun lh => w_entry pw guard xk (fst lh) (snd lh))
              (combine (None :: map Some ths) (map Some ths ++ [None])))
    as [w [Hw Hlen]].
  - intros [lo hi] Hin. apply w_entry_total. simpl.
    eapply axis_pairs_ordered; eauto. intros; discriminate.
  - rewrite Hw. simpl. exists (diffs w). split; [reflexivity |].
    rewrite diffs_length, Hlen, length_combine, length_app.
    cbn [length]. rewrite !length_map. lia.
Qed.

Lemma sorted_map_fst (l : list (Q * var)) :
  Sorted key_le l -> Sorted Qle (map fst l).
Proof.
  induction 1 as [| a l Hs IH Hhd]; simpl; constructor; auto.
  destruct Hhd; simpl; constructor; assumption.
Qed.

(** Every list of [pdict] holds at least one split. *)
Lemma pdict_add_nonempty (pd : pdict_t) (attr : nat) (e : Q * var) :
  Forall (fun en => snd en <> []) pd ->
  Forall (fun en => snd en <> []) (pdict_add pd attr e).
Proof.
  induction pd as [| [k l] pd IH]; intros H; simpl.
  - constructor; [discriminate | constructor].
  - inversion H; subst. destruct (k =? attr)%nat; constructor; simpl; auto.
    destruct l; discriminate.
Qed.

Lemma build_pdict_nonempty (nodes : list node_wrapper) :
  Forall (fun en => snd en <> []) (build_pdict nodes).
Proof.
  unfold build_pdict.
  assert (H : forall (l : list (nat * node_wrapper)) pd,
             Forall (fun en => snd en <> []) pd ->
             Forall (fun en : nat * list (Q * var) => snd en <> [])
               (fold_left (fun pd it => pdict_add pd (attribute (snd it))
                                          (threshold (snd it), P (fst it))) l pd)).
  { induction l as [| it l IH]; intros pd Hpd; simpl; [exact Hpd |].
    apply IH. now apply pdict_add_nonempty. }
  apply H. constructor.
Qed.

Lemma init_pdict_lists (jm : option (list json_tree)) (eps : option Q)
    (ord : norm_order) (g : Q) (d : Z) (pos neg : option (list json_tree))
    (thr : Q) (vb : bool) (nt : nat) (self : KantchelianAttack) :
  KantchelianAttack_init jm eps ord g d pos neg thr vb nt = Ok self ->
  Forall (fun en => snd en <> [] /\ Sorted key_le (snd en)) (pdict self).
Proof.
  intros Hinit.
  destruct (init_pdict_guard _ _ _ _ _ _ _ _ _ _ _ Hinit) as [Hpd _].
  rewrite Hpd. apply Forall_forall. intros en Hin.
  apply in_map_iff in Hin. destruct Hin as [e [<- He]]. simpl. split.
  - pose proof (build_pdict_nonempty (node_list (compiled self))) as Hne.
    rewrite Forall_forall in Hne. specialize (Hne e He).
    intros Hnil. apply Hne.
    pose proof (sort_by_key_length (snd e)) as Hl. rewrite Hnil in Hl.
    destruct (snd e); [reflexivity | discriminate].
  - apply sort_by_key_sorted.
Qed.


Lemma getitem_total (x : sample) (i : nat) :
  (i < length x)%nat -> exists v, getitem x i = Ok v.
Proof.
  intros H. unfold getitem.
  destruct (nth_error x i) eqn:E; [eexists; reflexivity |].
  apply nth_error_None in E. lia.
Qed.


(** ** The tree compiler as a list of recorded visits *)

Lemma record_with_leaves (st : compiler) (o : occurrence) (vs : list Q)
    (ps : list (nat * nat)) :
  record_occurrence (with_leaves st vs ps) o
    = with_leaves (record_occurrence st o) vs ps.
Proof.
  unfold record_occurrence, with_leaves. simpl.
  destruct (dict_get (node_check st) (occ_key o)); reflexivity.
Qed.

Lemma fold_record_with_leaves (occs : list occurrence) (st : compiler)
    (vs : list Q) (ps : list (nat * nat)) :
  fold_left record_occurrence occs (with_leaves st vs ps)
    = with_leaves (fold_left record_occurrence occs st) vs ps.
Proof.
  revert st. induction occs as [| o occs IH]; intros st; simpl; [reflexivity |].
  rewrite record_with_leaves. apply IH.
Qed.

Lemma with_leaves_app (st : compiler) (vs vs' : list Q) (ps ps' : list (nat * nat)) :
  with_leaves (with_leaves st vs ps) vs' ps' = with_leaves st (vs ++ vs') (ps ++ ps').
Proof. unfold with_leaves. simpl. now rewrite !app_assoc. Qed.

Lemma record_leaf_fields (st : compiler) (o : occurrence) :
  leaf_v_list (record_occurrence st o) = leaf_v_list st /\
  leaf_pos_list (record_occurrence st o) = leaf_pos_list st /\
  leaf_count (record_occurrence st o) = leaf_count st.
Proof.
  unfold record_occurrence.
  destruct (dict_get (node_check st) (occ_key o)); simpl; auto.
Qed.

Lemma fold_record_leaf_fields (occs : list occurrence) (st : compiler) :
  leaf_v_list (fold_left record_occurrence occs st) = leaf_v_list st /\
  leaf_pos_list (fold_left record_occurrence occs st) = leaf_pos_list st /\
  leaf_count (fold_left record_occurrence occs st) = leaf_count st.
Proof.
  revert st. induction occs as [| o occs IH]; intros st; simpl; [auto |].
  destruct (IH (record_occurrence st o)) as [H1 [H2 H3]].
  destruct (record_leaf_fields st o) as [E1 [E2 E3]].
  rewrite H1, H2, H3. auto.
Qed.

Lemma tree_leaves_length (neg : bool) (t : json_tree) :
  length (tree_leaves neg t) = n_leaves t.
Proof.
  induction t as [n v | n a th yes no c0 IH0 c1 IH1]; simpl; [reflexivity |].
  rewrite length_app. unfold linked_child.
  destruct (find_child yes c0 c1) as [[|] |], (find_child no c0 c1) as [[|] |];
    congruence.
Qed.

Lemma tree_leaf_pos_length (treeid : nat) (t : json_tree) :
  length (tree_leaf_pos treeid t) = n_leaves t.
Proof.
  induction t as [n v | n a th yes no c0 IH0 c1 IH1]; simpl; [reflexivity |].
  rewrite length_app. unfold linked_child.
  destruct (find_child yes c0 c1) as [[|] |], (find_child no c0 c1) as [[|] |];
    congruence.
Qed.

Lemma n_leaves_pos (t : json_tree) : (0 < n_leaves t)%nat.
Proof.
  induction t as [n v | n a th yes no c0 IH0 c1 IH1]; simpl; [lia |].
  unfold linked_child.
  destruct (find_child yes c0 c1) as [[|] |]; lia.
Qed.

Lemma after_dfs_leaf_v (d : Z) (neg : bool) (t : json_tree) (treeid : nat)
    (root : bool) (st : compiler) :
  leaf_v_list (after_dfs d neg t treeid root st) = leaf_v_list st ++ tree_leaves neg t.
Proof.
  unfold after_dfs, with_leaves. simpl.
  now destruct (fold_record_leaf_fields
                  (occurrences d t treeid root (length (leaf_v_list st))) st) as [-> _].
Qed.

(** [dfs] returns the indices of the leaves it appended and records the
    visits of [occurrences]; it fails exactly on an unresolved link. *)
Lemma dfs_spec (d : Z) (neg : bool) (t : json_tree) :
  forall (treeid : nat) (root : bool) (st : compiler),
    dfs d t treeid root neg st =
      if links_resolve t then
        Ok (seq (length (leaf_v_list st)) (n_leaves t),
            after_dfs d neg t treeid root st)
      else Raise missing_child.
Proof.
  induction t as [n v | n a th yes no c0 IH0 c1 IH1]; intros treeid root st.
  - simpl. rewrite length_app. simpl. rewrite Nat.add_sub. reflexivity.
  - assert (IHl : forall treeid root st,
              dfs d (linked_child yes c0 c1) treeid root neg st =
              if links_resolve (linked_child yes c0 c1) then
                Ok (seq (length (leaf_v_list st)) (n_leaves (linked_child yes c0 c1)),
                    after_dfs d neg (linked_child yes c0 c1) treeid root st)
              else Raise missing_child).
    { unfold linked_child. destruct (find_child yes c0 c1) as [[|] |]; auto. }
    assert (IHr : forall treeid root st,
              dfs d (linked_child no c0 c1) treeid root neg st =
              if links_resolve (linked_child no c0 c1) then
                Ok (seq (length (leaf_v_list st)) (n_leaves (linked_child no c0 c1)),
                    after_dfs d neg (linked_child no c0 c1) treeid root st)
              else Raise missing_child).
    { unfold linked_child. destruct (find_child no c0 c1) as [[|] |]; auto. }
    cbn [dfs links_resolve].
    destruct (find_child yes c0 c1) as [ys |] eqn:Ey; [| reflexivity].
    destruct (find_child no c0 c1) as [ns |] eqn:En; [| reflexivity].
    assert (El : (if ys then dfs d c1 treeid false neg st
                  else dfs d c0 treeid false neg st)
                 = dfs d (linked_child yes c0 c1) treeid false neg st).
    { unfold linked_child. rewrite Ey. now destruct ys. }
    rewrite El, IHl. clear El.
    destruct (links_resolve (linked_child yes c0 c1)); [| reflexivity].
    cbn [bind andb].
    set (l := linked_child yes c0 c1) in *.
    set (st1 := after_dfs d neg l treeid false st).
    assert (Er : (if ns then dfs d c1 treeid false neg st1
                  else dfs d c0 treeid false neg st1)
                 = dfs d (linked_child no c0 c1) treeid false neg st1).
    { unfold linked_child. rewrite En. now destruct ns. }
    rewrite Er, IHr. clear Er.
    destruct (links_resolve (linked_child no c0 c1)); [| reflexivity].
    cbn [bind].
    set (r := linked_child no c0 c1) in *.
    set (st2 := after_dfs d neg r treeid false st1).
    assert (Hlen1 : length (leaf_v_list st1) = (length (leaf_v_list st) + n_leaves l)%nat).
    { unfold st1. rewrite after_dfs_leaf_v, length_app, tree_leaves_length.
      reflexivity. }
    f_equal. f_equal.
    + rewrite Hlen1. cbn [n_leaves]. fold l r. now rewrite seq_app.
    + match goal with |- ?lhs = _ =>
        change lhs with
          (record_occurrence st2
             (mk_occurrence (a, py_round th d) (treeid, n)
                (mk_leaves_item (seq (length (leaf_v_list st)) (n_leaves l))
                   (seq (length (leaf_v_list st1)) (n_leaves r)) root)))
      end.
      unfold after_dfs at 1. cbn [occurrences tree_leaves tree_leaf_pos].
      fold l r. rewrite !fold_left_app. cbn [fold_left].
      unfold st2, after_dfs. rewrite record_with_leaves.
      unfold st1 at 2. unfold after_dfs.
      rewrite fold_record_with_leaves, record_with_leaves, with_leaves_app.
      rewrite Hlen1. reflexivity.
Qed.

(** ** Compiling a whole ensemble *)

Lemma record_push_counts (st : compiler) (o : occurrence) (cs : list nat) :
  record_occurrence (push_counts st cs) o = push_counts (record_occurrence st o) cs.
Proof.
  unfold record_occurrence, push_counts. simpl.
  destruct (dict_get (node_check st) (occ_key o)); reflexivity.
Qed.

Lemma fold_record_push_counts (occs : list occurrence) (st : compiler)
    (cs : list nat) :
  fold_left record_occurrence occs (push_counts st cs)
    = push_counts (fold_left record_occurrence occs st) cs.
Proof.
  revert st. induction occs as [| o occs IH]; intros st; simpl; [reflexivity |].
  rewrite record_push_counts. apply IH.
Qed.

Lemma compile_tree_spec (d : Z) (neg : bool) (st : compiler) (it : nat * json_tree) :
  compile_tree d neg st it =
    if links_resolve (snd it) then Ok (after_forest d neg [it] st)
    else Raise missing_child.
Proof.
  unfold compile_tree. rewrite dfs_spec.
  destruct (links_resolve (snd it)); [| reflexivity].
  cbn [bind]. f_equal.
  unfold after_forest, forest_leaves, forest_leaf_pos. cbn [flat_map forest_occurrences running_counts].
  rewrite !app_nil_r.
  unfold push_counts, after_dfs, with_leaves. cbn.
  destruct (fold_record_leaf_fields
              (occurrences d (snd it) (fst it) true (length (leaf_v_list st))) st)
    as [E1 [E2 E3]].
  rewrite E1, E3, length_app, tree_leaves_length. reflexivity.
Qed.

Lemma after_forest_leaf_v (d : Z) (neg : bool) (its : list (nat * json_tree))
    (st : compiler) :
  leaf_v_list (after_forest d neg its st) = leaf_v_list st ++ forest_leaves neg its.
Proof.
  unfold after_forest, push_counts, with_leaves. cbn.
  now destruct (fold_record_leaf_fields
                  (forest_occurrences d its (length (leaf_v_list st))) st) as [-> _].
Qed.

Lemma forest_leaves_length (neg : bool) (its : list (nat * json_tree)) :
  length (forest_leaves neg its) = fold_right (fun it n => (n_leaves (snd it) + n)%nat) 0%nat its.
Proof.
  induction its as [| it its IH]; [reflexivity |].
  unfold forest_leaves in *. cbn [flat_map fold_right].
  now rewrite length_app, tree_leaves_length, IH.
Qed.

Lemma after_forest_cons (d : Z) (neg : bool) (it : nat * json_tree)
    (its : list (nat * json_tree)) (st : compiler) :
  after_forest d neg its (after_forest d neg [it] st) = after_forest d neg (it :: its) st.
Proof.
  unfold after_forest at 1.
  rewrite after_forest_leaf_v.
  unfold forest_leaves at 1. cbn [flat_map]. rewrite app_nil_r.
  rewrite length_app, tree_leaves_length.
  unfold after_forest at 1.
  rewrite fold_record_push_counts, fold_record_with_leaves.
  unfold after_forest. cbn [forest_occurrences running_counts].
  rewrite app_nil_r, fold_left_app.
  unfold forest_leaves, forest_leaf_pos. cbn [flat_map]. rewrite !app_nil_r.
  unfold push_counts, with_leaves. cbn.
  rewrite <- !app_assoc, ?length_app, ?tree_leaves_length. reflexivity.
Qed.

Lemma compile_forest_spec (d : Z) (neg : bool) (its : list (nat * json_tree))
    (st : compiler) :
  foldM (compile_tree d neg) its st =
    if forallb (fun it => links_resolve (snd it)) its
    then Ok (after_forest d neg its st)
    else Raise missing_child.
Proof.
  revert st. induction its as [| it its IH]; intros st.
  - cbn. f_equal. unfold after_forest, push_counts, with_leaves. cbn.
    rewrite !app_nil_r. now destruct st.
  - cbn [foldM forallb]. rewrite compile_tree_spec.
    destruct (links_resolve (snd it)); [| reflexivity].
    cbn [bind andb]. rewrite IH.
    destruct (forallb (fun it0 => links_resolve (snd it0)) its); [| reflexivity].
    now rewrite after_forest_cons.
Qed.

(** ** The deduplication dictionary *)

Lemma canonical_eq (a b : Q) : canonical a -> canonical b -> a == b -> a = b.
Proof.
  unfold canonical. intros Ha Hb Hab. rewrite <- Ha, <- Hb.
  now apply Qred_complete.
Qed.

Lemma py_round_canonical (x : Q) (d : Z) : canonical (py_round x d).
Proof.
  unfold canonical, py_round. apply Qred_complete, Qred_correct.
Qed.

Lemma key_eqb_eq (a b : split_key) :
  canonical (snd a) -> canonical (snd b) -> key_eqb a b = true <-> a = b.
Proof.
  intros Ha Hb. unfold key_eqb. rewrite andb_true_iff, Nat.eqb_eq, Qeq_bool_iff.
  destruct a as [a1 a2], b as [b1 b2]; simpl in *. split.
  - intros [E1 E2]. f_equal; [exact E1 | now apply canonical_eq].
  - intros E. inversion E; subst. split; reflexivity.
Qed.

Lemma key_eqb_refl (a : split_key) : key_eqb a a = true.
Proof.
  unfold key_eqb. rewrite Nat.eqb_refl. simpl. apply Qeq_bool_iff. reflexivity.
Qed.

Lemma dict_get_combine_Some (keys : list split_key) (s : nat) (k : split_key) (j : nat) :
  Forall (fun k => canonical (snd k)) keys -> canonical (snd k) ->
  dict_get (combine keys (seq s (length keys))) k = Some j ->
  (s <= j)%nat /\ nth_error keys (j - s) = Some k.
Proof.
  revert s. induction keys as [| k' keys IH]; intros s Hc Hk H; simpl in H.
  - discriminate.
  - inversion Hc as [| ? ? Hk' Hc']; subst.
    destruct (key_eqb k k') eqn:E.
    + inversion H; subst. apply key_eqb_eq in E; auto. subst.
      split; [lia |]. now rewrite Nat.sub_diag.
    + destruct (IH (S s) Hc' Hk H) as [Hle Hn]. split; [lia |].
      replace (j - s)%nat with (S (j - S s)) by lia. exact Hn.
Qed.

Lemma dict_get_combine_None (keys : list split_key) (s : nat) (k : split_key) :
  dict_get (combine keys (seq s (length keys))) k = None -> ~ In k keys.
Proof.
  revert s. induction keys as [| k' keys IH]; intros s H; simpl in *.
  - tauto.
  - destruct (key_eqb k k') eqn:E; [discriminate |].
    intros [Hin | Hin].
    + subst. rewrite key_eqb_refl in E. discriminate.
    + exact (IH (S s) H Hin).
Qed.

Lemma dict_get_combine_In (keys : list split_key) (s i : nat) (k : split_key) :
  Forall (fun k => canonical (snd k)) keys -> NoDup keys ->
  nth_error keys i = Some k ->
  dict_get (combine keys (seq s (length keys))) k = Some (s + i)%nat.
Proof.
  revert s i. induction keys as [| k' keys IH]; intros s i Hc Hnd Hn.
  - destruct i; discriminate.
  - inversion Hc as [| ? ? Hk' Hc']; subst.
    inversion Hnd as [| ? ? Hnotin Hnd']; subst.
    destruct i as [| i]; simpl in *.
    + inversion Hn; subst. rewrite key_eqb_refl. f_equal. lia.
    + assert (Hin : In k keys) by (eapply nth_error_In; eauto).
      destruct (key_eqb k k') eqn:E.
      * apply key_eqb_eq in E; auto.
        -- subst. contradiction.
        -- rewrite Forall_forall in Hc'. now apply Hc'.
      * rewrite (IH (S s) i Hc' Hnd' Hn). f_equal. lia.
Qed.

(** *** [list_update] *)

Lemma list_update_length {A : Type} (l : list A) (i : nat) (f : A -> A) :
  length (list_update l i f) = length l.
Proof.
  revert i. induction l as [| a l IH]; intros [| i]; simpl; auto.
Qed.

Lemma list_update_nth_same {A : Type} (l : list A) (i : nat) (f : A -> A) (a : A) :
  nth_error l i = Some a -> nth_error (list_update l i f) i = Some (f a).
Proof.
  revert i. induction l as [| b l IH]; intros [| i] H; simpl in *;
    try discriminate.
  - now inversion H.
  - now apply IH.
Qed.

Lemma list_update_nth_other {A : Type} (l : list A) (i j : nat) (f : A -> A) :
  i <> j -> nth_error (list_update l i f) j = nth_error l j.
Proof.
  revert i j. induction l as [| b l IH]; intros [| i] [| j] H; simpl; auto;
    congruence.
Qed.

Lemma list_update_map {A B : Type} (g : A -> B) (l : list A) (i : nat) (f : A -> A) :
  (forall a, g (f a) = g a) -> map g (list_update l i f) = map g l.
Proof.
  intros Hg. revert i. induction l as [| b l IH]; intros [| i]; simpl; auto.
  - now rewrite Hg.
  - now rewrite IH.
Qed.

(** *** Recording one visit *)

Lemma record_keys (st : compiler) (o : occurrence) :
  compiler_inv st -> canonical (snd (occ_key o)) ->
  map node_key (node_list (record_occurrence st o)) =
    map node_key (node_list st) ++
    (if in_dec split_key_eq_dec (occ_key o) (map node_key (node_list st))
     then [] else [occ_key o]).
Proof.
  intros [Hnc [Hnd Hc]] Hk.
  unfold record_occurrence. rewrite Hnc.
  rewrite <- (length_map node_key (node_list st)).
  destruct (dict_get _ (occ_key o)) as [j |] eqn:Eg.
  - apply dict_get_combine_Some in Eg; auto. destruct Eg as [_ Hn].
    cbn [node_list]. rewrite list_update_map by reflexivity.
    destruct (in_dec _ _ _) as [_ | Hnot]; [now rewrite app_nil_r |].
    exfalso. apply Hnot. eapply nth_error_In; eauto.
  - apply dict_get_combine_None in Eg.
    cbn [node_list]. rewrite map_app. simpl.
    destruct (in_dec _ _ _) as [Hin | _]; [contradiction |].
    unfold node_key. simpl. now destruct (occ_key o).
Qed.

Lemma combine_app_eq {A B : Type} (l1 a : list A) (l2 b : list B) :
  length l1 = length l2 ->
  combine (l1 ++ a) (l2 ++ b) = combine l1 l2 ++ combine a b.
Proof.
  revert l2. induction l1 as [| x l1 IH]; intros [| y l2] H; simpl in *;
    try discriminate; [reflexivity |].
  f_equal. apply IH. now inversion H.
Qed.

Lemma dict_get_app {V : Type} (d1 d2 : list (split_key * V)) (k : split_key) (v : V) :
  dict_get d1 k = Some v -> dict_get (d1 ++ d2) k = Some v.
Proof.
  induction d1 as [| [k' v'] d1 IH]; simpl; [discriminate |].
  destruct (key_eqb k k'); auto.
Qed.

Lemma add_leaves_key (n : node_wrapper) (treeid nodeid : nat) (l r : list nat)
    (root : bool) :
  node_key (add_leaves n treeid nodeid l r root) = node_key n.
Proof. reflexivity. Qed.

Lemma record_inv (st : compiler) (o : occurrence) :
  compiler_inv st -> canonical (snd (occ_key o)) ->
  compiler_inv (record_occurrence st o).
Proof.
  intros Hinv Hk. pose proof (record_keys st o Hinv Hk) as Hkeys.
  destruct Hinv as [Hnc [Hnd Hc]].
  unfold compiler_inv. rewrite Hkeys.
  unfold record_occurrence in *. rewrite Hnc in *.
  rewrite <- (length_map node_key (node_list st)) in *.
  destruct (dict_get _ (occ_key o)) as [j |] eqn:Eg.
  - apply dict_get_combine_Some in Eg; auto. destruct Eg as [_ Hn].
    cbn [node_list node_check].
    destruct (in_dec _ _ _) as [_ | Hnot];
      [| exfalso; apply Hnot; eapply nth_error_In; eauto].
    rewrite app_nil_r, list_update_length, <- (length_map node_key (node_list st)).
    auto.
  - apply dict_get_combine_None in Eg.
    cbn [node_list node_check].
    destruct (in_dec _ _ _) as [Hin | _]; [contradiction |].
    rewrite length_app, !length_map. cbn [length].
    rewrite Nat.add_sub. split; [| split].
    + rewrite Nat.add_1_r, seq_S, combine_app_eq
        by now rewrite length_map, length_seq.
      reflexivity.
    + apply NoDup_app; [exact Hnd | repeat constructor; intros [] |].
      intros k Hk1 [<- | []]. contradiction.
    + apply Forall_app. split; [exact Hc |]. now repeat constructor.
Qed.

Lemma record_recorded (st : compiler) (o : occurrence) :
  compiler_inv st -> canonical (snd (occ_key o)) ->
  recorded (record_occurrence st o) o.
Proof.
  intros Hinv Hk.
  pose proof (record_inv st o Hinv Hk) as Hinv'.
  pose proof (record_keys st o Hinv Hk) as Hkeys.
  destruct Hinv as [Hnc [Hnd Hc]]. destruct Hinv' as [Hnc' [Hnd' Hc']].
  rewrite Hkeys in Hnd', Hc'.
  unfold recorded. rewrite Hnc'.
  rewrite <- (length_map node_key (node_list (record_occurrence st o))).
  unfold record_occurrence in Hkeys |- *. rewrite Hnc in Hkeys |- *.
  rewrite <- (length_map node_key (node_list st)) in Hkeys |- *.
  destruct (dict_get _ (occ_key o)) as [j |] eqn:Eg.
  - apply dict_get_combine_Some in Eg; auto. destruct Eg as [_ Hn].
    rewrite Nat.sub_0_r in Hn.
    cbn [node_list] in *.
    destruct (nth_error (node_list st) j) as [node |] eqn:En;
      [| rewrite nth_error_map, En in Hn; discriminate].
    rewrite nth_error_map, En in Hn. simpl in Hn. injection Hn as Hkey.
    exists j. eexists. split; [| split; [| split; [| split]]].
    + rewrite list_update_map by reflexivity.
      apply (dict_get_combine_In _ 0 j); auto.
      rewrite nth_error_map, En. simpl. now rewrite Hkey.
    + apply list_update_nth_same. exact En.
    + rewrite add_leaves_key. exact Hkey.
    + simpl. apply in_or_app. right. left. now destruct (occ_pos o).
    + simpl. apply in_or_app. right. left. now destruct (occ_item o).
  - cbn [node_list] in *.
    exists (length (node_list st)). eexists. split; [| split; [| split; [| split]]].
    + rewrite Hkeys.
      replace (length (node_list st)) with (0 + length (map node_key (node_list st)))%nat
        by (rewrite length_map; reflexivity).
      apply dict_get_combine_In; auto.
      apply dict_get_combine_None in Eg.
      destruct (in_dec _ _ _) as [Hin | _]; [contradiction |].
      rewrite nth_error_app2, Nat.sub_diag by lia. reflexivity.
    + rewrite nth_error_app2, Nat.sub_diag by lia. reflexivity.
    + unfold node_key. simpl. now destruct (occ_key o).
    + simpl. left. now destruct (occ_pos o).
    + simpl. left. now destruct (occ_item o).
Qed.

Lemma record_preserves (st : compiler) (o o' : occurrence) :
  compiler_inv st -> recorded st o' -> recorded (record_occurrence st o) o'.
Proof.
  intros [Hnc [Hnd Hc]] [j' [node' [Hg [Hn [Hkey [Hpos Hitem]]]]]].
  unfold recorded, record_occurrence.
  destruct (dict_get (node_check st) (occ_key o)) as [j |] eqn:Eg;
    cbn [node_list node_check].
  - destruct (Nat.eq_dec j j') as [-> | Hne].
    + exists j'. eexists. split; [exact Hg |]. split;
        [apply list_update_nth_same; exact Hn |].
      split; [exact Hkey |]. simpl. split; apply in_or_app; now left.
    + exists j', node'. split; [exact Hg |]. split;
        [rewrite list_update_nth_other by exact Hne; exact Hn |]. auto.
  - exists j', node'. split; [now apply dict_get_app |]. split; [| auto].
    rewrite nth_error_app1; [exact Hn |]. apply nth_error_Some. congruence.
Qed.

(** *** Recording the visits of a whole traversal *)

Lemma fold_record_spec (occs : list occurrence) (st : compiler) :
  compiler_inv st ->
  Forall (fun o => canonical (snd (occ_key o))) occs ->
  compiler_inv (fold_left record_occurrence occs st) /\
  (forall o, recorded st o -> recorded (fold_left record_occurrence occs st) o) /\
  (forall o, In o occs -> recorded (fold_left record_occurrence occs st) o) /\
  (forall k, In k (map node_key (node_list (fold_left record_occurrence occs st)))
             <-> In k (map node_key (node_list st)) \/ In k (map occ_key occs)).
Proof.
  revert st. induction occs as [| o occs IH]; intros st Hinv Hcan; simpl.
  - split; [exact Hinv |]. split; [auto |]. split; [intros ? [] | tauto].
  - inversion Hcan as [| ? ? Hk Hcan']; subst.
    destruct (IH (record_occurrence st o) (record_inv st o Hinv Hk) Hcan')
      as [H1 [H2 [H3 H4]]].
    split; [exact H1 |]. split; [| split].
    + intros o' Ho'. apply H2. now apply record_preserves.
    + intros o' [<- | Ho']; [apply H2, record_recorded; assumption | now apply H3].
    + intros k. rewrite H4, (record_keys st o Hinv Hk), in_app_iff.
      destruct (in_dec _ _ _) as [Hin | Hnot]; simpl; split; intros H;
        intuition (subst; auto).
Qed.

Lemma compiler_init_inv : compiler_inv compiler_init.
Proof.
  unfold compiler_inv. simpl. split; [reflexivity |]. split; constructor.
Qed.

(** ** From the constructor to the recorded visits *)

Lemma init_unfold (jm : option (list json_tree)) (eps : option Q) (ord : norm_order)
    (g : Q) (d : Z) (pos neg : option (list json_tree)) (thr : Q) (vb : bool)
    (nt : nat) (self : KantchelianAttack) :
  KantchelianAttack_init jm eps ord g d pos neg thr vb nt = Ok self ->
  compile_ensemble d (is_None pos || is_None neg) jm pos neg = Ok (compiled self) /\
  binary self = is_None pos || is_None neg /\
  json_model self = jm /\ pos_json_input self = pos /\ neg_json_input self = neg /\
  round_digits self = d /\ pred_threshold self = thr /\ order self = ord /\
  n_P (m self) = length (node_list (compiled self)) /\
  n_L (m self) = length (leaf_v_list (compiled self)).
Proof.
  unfold KantchelianAttack_init.
  destruct (negb (is_None eps || is_inf ord)); [discriminate |].
  intros H. bind_inv H.
  destruct (p_constraints (build_pdict (node_list r)) g) as [[pd cs] g'].
  inversion H; subst; simpl. repeat split; auto.
Qed.

Lemma enumerate_app {A : Type} (s : nat) (a b : list A) :
  enumerate s (a ++ b) = enumerate s a ++ enumerate (s + length a) b.
Proof.
  unfold enumerate. rewrite length_app, seq_app.
  apply combine_app_eq. now rewrite length_seq.
Qed.

Lemma forest_occurrences_app (d : Z) (neg : bool) (a b : list (nat * json_tree))
    (s : nat) :
  forest_occurrences d (a ++ b) s =
    forest_occurrences d a s
    ++ forest_occurrences d b (s + length (forest_leaves neg a)).
Proof.
  revert s. induction a as [| it a IH]; intros s; simpl.
  - now rewrite Nat.add_0_r.
  - rewrite IH, <- app_assoc. unfold forest_leaves. cbn [flat_map].
    rewrite length_app, tree_leaves_length, Nat.add_assoc. reflexivity.
Qed.

Lemma running_counts_app (a b : list (nat * json_tree)) (neg : bool) (s : nat) :
  running_counts s (a ++ b) =
    running_counts s a ++ running_counts (s + length (forest_leaves neg a)) b.
Proof.
  revert s. induction a as [| it a IH]; intros s; simpl.
  - now rewrite Nat.add_0_r.
  - rewrite IH. unfold forest_leaves. cbn [flat_map].
    rewrite length_app, tree_leaves_length, Nat.add_assoc. reflexivity.
Qed.

Lemma running_counts_length (s : nat) (its : list (nat * json_tree)) :
  length (running_counts s its) = length its.
Proof.
  revert s. induction its as [| it its IH]; intros s; simpl; auto.
Qed.

Lemma enumerate_length {A : Type} (s : nat) (l : list A) :
  length (enumerate s l) = length l.
Proof. unfold enumerate. rewrite length_combine, length_seq. lia. Qed.

Lemma forallb_enumerate (f : json_tree -> bool) (s : nat) (l : list json_tree) :
  forallb (fun it => f (snd it)) (enumerate s l) = forallb f l.
Proof.
  unfold enumerate. revert s. induction l as [| a l IH]; intros s; simpl; auto.
  now rewrite IH.
Qed.

Lemma record_node_congr (st st' : compiler) (o : occurrence) :
  node_list st = node_list st' -> node_check st = node_check st' ->
  node_list (record_occurrence st o) = node_list (record_occurrence st' o) /\
  node_check (record_occurrence st o) = node_check (record_occurrence st' o).
Proof.
  intros H1 H2. unfold record_occurrence. rewrite H1, H2.
  destruct (dict_get (node_check st') (occ_key o)); simpl; auto.
Qed.

Lemma fold_record_node_congr (occs : list occurrence) (st st' : compiler) :
  node_list st = node_list st' -> node_check st = node_check st' ->
  node_list (fold_left record_occurrence occs st)
    = node_list (fold_left record_occurrence occs st') /\
  node_check (fold_left record_occurrence occs st)
    = node_check (fold_left record_occurrence occs st').
Proof.
  revert st st'. induction occs as [| o occs IH]; intros st st' H1 H2; simpl; auto.
  destruct (record_node_congr st st' o H1 H2) as [E1 E2]. now apply IH.
Qed.

Lemma after_forest_fields (d : Z) (neg : bool) (its : list (nat * json_tree))
    (st : compiler) :
  let F := fold_left record_occurrence
             (forest_occurrences d its (length (leaf_v_list st))) st in
  node_list (after_forest d neg its st) = node_list F /\
  node_check (after_forest d neg its st) = node_check F /\
  leaf_count (after_forest d neg its st)
    = leaf_count st ++ running_counts (length (leaf_v_list st)) its.
Proof.
  unfold after_forest, push_counts, with_leaves. cbn.
  destruct (fold_record_leaf_fields
              (forest_occurrences d its (length (leaf_v_list st))) st)
    as [_ [_ ->]].
  auto.
Qed.

(** What the compiler leaves in an attacker: the visits of all the trees
    recorded from the empty state, the leaf values and the running totals. *)
Lemma init_compiled (jm : option (list json_tree)) (eps : option Q) (ord : norm_order)
    (g : Q) (d : Z) (pos neg : option (list json_tree)) (thr : Q) (vb : bool)
    (nt : nat) (self : KantchelianAttack) :
  KantchelianAttack_init jm eps ord g d pos neg thr vb nt = Ok self ->
  let its := enumerate 0 (ensemble self) in
  let F := fold_left record_occurrence (forest_occurrences d its 0) compiler_init in
  forallb links_resolve (ensemble self) = true /\
  node_list (compiled self) = node_list F /\
  node_check (compiled self) = node_check F /\
  leaf_count (compiled self) = 0%nat :: running_counts 0 its /\
  (binary self = true ->
     leaf_v_list (compiled self) = forest_leaves false its).
Proof.
  intros Hinit.
  destruct (init_unfold _ _ _ _ _ _ _ _ _ _ _ Hinit)
    as [Hc [Hb [Hjm [Hpos [Hneg _]]]]].
  unfold ensemble. rewrite Hb, Hjm, Hpos, Hneg.
  unfold compile_ensemble in Hc.
  destruct (is_None pos || is_None neg) eqn:Ebin.
  - destruct jm as [trees |]; [| discriminate].
    bind_inv Hc. rewrite compile_forest_spec in Hr.
    rewrite forallb_enumerate in Hr.
    destruct (forallb links_resolve trees); [| discriminate].
    inversion Hr; subst r. clear Hr.
    unfold leaf_count_check in Hc.
    destruct (_ =? _)%nat; [| discriminate]. inversion Hc as [Hc'].
    destruct (after_forest_fields d false (enumerate 0 trees) compiler_init)
      as [F1 [F2 F3]].
    cbv zeta. rewrite F1, F2, F3, after_forest_leaf_v. cbn. auto.
  - destruct pos as [ptrees |]; [| discriminate].
    destruct neg as [ntrees |]; [| discriminate].
    bind_inv Hc. bind_inv Hc.
    rewrite compile_forest_spec, forallb_enumerate in Hr.
    destruct (forallb links_resolve ptrees) eqn:Ep; [| discriminate].
    inversion Hr; subst r. clear Hr.
    rewrite compile_forest_spec, forallb_enumerate in Hr0.
    destruct (forallb links_resolve ntrees) eqn:En; [| discriminate].
    inversion Hr0; subst r0. clear Hr0.
    unfold leaf_count_check in Hc.
    destruct (_ =? _)%nat; [| discriminate]. inversion Hc as [Hc'].
    rewrite forallb_app, Ep, En.
    rewrite enumerate_app, (forest_occurrences_app d false),
      (running_counts_app _ _ false), fold_left_app.
    cbn [Nat.add].
    set (st1 := after_forest d false (enumerate 0 ptrees) compiler_init).
    destruct (after_forest_fields d false (enumerate 0 ptrees) compiler_init)
      as [A1 [A2 A3]]. fold st1 in A1, A2, A3. cbv zeta in A1, A2.
    cbn [compiler_init leaf_v_list leaf_count length app] in A1, A2, A3.
    assert (Hlv : length (leaf_v_list st1)
                  = length (forest_leaves false (enumerate 0 ptrees))).
    { unfold st1. now rewrite after_forest_leaf_v. }
    destruct (after_forest_fields d true (enumerate (length ptrees) ntrees) st1)
      as [B1 [B2 B3]].
    cbv zeta in B1, B2. rewrite Hlv in B1, B2, B3.
    destruct (fold_record_node_congr
                (forest_occurrences d (enumerate (length ptrees) ntrees)
                   (length (forest_leaves false (enumerate 0 ptrees))))
                _ _ A1 A2) as [C1 C2].
    cbv zeta. rewrite B1, B2, B3, C1, C2, A3.
    repeat split; auto. discriminate.
Qed.

(** ** Split deduplication (lines 155-173 and 219-226) *)

Lemma linked_child_cases (id : nat) (c0 c1 : json_tree) :
  linked_child id c0 c1 = c0 \/ linked_child id c0 c1 = c1.
Proof.
  unfold linked_child. destruct (find_child id c0 c1) as [[|] |]; auto.
Qed.

Lemma tree_splits_canonical (d : Z) (t : json_tree) (n : nat) (k : split_key) :
  In (n, k) (tree_splits d t) -> canonical (snd k).
Proof.
  induction t as [n0 v | n0 a th yes no c0 IH0 c1 IH1]; simpl; [tauto |].
  intros [H | H].
  - inversion H; subst. apply py_round_canonical.
  - apply in_app_or in H. tauto.
Qed.

Lemma occurrences_in_splits (d : Z) (t : json_tree) :
  forall (treeid : nat) (root : bool) (s : nat) (o : occurrence),
    In o (occurrences d t treeid root s) ->
    fst (occ_pos o) = treeid /\ In (snd (occ_pos o), occ_key o) (tree_splits d t).
Proof.
  induction t as [n0 v | n0 a th yes no c0 IH0 c1 IH1]; intros treeid root s o;
    cbn [occurrences tree_splits]; [intros [] |].
  assert (IH : forall id root s o,
             In o (occurrences d (linked_child id c0 c1) treeid root s) ->
             fst (occ_pos o) = treeid /\
             In (snd (occ_pos o), occ_key o)
               (tree_splits d c0 ++ tree_splits d c1)).
  { intros id root' s' o' H.
    destruct (linked_child_cases id c0 c1) as [E | E]; rewrite E in H.
    - apply IH0 in H. destruct H. split; [assumption |]. apply in_or_app. now left.
    - apply IH1 in H. destruct H. split; [assumption |]. apply in_or_app. now right. }
  rewrite !in_app_iff. intros [H | [H | [H | []]]].
  - apply IH in H. destruct H. split; [assumption | now right].
  - apply IH in H. destruct H. split; [assumption | now right].
  - subst o. simpl. auto.
Qed.

Lemma well_formed_children (n a : nat) (th : Q) (yes no : nat) (c0 c1 : json_tree) :
  well_formed (JSplit n a th yes no c0 c1) = true ->
  well_formed c0 = true /\ well_formed c1 = true /\
  ((linked_child yes c0 c1 = c0 /\ linked_child no c0 c1 = c1) \/
   (linked_child yes c0 c1 = c1 /\ linked_child no c0 c1 = c0)).
Proof.
  cbn [well_formed]. rewrite !andb_true_iff. intros [[H Hw0] Hw1].
  split; [assumption |]. split; [assumption |].
  unfold linked_child.
  destruct (find_child yes c0 c1) as [[|] |], (find_child no c0 c1) as [[|] |];
    simpl in H; try discriminate; auto.
Qed.

Lemma splits_in_occurrences (d : Z) (t : json_tree) :
  well_formed t = true ->
  forall (n : nat) (k : split_key),
    In (n, k) (tree_splits d t) ->
    forall (treeid : nat) (root : bool) (s : nat),
    exists o, In o (occurrences d t treeid root s) /\
              occ_key o = k /\ occ_pos o = (treeid, n).
Proof.
  induction t as [n0 v | n0 a th yes no c0 IH0 c1 IH1]; intros Hwf n k Hin treeid root s;
    cbn [occurrences tree_splits] in *; [contradiction |].
  destruct (well_formed_children _ _ _ _ _ _ _ Hwf) as [Hw0 [Hw1 Hside]].
  destruct Hin as [Hin | Hin].
  - inversion Hin; subst. eexists. split.
    + apply in_or_app. right. apply in_or_app. right. left. reflexivity.
    + auto.
  - apply in_app_or in Hin.
    destruct Hside as [[Ey En] | [Ey En]]; rewrite Ey, En;
      destruct Hin as [Hin | Hin].
    + destruct (IH0 Hw0 n k Hin treeid false s) as [o [Ho He]].
      exists o. split; [| exact He]. apply in_or_app. now left.
    + destruct (IH1 Hw1 n k Hin treeid false (s + n_leaves c0)%nat) as [o [Ho He]].
      exists o. split; [| exact He]. apply in_or_app. right.
      apply in_or_app. now left.
    + destruct (IH0 Hw0 n k Hin treeid false (s + n_leaves c1)%nat) as [o [Ho He]].
      exists o. split; [| exact He]. apply in_or_app. right.
      apply in_or_app. now left.
    + destruct (IH1 Hw1 n k Hin treeid false s) as [o [Ho He]].
      exists o. split; [| exact He]. apply in_or_app. now left.
Qed.

Lemma forest_occurrences_in (d : Z) (trees : list json_tree) (s0 s : nat)
    (o : occurrence) :
  In o (forest_occurrences d (enumerate s0 trees) s) ->
  exists i t, nth_error trees i = Some t /\ fst (occ_pos o) = (s0 + i)%nat /\
              In (snd (occ_pos o), occ_key o) (tree_splits d t).
Proof.
  revert s0 s. induction trees as [| t trees IH]; intros s0 s H.
  - contradiction.
  - unfold enumerate in H. cbn [length seq combine forest_occurrences fst snd] in H.
    apply in_app_or in H. destruct H as [H | H].
    + apply occurrences_in_splits in H. destruct H as [H1 H2].
      exists 0%nat, t. rewrite Nat.add_0_r. auto.
    + apply (IH (S s0)) in H. destruct H as [i [t' [H1 [H2 H3]]]].
      exists (S i), t'. split; [exact H1 |]. split; [lia | exact H3].
Qed.

Lemma splits_in_forest (d : Z) (trees : list json_tree) (s0 s : nat)
    (i : nat) (t : json_tree) (n : nat) (k : split_key) :
  forallb well_formed trees = true ->
  nth_error trees i = Some t ->
  In (n, k) (tree_splits d t) ->
  exists o, In o (forest_occurrences d (enumerate s0 trees) s) /\
            occ_key o = k /\ occ_pos o = ((s0 + i)%nat, n).
Proof.
  revert s0 s i. induction trees as [| t' trees IH]; intros s0 s i Hwf Hn Hin.
  - destruct i; discriminate.
  - cbn [forallb] in Hwf. apply andb_true_iff in Hwf. destruct Hwf as [Hw Hwf].
    unfold enumerate. cbn [length seq combine forest_occurrences fst snd].
    destruct i as [| i]; simpl in Hn.
    + inversion Hn; subst t'.
      destruct (splits_in_occurrences d t Hw n k Hin s0 true s) as [o [Ho He]].
      exists o. rewrite Nat.add_0_r. split; [| exact He]. apply in_or_app. now left.
    + destruct (IH (S s0) (s + n_leaves t')%nat i Hwf Hn Hin) as [o [Ho He]].
      exists o. replace (s0 + S i)%nat with (S s0 + i)%nat by lia.
      split; [| exact He]. apply in_or_app. now right.
Qed.

Lemma forest_occurrences_canonical (d : Z) (trees : list json_tree) (s0 s : nat) :
  Forall (fun o => canonical (snd (occ_key o)))
    (forest_occurrences d (enumerate s0 trees) s).
Proof.
  apply Forall_forall. intros o Ho.
  apply forest_occurrences_in in Ho. destruct Ho as [i [t [_ [_ H]]]].
  eapply tree_splits_canonical; eauto.
Qed.

Lemma nodup_same_length (l1 l2 : list split_key) :
  NoDup l1 -> (forall k, In k l1 <-> In k l2) ->
  length l1 = length (nodup split_key_eq_dec l2).
Proof.
  intros Hnd Hiff. apply Permutation_length, NoDup_Permutation.
  - exact Hnd.
  - apply NoDup_nodup.
  - intros k. rewrite nodup_In. apply Hiff.
Qed.

(** The state the constructor compiles, with its invariant. *)
Lemma init_recorded (jm : option (list json_tree)) (eps : option Q) (ord : norm_order)
    (g : Q) (d : Z) (pos neg : option (list json_tree)) (thr : Q) (vb : bool)
    (nt : nat) (self : KantchelianAttack) :
  KantchelianAttack_init jm eps ord g d pos neg thr vb nt = Ok self ->
  compiler_inv (compiled self) /\
  (forall o, In o (forest_occurrences d (enumerate 0 (ensemble self)) 0) ->
             recorded (compiled self) o) /\
  (forall k, In k (map node_key (node_list (compiled self))) <->
             In k (map occ_key (forest_occurrences d (enumerate 0 (ensemble self)) 0))).
Proof.
  intros Hinit.
  destruct (init_compiled _ _ _ _ _ _ _ _ _ _ _ Hinit) as [_ [Hnl [Hnc _]]].
  destruct (fold_record_spec
              (forest_occurrences d (enumerate 0 (ensemble self)) 0) compiler_init
              compiler_init_inv (forest_occurrences_canonical d _ 0 0))
    as [Hinv [_ [Hrec Hkeys]]].
  unfold compiler_inv, recorded. rewrite Hnl, Hnc.
  split; [exact Hinv |]. split; [exact Hrec |].
  intros k. rewrite Hkeys. simpl. tauto.
Qed.

(** X1 (split deduplication). For an ensemble whose links resolve to both children of every split:
    [node_list] has as many entries as there are distinct pairs (feature,
    rounded threshold) among the splits of all trees, this is also the
    number of binary variables, no two entries carry the same pair, and two
    splits whose rounded pairs compare equal are both occurrences of one
    entry (hence share its variable). *)
Theorem split_deduplication (jm : option (list json_tree)) (eps : option Q)
    (ord : norm_order) (g : Q) (d : Z) (pos neg : option (list json_tree))
    (thr : Q) (vb : bool) (nt : nat) (self : KantchelianAttack) :
  KantchelianAttack_init jm eps ord g d pos neg thr vb nt = Ok self ->
  forallb well_formed (ensemble self) = true ->
  length (node_list (compiled self))
    = length (nodup split_key_eq_dec
                (map snd (flat_map (tree_splits d) (ensemble self)))) /\
  n_P (m self) = length (node_list (compiled self)) /\
  NoDup (map node_key (node_list (compiled self))) /\
  forall i1 t1 n1 k1 i2 t2 n2 k2,
    nth_error (ensemble self) i1 = Some t1 -> In (n1, k1) (tree_splits d t1) ->
    nth_error (ensemble self) i2 = Some t2 -> In (n2, k2) (tree_splits d t2) ->
    key_eqb k1 k2 = true ->
    exists j node,
      nth_error (node_list (compiled self)) j = Some node /\
      node_key node = k1 /\
      In (i1, n1) (node_pos node) /\ In (i2, n2) (node_pos node).
Proof.
  intros Hinit Hwf.
  destruct (init_recorded _ _ _ _ _ _ _ _ _ _ _ Hinit) as [Hinv [Hrec Hkeys]].
  destruct (init_unfold _ _ _ _ _ _ _ _ _ _ _ Hinit) as [_ [_ [_ [_ [_ [_ [_ [_ [HnP _]]]]]]]]].
  pose proof Hinv as [_ [Hnd _]].
  split; [| split; [exact HnP | split; [exact Hnd |]]].
  - rewrite <- (length_map node_key). apply nodup_same_length; [exact Hnd |].
    intros k. rewrite Hkeys, !in_map_iff. split.
    + intros [o [<- Ho]]. apply forest_occurrences_in in Ho.
      destruct Ho as [i [t [Hn [_ Hin]]]].
      exists (snd (occ_pos o), occ_key o). split; [reflexivity |].
      apply in_flat_map. exists t. split; [eapply nth_error_In; eauto | exact Hin].
    + intros [[n k'] [<- Hin]]. apply in_flat_map in Hin.
      destruct Hin as [t [Ht Hin]]. apply In_nth_error in Ht. destruct Ht as [i Hi].
      destruct (splits_in_forest d _ 0 0 i t n k' Hwf Hi Hin) as [o [Ho [Hk _]]].
      exists o. auto.
  - intros i1 t1 n1 k1 i2 t2 n2 k2 Hn1 Hin1 Hn2 Hin2 Heq.
    apply key_eqb_eq in Heq;
      [| eapply tree_splits_canonical; eauto | eapply tree_splits_canonical; eauto].
    subst k2.
    destruct (splits_in_forest d _ 0 0 i1 t1 n1 k1 Hwf Hn1 Hin1) as [o1 [Ho1 [Hk1 Hp1]]].
    destruct (splits_in_forest d _ 0 0 i2 t2 n2 k1 Hwf Hn2 Hin2) as [o2 [Ho2 [Hk2 Hp2]]].
    destruct (Hrec o1 Ho1) as [j1 [node1 [Hg1 [Hnth1 [Hkey1 [Hpos1 _]]]]]].
    destruct (Hrec o2 Ho2) as [j2 [node2 [Hg2 [Hnth2 [Hkey2 [Hpos2 _]]]]]].
    rewrite Hk1 in *. rewrite Hk2 in *.
    assert (j1 = j2) by congruence. subst j2.
    assert (node1 = node2) by congruence. subst node2.
    exists j1, node1. rewrite Hp1 in Hpos1. rewrite Hp2 in Hpos2. simpl in *. auto.
Qed.

Lemma split_deduplication_witness :
  exists self,
    KantchelianAttack_init (Some [two_level; stump]) None inf GUARD_VAL ROUND_DIGITS
      None None 0 false 1 = Ok self /\
    length (node_list (compiled self)) = 3%nat /\
    n_P (m self) = 3%nat.
Proof.
  destruct (KantchelianAttack_init (Some [two_level; stump]) None inf GUARD_VAL
              ROUND_DIGITS None None 0 false 1) as [self | e] eqn:E;
    [| vm_compute in E; discriminate E].
  exists self. split; [reflexivity |].
  destruct (init_unfold _ _ _ _ _ _ _ _ _ _ _ E) as [_ [Hb [Hjm _]]].
  assert (Hens : ensemble self = [two_level; stump]).
  { unfold ensemble. rewrite Hb, Hjm. reflexivity. }
  destruct (split_deduplication _ _ _ _ _ _ _ _ _ _ self E) as [H1 [H2 _]].
  - rewrite Hens. reflexivity.
  - rewrite Hens in H1. split; [rewrite H1 | rewrite H2, H1]; vm_compute; reflexivity.
Defined.

(** ** Monotonicity of the feasibility query in [epsilon] *)

Lemma attack_key_with_B (guard : Q) (x : sample) (mdl : Model)
    (b : option (Q * option Q)) (entry : nat * list (Q * var)) :
  is_None b = is_None (B_bounds mdl) ->
  attack_key guard x (with_B_bounds mdl b) entry
    = (r <- attack_key guard x mdl entry ;; Ok (with_B_bounds r b)).
Proof.
  intros Hb. unfold attack_key.
  destruct (length (snd entry) =? 0)%nat; [reflexivity |].
  destruct (getitem x (fst entry)) as [xk |]; [| reflexivity]. cbn [bind].
  destruct (w_list (fun d => d) guard xk (map fst (snd entry))) as [w |];
    [| reflexivity].
  cbn [bind]. cbn [try_remove with_B_bounds B_bounds]. rewrite Hb.
  destruct (is_None (B_bounds mdl)); reflexivity.
Qed.

Lemma attack_key_B_bounds (guard : Q) (x : sample) (mdl mdl' : Model)
    (entry : nat * list (Q * var)) :
  attack_key guard x mdl entry = Ok mdl' -> B_bounds mdl' = B_bounds mdl.
Proof.
  unfold attack_key.
  destruct (length (snd entry) =? 0)%nat; [discriminate |].
  destruct (getitem x (fst entry)) as [xk |]; [| discriminate]. cbn [bind].
  destruct (w_list (fun d => d) guard xk (map fst (snd entry))) as [w |];
    [| discriminate].
  cbn [bind]. destruct (is_None _); [discriminate |].
  intros H. inversion H. reflexivity.
Qed.

Lemma attack_keys_with_B (guard : Q) (x : sample) (pd : pdict_t) (mdl : Model)
    (b : option (Q * option Q)) :
  is_None b = is_None (B_bounds mdl) ->
  foldM (attack_key guard x) pd (with_B_bounds mdl b)
    = (r <- foldM (attack_key guard x) pd mdl ;; Ok (with_B_bounds r b)).
Proof.
  revert mdl. induction pd as [| e pd IH]; intros mdl Hb; cbn [foldM].
  - reflexivity.
  - rewrite attack_key_with_B by exact Hb.
    destruct (attack_key guard x mdl e) as [m1 |] eqn:E; [| reflexivity].
    cbn [bind]. apply IH. rewrite Hb. symmetry. f_equal.
    eapply attack_key_B_bounds; eauto.
Qed.

Lemma attack_keys_B_bounds (guard : Q) (x : sample) (pd : pdict_t)
    (mdl mdl' : Model) :
  foldM (attack_key guard x) pd mdl = Ok mdl' -> B_bounds mdl' = B_bounds mdl.
Proof.
  revert mdl. induction pd as [| e pd IH]; intros mdl H; cbn [foldM] in H.
  - now inversion H.
  - bind_inv H. rewrite (IH _ H). eapply attack_key_B_bounds; eauto.
Qed.

(** Widening the bounds of [B] keeps every feasible assignment feasible. *)
Lemma feasible_wider_B (mdl : Model) (lb ub ub' : Q) (a : var -> Q) :
  ub <= ub' ->
  feasible (with_B_bounds mdl (Some (lb, Some ub))) a ->
  feasible (with_B_bounds mdl (Some (lb, Some ub'))) a.
Proof.
  intros Hle [[HP [HL HB]] Hcs]. split; [| exact Hcs].
  split; [exact HP |]. split; [exact HL |]. simpl in *. lra.
Qed.

(** Two attackers built from the same arguments but for their positive
    [epsilon] differ in the upper bound of [B] only. *)
Lemma init_epsilon_change (jm : option (list json_tree)) (e1 e2 g : Q) (d : Z)
    (pos neg : option (list json_tree)) (thr : Q) (vb : bool) (nt : nat)
    (a1 a2 : KantchelianAttack) :
  ~ e1 == 0 -> ~ e2 == 0 ->
  KantchelianAttack_init jm (Some e1) inf g d pos neg thr vb nt = Ok a1 ->
  KantchelianAttack_init jm (Some e2) inf g d pos neg thr vb nt = Ok a2 ->
  exists mdl,
    m a1 = with_B_bounds mdl (Some (0, Some (e1 - (1 # 10000)))) /\
    m a2 = with_B_bounds mdl (Some (0, Some (e2 - (1 # 10000)))) /\
    pdict a1 = pdict a2 /\ guard_val a1 = guard_val a2 /\
    (forall label, mislabel_constr a1 label = mislabel_constr a2 label).
Proof.
  intros H1 H2. unfold KantchelianAttack_init. simpl.
  assert (T1 : negb (Qeq_bool e1 0) = true).
  { apply negb_true_iff. destruct (Qeq_bool e1 0) eqn:E; [| reflexivity].
    apply Qeq_bool_iff in E. contradiction. }
  assert (T2 : negb (Qeq_bool e2 0) = true).
  { apply negb_true_iff. destruct (Qeq_bool e2 0) eqn:E; [| reflexivity].
    apply Qeq_bool_iff in E. contradiction. }
  rewrite T1, T2.
  destruct (compile_ensemble d (is_None pos || is_None neg) jm pos neg) as [tc |];
    [| discriminate].
  cbn [bind].
  destruct (p_constraints (build_pdict (node_list tc)) g) as [[pd cs] g'].
  intros E1 E2. inversion E1; subst a1. inversion E2; subst a2. cbn.
  eexists (mk_Model _ _ None _ _ _ _). unfold with_B_bounds. cbn.
  repeat split; reflexivity.
Qed.

(** ** Where the recorded occurrences come from *)

Lemma in_list_update {A : Type} (l : list A) (j : nat) (f : A -> A) (x : A) :
  In x (list_update l j f) ->
  In x l \/ exists y, nth_error l j = Some y /\ x = f y.
Proof.
  revert j. induction l as [| a l IH]; intros [| j] H; simpl in *; try tauto.
  - destruct H as [H | H]; [right; exists a; auto | auto].
  - destruct H as [H | H]; [auto |].
    destruct (IH j H) as [H' | H']; auto.
Qed.

Lemma record_items_from (st : compiler) (o : occurrence) (occs0 : list occurrence) :
  compiler_inv st -> canonical (snd (occ_key o)) ->
  items_from st occs0 -> items_from (record_occurrence st o) (occs0 ++ [o]).
Proof.
  intros [Hnc [Hnd Hc]] Hk Hfrom node item Hnode Hitem.
  unfold record_occurrence in Hnode. rewrite Hnc in Hnode.
  rewrite <- (length_map node_key (node_list st)) in Hnode.
  destruct (dict_get _ (occ_key o)) as [j |] eqn:Eg; cbn [node_list] in Hnode.
  - apply dict_get_combine_Some in Eg; auto. destruct Eg as [_ Hn].
    rewrite Nat.sub_0_r, nth_error_map in Hn.
    apply in_list_update in Hnode. destruct Hnode as [Hnode | [y [Hy ->]]].
    + destruct (Hfrom node item Hnode Hitem) as [o' [Ho' He]].
      exists o'. split; [apply in_or_app; now left | exact He].
    + rewrite Hy in Hn. simpl in Hn. injection Hn as Hkey.
      simpl in Hitem. apply in_app_or in Hitem. destruct Hitem as [Hitem | [<- | []]].
      * destruct (Hfrom y item (nth_error_In _ _ Hy) Hitem) as [o' [Ho' He]].
        exists o'. split; [apply in_or_app; now left | exact He].
      * exists o. split; [apply in_or_app; right; now left |].
        rewrite add_leaves_key. split; [now symmetry | now destruct (occ_item o)].
  - apply in_app_or in Hnode. destruct Hnode as [Hnode | [<- | []]].
    + destruct (Hfrom node item Hnode Hitem) as [o' [Ho' He]].
      exists o'. split; [apply in_or_app; now left | exact He].
    + simpl in Hitem. destruct Hitem as [<- | []].
      exists o. split; [apply in_or_app; right; now left |].
      unfold node_key. simpl. split; [now destruct (occ_key o) | now destruct (occ_item o)].
Qed.

Lemma fold_items_from (occs : list occurrence) (st : compiler)
    (occs0 : list occurrence) :
  compiler_inv st ->
  Forall (fun o => canonical (snd (occ_key o))) occs ->
  items_from st occs0 ->
  items_from (fold_left record_occurrence occs st) (occs0 ++ occs).
Proof.
  revert st occs0. induction occs as [| o occs IH]; intros st occs0 Hinv Hcan Hfrom.
  - simpl. now rewrite app_nil_r.
  - inversion Hcan as [| ? ? Hk Hcan']; subst. simpl.
    replace (occs0 ++ o :: occs) with ((occs0 ++ [o]) ++ occs)
      by now rewrite <- app_assoc.
    apply IH; [now apply record_inv | exact Hcan' | now apply record_items_from].
Qed.

Lemma items_from_congr (st st' : compiler) (occs : list occurrence) :
  node_list st = node_list st' -> items_from st occs -> items_from st' occs.
Proof. unfold items_from. intros <-. auto. Qed.

Lemma init_items_from (jm : option (list json_tree)) (eps : option Q)
    (ord : norm_order) (g : Q) (d : Z) (pos neg : option (list json_tree))
    (thr : Q) (vb : bool) (nt : nat) (self : KantchelianAttack) :
  KantchelianAttack_init jm eps ord g d pos neg thr vb nt = Ok self ->
  items_from (compiled self) (forest_occurrences d (enumerate 0 (ensemble self)) 0).
Proof.
  intros Hinit.
  destruct (init_compiled _ _ _ _ _ _ _ _ _ _ _ Hinit) as [_ [Hnl _]].
  eapply items_from_congr; [symmetry; exact Hnl |].
  apply (fold_items_from _ compiler_init []).
  - exact compiler_init_inv.
  - apply forest_occurrences_canonical.
  - intros node item [].
Qed.

(** *** The leaf indices of an occurrence *)

Lemma occurrences_ranges (d : Z) (t : json_tree) :
  forall (treeid : nat) (root : bool) (s : nat) (o : occurrence),
    In o (occurrences d t treeid root s) ->
    adjacent_ranges (occ_item o) (s + n_leaves t).
Proof.
  induction t as [n0 v | n0 a th yes no c0 IH0 c1 IH1]; intros treeid root s o;
    cbn [occurrences n_leaves]; [intros [] |].
  assert (IH : forall id root s o,
             In o (occurrences d (linked_child id c0 c1) treeid root s) ->
             adjacent_ranges (occ_item o) (s + n_leaves (linked_child id c0 c1))).
  { intros id root' s' o' H.
    destruct (linked_child_cases id c0 c1) as [E | E]; rewrite E in *; eauto. }
  rewrite !in_app_iff. intros [H | [H | [H | []]]].
  - apply IH in H. destruct H as [s' [nl [nr [H1 [H2 [H3 [H4 H5]]]]]]].
    exists s', nl, nr. repeat split; auto. lia.
  - apply IH in H. destruct H as [s' [nl [nr [H1 [H2 [H3 [H4 H5]]]]]]].
    exists s', nl, nr. repeat split; auto. lia.
  - subst o. simpl.
    exists s, (n_leaves (linked_child yes c0 c1)), (n_leaves (linked_child no c0 c1)).
    repeat split; auto using n_leaves_pos. lia.
Qed.

Lemma forest_occurrences_ranges (d : Z) (neg : bool) (its : list (nat * json_tree))
    (s : nat) (o : occurrence) :
  In o (forest_occurrences d its s) ->
  adjacent_ranges (occ_item o) (s + length (forest_leaves neg its)).
Proof.
  revert s. induction its as [| it its IH]; intros s H; [contradiction |].
  cbn [forest_occurrences] in H. unfold forest_leaves. cbn [flat_map].
  rewrite length_app, tree_leaves_length.
  apply in_app_or in H. destruct H as [H | H].
  - apply occurrences_ranges in H. destruct H as [s' [nl [nr [H1 [H2 [H3 [H4 H5]]]]]]].
    exists s', nl, nr. repeat split; auto. lia.
  - apply IH in H. destruct H as [s' [nl [nr [H1 [H2 [H3 [H4 H5]]]]]]].
    exists s', nl, nr. repeat split; auto. unfold forest_leaves in H5. lia.
Qed.

(** ** The leaf bookkeeping of the compiler (lines 114-128 and 175-193) *)

Lemma forest_leaves_length_neg (neg neg' : bool) (its : list (nat * json_tree)) :
  length (forest_leaves neg its) = length (forest_leaves neg' its).
Proof. now rewrite !forest_leaves_length. Qed.

Lemma forest_leaf_pos_length (neg : bool) (its : list (nat * json_tree)) :
  length (forest_leaf_pos its) = length (forest_leaves neg its).
Proof.
  induction its as [| it its IH]; [reflexivity |].
  unfold forest_leaf_pos, forest_leaves in *. cbn [flat_map].
  now rewrite !length_app, tree_leaf_pos_length, tree_leaves_length, IH.
Qed.

Lemma forest_leaves_app (neg : bool) (a b : list (nat * json_tree)) :
  forest_leaves neg (a ++ b) = forest_leaves neg a ++ forest_leaves neg b.
Proof. unfold forest_leaves. apply flat_map_app. Qed.

Lemma forest_leaf_pos_app (a b : list (nat * json_tree)) :
  forest_leaf_pos (a ++ b) = forest_leaf_pos a ++ forest_leaf_pos b.
Proof. unfold forest_leaf_pos. apply flat_map_app. Qed.

Lemma after_forest_leaf_pos (d : Z) (neg : bool) (its : list (nat * json_tree))
    (st : compiler) :
  leaf_pos_list (after_forest d neg its st) = leaf_pos_list st ++ forest_leaf_pos its.
Proof.
  unfold after_forest, push_counts, with_leaves. cbn.
  now destruct (fold_record_leaf_fields
                  (forest_occurrences d its (length (leaf_v_list st))) st)
    as [_ [-> _]].
Qed.

Lemma init_leaf_values (jm : option (list json_tree)) (eps : option Q)
    (ord : norm_order) (g : Q) (d : Z) (pos neg : option (list json_tree))
    (thr : Q) (vb : bool) (nt : nat) (self : KantchelianAttack) :
  KantchelianAttack_init jm eps ord g d pos neg thr vb nt = Ok self ->
  leaf_v_list (compiled self) = ensemble_leaf_values self /\
  leaf_pos_list (compiled self) = forest_leaf_pos (enumerate 0 (ensemble self)).
Proof.
  intros Hinit.
  destruct (init_unfold _ _ _ _ _ _ _ _ _ _ _ Hinit)
    as [Hc [Hb [Hjm [Hpos [Hneg _]]]]].
  unfold ensemble_leaf_values, ensemble. rewrite Hb, Hjm, Hpos, Hneg.
  unfold compile_ensemble in Hc.
  destruct (is_None pos || is_None neg) eqn:Ebin.
  - destruct jm as [trees |]; [| discriminate].
    bind_inv Hc. rewrite compile_forest_spec in Hr.
    destruct (forallb _ _); [| discriminate].
    inversion Hr; subst r. clear Hr.
    unfold leaf_count_check in Hc.
    destruct (_ =? _)%nat; [| discriminate]. inversion Hc as [Hc'].
    now rewrite after_forest_leaf_v, after_forest_leaf_pos.
  - destruct pos as [ptrees |]; [| discriminate].
    destruct neg as [ntrees |]; [| discriminate].
    bind_inv Hc. bind_inv Hc.
    rewrite compile_forest_spec in Hr.
    destruct (forallb _ _); [| discriminate].
    inversion Hr; subst r. clear Hr.
    rewrite compile_forest_spec in Hr0.
    destruct (forallb _ _); [| discriminate].
    inversion Hr0; subst r0. clear Hr0.
    unfold leaf_count_check in Hc.
    destruct (_ =? _)%nat; [| discriminate]. inversion Hc as [Hc'].
    rewrite !after_forest_leaf_v, !after_forest_leaf_pos.
    rewrite enumerate_app, forest_leaf_pos_app. cbn. auto.
Qed.

Lemma ensemble_leaf_values_length (jm : option (list json_tree)) (eps : option Q)
    (ord : norm_order) (g : Q) (d : Z) (pos neg : option (list json_tree))
    (thr : Q) (vb : bool) (nt : nat) (self : KantchelianAttack) :
  KantchelianAttack_init jm eps ord g d pos neg thr vb nt = Ok self ->
  length (leaf_v_list (compiled self))
    = length (forest_leaves false (enumerate 0 (ensemble self))).
Proof.
  intros Hinit.
  destruct (init_leaf_values _ _ _ _ _ _ _ _ _ _ _ Hinit) as [_ Hp].
  destruct (init_unfold _ _ _ _ _ _ _ _ _ _ _ Hinit) as [Hc _].
  rewrite <- (forest_leaf_pos_length false), <- Hp.
  (* both lists grow together in the compiler *)
  clear Hp. unfold compile_ensemble in Hc.
  destruct (is_None pos || is_None neg).
  - destruct jm as [trees |]; [| discriminate].
    bind_inv Hc. rewrite compile_forest_spec in Hr.
    destruct (forallb _ _); [| discriminate].
    inversion Hr; subst r. clear Hr.
    unfold leaf_count_check in Hc.
    destruct (_ =? _)%nat; [| discriminate]. inversion Hc as [Hc'].
    rewrite after_forest_leaf_v, after_forest_leaf_pos. cbn.
    symmetry. apply forest_leaf_pos_length.
  - destruct pos as [ptrees |]; [| discriminate].
    destruct neg as [ntrees |]; [| discriminate].
    bind_inv Hc. bind_inv Hc.
    rewrite compile_forest_spec in Hr.
    destruct (forallb _ _); [| discriminate].
    inversion Hr; subst r. clear Hr.
    rewrite compile_forest_spec in Hr0.
    destruct (forallb _ _); [| discriminate].
    inversion Hr0; subst r0. clear Hr0.
    unfold leaf_count_check in Hc.
    destruct (_ =? _)%nat; [| discriminate]. inversion Hc as [Hc'].
    rewrite !after_forest_leaf_v, !after_forest_leaf_pos. cbn.
    rewrite !length_app, (forest_leaf_pos_length false), (forest_leaf_pos_length true).
    reflexivity.
Qed.

Lemma leaf_sum_constraints_in (its : list (nat * json_tree)) :
  forall (i0 s i : nat) (it : nat * json_tree),
    nth_error its i = Some it ->
    exists a,
      nth_error (s :: running_counts s its) i = Some a /\
      nth_error (s :: running_counts s its) (S i) = Some (a + n_leaves (snd it))%nat /\
      In (leaf_sum_one_for_tree (i0 + i),
          mk_TempConstr
            (LinExpr_of (repeat 1 (n_leaves (snd it)))
               (map L (seq a (n_leaves (snd it)))))
            EQUAL (expr_const 1))
         (leaf_sum_constraints i0 (s :: running_counts s its)).
Proof.
  induction its as [| it' its IH]; intros i0 s i it Hn.
  - destruct i; discriminate.
  - destruct i as [| i]; simpl in Hn.
    + inversion Hn; subst it'. exists s. split; [reflexivity |].
      split; [reflexivity |].
      cbn [running_counts leaf_sum_constraints]. left.
      rewrite Nat.add_0_r.
      replace (s + n_leaves (snd it) - s)%nat with (n_leaves (snd it)) by lia.
      reflexivity.
    + destruct (IH (S i0) (s + n_leaves (snd it'))%nat i it Hn) as [a [H1 [H2 H3]]].
      exists a. split; [exact H1 |]. split; [exact H2 |].
      cbn [running_counts leaf_sum_constraints]. right.
      replace (i0 + S i)%nat with (S i0 + i)%nat by lia. exact H3.
Qed.

Lemma last_running_counts (neg : bool) (its : list (nat * json_tree)) (s : nat) :
  last (s :: running_counts s its) 0%nat = (s + length (forest_leaves neg its))%nat.
Proof.
  revert s. induction its as [| it its IH]; intros s.
  - simpl. lia.
  - cbn [running_counts]. 
    change (last (s :: (s + n_leaves (snd it))%nat
                  :: running_counts (s + n_leaves (snd it)) its) 0%nat)
      with (last ((s + n_leaves (snd it))%nat
                  :: running_counts (s + n_leaves (snd it)) its) 0%nat).
    rewrite IH. unfold forest_leaves. cbn [flat_map].
    rewrite length_app, tree_leaves_length. lia.
Qed.

Lemma enumerate_nth {A : Type} (l : list A) (s i : nat) (x : A) :
  nth_error l i = Some x -> nth_error (enumerate s l) i = Some ((s + i)%nat, x).
Proof.
  unfold enumerate. revert s i. induction l as [| a l IH]; intros s [| i] H;
    simpl in *; try discriminate.
  - inversion H. now rewrite Nat.add_0_r.
  - rewrite (IH (S s) i H). f_equal. f_equal. lia.
Qed.

(** X2 (leaf bookkeeping). After construction [leaf_v_list] holds the leaf
    values of the trees in traversal order (negated for the negative
    ensemble), [leaf_pos_list] runs parallel to it, [leaf_count] has one more
    element than there are trees and ends with the number of leaves, and
    tree [i] owns the contiguous indices from [leaf_count[i]] to
    [leaf_count[i+1]], on which the model carries the constraint
    "leaf_sum_one_for_tree i". *)
Theorem leaf_bookkeeping (jm : option (list json_tree)) (eps : option Q)
    (ord : norm_order) (g : Q) (d : Z) (pos neg : option (list json_tree))
    (thr : Q) (vb : bool) (nt : nat) (self : KantchelianAttack) :
  KantchelianAttack_init jm eps ord g d pos neg thr vb nt = Ok self ->
  leaf_v_list (compiled self) = ensemble_leaf_values self /\
  length (leaf_pos_list (compiled self)) = length (leaf_v_list (compiled self)) /\
  length (leaf_count (compiled self)) = S (length (ensemble self)) /\
  last (leaf_count (compiled self)) 0%nat = length (leaf_v_list (compiled self)) /\
  n_L (m self) = length (leaf_v_list (compiled self)) /\
  forall i t,
    nth_error (ensemble self) i = Some t ->
    exists a,
      nth_error (leaf_count (compiled self)) i = Some a /\
      nth_error (leaf_count (compiled self)) (S i) = Some (a + n_leaves t)%nat /\
      In (leaf_sum_one_for_tree i,
          mk_TempConstr (LinExpr_of (repeat 1 (n_leaves t)) (map L (seq a (n_leaves t))))
            EQUAL (expr_const 1))
         (constrs (m self)).
Proof.
  intros Hinit.
  destruct (init_leaf_values _ _ _ _ _ _ _ _ _ _ _ Hinit) as [Hv Hp].
  pose proof (ensemble_leaf_values_length _ _ _ _ _ _ _ _ _ _ _ Hinit) as Hlen.
  destruct (init_compiled _ _ _ _ _ _ _ _ _ _ _ Hinit) as [_ [_ [_ [Hcount _]]]].
  destruct (init_unfold _ _ _ _ _ _ _ _ _ _ _ Hinit)
    as [_ [_ [_ [_ [_ [_ [_ [_ [_ HnL]]]]]]]]].
  split; [exact Hv |]. split.
  { rewrite Hp, Hlen. apply forest_leaf_pos_length. }
  split.
  { rewrite Hcount. simpl. now rewrite running_counts_length, enumerate_length. }
  split.
  { rewrite Hcount, (last_running_counts false), Hlen. reflexivity. }
  split; [exact HnL |].
  intros i t Hn.
  pose proof (enumerate_nth (ensemble self) 0 i t Hn) as Hit. simpl in Hit.
  destruct (leaf_sum_constraints_in _ 0 0 i (i, t) Hit) as [a [H1 [H2 H3]]].
  exists a. rewrite Hcount. split; [exact H1 |]. split; [exact H2 |].
  rewrite (init_constrs _ _ _ _ _ _ _ _ _ _ _ Hinit), Hcount.
  apply in_or_app. right. apply in_or_app. left. exact H3.
Qed.

Lemma leaf_bookkeeping_witness :
  exists self,
    KantchelianAttack_init (Some [two_level; stump]) None inf GUARD_VAL ROUND_DIGITS
      None None 0 false 1 = Ok self /\
    leaf_v_list (compiled self) = ensemble_leaf_values self /\
    length (leaf_count (compiled self)) = S (length (ensemble self)).
Proof.
  destruct (KantchelianAttack_init (Some [two_level; stump]) None inf GUARD_VAL
              ROUND_DIGITS None None 0 false 1) as [self | e] eqn:E;
    [| vm_compute in E; discriminate E].
  exists self. split; [reflexivity |].
  destruct (leaf_bookkeeping _ _ _ _ _ _ _ _ _ _ self E) as [H1 [_ [H3 _]]].
  split; assumption.
Defined.

(** ** How the constructor ends *)

Lemma leaf_count_check_after_forest (d : Z) (neg : bool) (trees : list json_tree)
    (s : nat) (st : compiler) (n : nat) :
  length (leaf_count st) = S n ->
  leaf_count_check (n + length trees) (after_forest d neg (enumerate s trees) st)
    = Ok (after_forest d neg (enumerate s trees) st).
Proof.
  intros Hlen. unfold leaf_count_check.
  destruct (after_forest_fields d neg (enumerate s trees) st) as [_ [_ ->]].
  rewrite length_app, running_counts_length, enumerate_length, Hlen.
  replace (n + length trees + 1)%nat with (S n + length trees)%nat by lia.
  now rewrite Nat.eqb_refl.
Qed.

Lemma compile_ensemble_outcome (d : Z) (jm pos neg : option (list json_tree)) :
  match pos, neg with
  | Some ptrees, Some ntrees =>
      if forallb links_resolve (ptrees ++ ntrees)
      then exists tc, compile_ensemble d false jm pos neg = Ok tc
      else compile_ensemble d false jm pos neg = Raise missing_child
  | _, _ =>
      match jm with
      | None => compile_ensemble d true jm pos neg = Raise TypeError
      | Some trees =>
          if forallb links_resolve trees
          then exists tc, compile_ensemble d true jm pos neg = Ok tc
          else compile_ensemble d true jm pos neg = Raise missing_child
      end
  end.
Proof.
  assert (Hbin : forall p n, match jm with
      | None => compile_ensemble d true jm p n = Raise TypeError
      | Some trees =>
          if forallb links_resolve trees
          then exists tc, compile_ensemble d true jm p n = Ok tc
          else compile_ensemble d true jm p n = Raise missing_child
      end).
  { intros p n. unfold compile_ensemble. destruct jm as [trees |]; [| reflexivity].
    rewrite compile_forest_spec, forallb_enumerate.
    destruct (forallb links_resolve trees); [| reflexivity].
    cbn [bind].
    pose proof (leaf_count_check_after_forest d false trees 0 compiler_init 0 eq_refl)
      as E.
    cbn [Nat.add] in E. rewrite E. eexists; reflexivity. }
  destruct pos as [ptrees |]; [| apply Hbin].
  destruct neg as [ntrees |]; [| apply Hbin].
  unfold compile_ensemble.
  rewrite compile_forest_spec, forallb_enumerate, forallb_app.
  destruct (forallb links_resolve ptrees); [| reflexivity].
  cbn [bind andb].
  rewrite compile_forest_spec, forallb_enumerate.
  destruct (forallb links_resolve ntrees); [| reflexivity].
  cbn [bind].
  rewrite (leaf_count_check_after_forest d true ntrees (length ptrees) _ (length ptrees)).
  - eexists; reflexivity.
  - destruct (after_forest_fields d false (enumerate 0 ptrees) compiler_init)
      as [_ [_ ->]].
    cbn. now rewrite running_counts_length, enumerate_length.
Qed.

(** X3 (constructor outcome). The constructor raises the assertion error when
    an [epsilon] comes with a finite order, [TypeError] when it has no trees
    to enumerate, the "one child is missing" [ValueError] exactly when some
    link followed from a root does not resolve, and otherwise returns; the
    "leaf count error" is never raised. *)
Theorem init_outcome (jm : option (list json_tree)) (eps : option Q)
    (ord : norm_order) (g : Q) (d : Z) (pos neg : option (list json_tree))
    (thr : Q) (vb : bool) (nt : nat) :
  match init_exception jm eps ord pos neg with
  | Some e => KantchelianAttack_init jm eps ord g d pos neg thr vb nt = Raise e
  | None => exists self, KantchelianAttack_init jm eps ord g d pos neg thr vb nt = Ok self
  end.
Proof.
  unfold init_exception, KantchelianAttack_init.
  destruct (negb (is_None eps || is_inf ord)); [reflexivity |].
  pose proof (compile_ensemble_outcome d jm pos neg) as H.
  assert (Hfin : forall b tc,
            compile_ensemble d b jm pos neg = Ok tc ->
            exists self,
              (tc0 <- compile_ensemble d b jm pos neg ;;
               (let b0 :=
                  if truthy eps
                  then match eps with
                       | Some e => Some (0, Some (e - (1 # 10000)))
                       | None => None
                       end
                  else if is_inf ord then Some (0, None) else None in
                let '(pd, p_cs, guard) := p_constraints (build_pdict (node_list tc0)) g in
                let cs := p_cs ++ leaf_sum_constraints 0 (leaf_count tc0)
                               ++ node_leaves_constraints (node_list tc0) in
                Ok (mk_KantchelianAttack thr eps b pos neg guard d jm ord vb nt tc0
                      (mk_Model (length (node_list tc0)) (length (leaf_v_list tc0)) b0 cs
                         (expr_const 0) LOADED (fun _ => 0)) pd))) = Ok self).
  { intros b tc ->. cbn [bind].
    destruct (p_constraints (build_pdict (node_list tc)) g) as [[pd cs] g'].
    eexists; reflexivity. }
  destruct pos as [ptrees |], neg as [ntrees |]; cbn [is_None orb] in *.
  - destruct (forallb links_resolve (ptrees ++ ntrees)).
    + destruct H as [tc H]. exact (Hfin false tc H).
    + now rewrite H.
  - destruct jm as [trees |]; [| now rewrite H].
    destruct (forallb links_resolve trees);
      [destruct H as [tc H]; exact (Hfin true tc H) | now rewrite H].
  - destruct jm as [trees |]; [| now rewrite H].
    destruct (forallb links_resolve trees);
      [destruct H as [tc H]; exact (Hfin true tc H) | now rewrite H].
  - destruct jm as [trees |]; [| now rewrite H].
    destruct (forallb links_resolve trees);
      [destruct H as [tc H]; exact (Hfin true tc H) | now rewrite H].
Qed.

(** ** Every entry stems from the ensemble *)

(** X4 (entries and their leaf ranges). Every entry of [node_list] carries
    the rounded (feature, threshold) pair of some split of some tree, and in
    each of its occurrences the leaves of the two sides are two adjacent,
    non-empty ranges of indices of [leaf_v_list]. *)
Theorem entries_stem_from_ensemble (jm : option (list json_tree)) (eps : option Q)
    (ord : norm_order) (g : Q) (d : Z) (pos neg : option (list json_tree))
    (thr : Q) (vb : bool) (nt : nat) (self : KantchelianAttack)
    (node : node_wrapper) :
  KantchelianAttack_init jm eps ord g d pos neg thr vb nt = Ok self ->
  In node (node_list (compiled self)) ->
  (exists i t n, nth_error (ensemble self) i = Some t /\
                 In (n, node_key node) (tree_splits d t)) /\
  (forall item, In item (leaves_lists node) ->
                adjacent_ranges item (length (leaf_v_list (compiled self)))).
Proof.
  intros Hinit Hnode. split.
  - destruct (init_recorded _ _ _ _ _ _ _ _ _ _ _ Hinit) as [_ [_ Hkeys]].
    assert (Hk : In (node_key node) (map node_key (node_list (compiled self))))
      by now apply in_map.
    apply Hkeys, in_map_iff in Hk. destruct Hk as [o [Hko Ho]].
    apply forest_occurrences_in in Ho. destruct Ho as [i [t [Hn [_ Hin]]]].
    exists i, t, (snd (occ_pos o)). rewrite <- Hko. auto.
  - intros item Hitem.
    destruct (init_items_from _ _ _ _ _ _ _ _ _ _ _ Hinit node item Hnode Hitem)
      as [o [Ho [_ <-]]].
    rewrite (ensemble_leaf_values_length _ _ _ _ _ _ _ _ _ _ _ Hinit).
    exact (forest_occurrences_ranges d false _ 0 o Ho).
Qed.

Lemma entries_stem_from_ensemble_witness :
  exists self,
    KantchelianAttack_init (Some [two_level; stump]) None inf GUARD_VAL ROUND_DIGITS
      None None 0 false 1 = Ok self /\
    forall node, In node (node_list (compiled self)) ->
      forall item, In item (leaves_lists node) ->
        adjacent_ranges item (length (leaf_v_list (compiled self))).
Proof.
  destruct (KantchelianAttack_init (Some [two_level; stump]) None inf GUARD_VAL
              ROUND_DIGITS None None 0 false 1) as [self | e] eqn:E;
    [| vm_compute in E; discriminate E].
  exists self. split; [reflexivity |].
  intros node Hnode.
  exact (proj2 (entries_stem_from_ensemble _ _ _ _ _ _ _ _ _ _ self node E Hnode)).
Defined.

(** ** [add_grb_var] on the compiled entries *)

Lemma mapM_getitem_L (n : nat) (idxs : list nat) :
  Forall (fun i => (i < n)%nat) idxs ->
  mapM (list_getitem (map L (seq 0 n))) idxs = Ok (map L idxs).
Proof.
  induction 1 as [| i idxs Hi _ IH]; [reflexivity |].
  cbn [mapM map]. unfold list_getitem at 1.
  rewrite nth_error_map, nth_error_seq.
  apply Nat.ltb_lt in Hi. rewrite Hi. cbn. now rewrite IH.
Qed.

Lemma adjacent_ranges_bound (item : leaves_item) (bound : nat) :
  adjacent_ranges item bound ->
  Forall (fun i => (i < bound)%nat) (left_leaves item) /\
  Forall (fun i => (i < bound)%nat) (right_leaves item).
Proof.
  intros [s [nl [nr [-> [-> [_ [_ Hb]]]]]]].
  split; apply Forall_forall; intros i Hi; apply in_seq in Hi; lia.
Qed.

(** X5 ([add_grb_var]). On an entry of a built attacker, with the attacker's
    own leaf variables, [add_grb_var] raises no [IndexError]: it pairs the
    split variable with, per occurrence, the variables of the recorded leaf
    indices on each side and the root mark. *)
Theorem add_grb_var_total (jm : option (list json_tree)) (eps : option Q)
    (ord : norm_order) (g : Q) (d : Z) (pos neg : option (list json_tree))
    (thr : Q) (vb : bool) (nt : nat) (self : KantchelianAttack)
    (j : nat) (node : node_wrapper) :
  KantchelianAttack_init jm eps ord g d pos neg thr vb nt = Ok self ->
  nth_error (node_list (compiled self)) j = Some node ->
  add_grb_var node (P j) (llist self)
    = Ok (P j,
          map (fun item => (map L (left_leaves item), map L (right_leaves item),
                            is_root item))
            (leaves_lists node)).
Proof.
  intros Hinit Hj.
  assert (Hnode : In node (node_list (compiled self))) by (eapply nth_error_In; eauto).
  pose proof (fun item Hitem =>
    init_items_from _ _ _ _ _ _ _ _ _ _ _ Hinit node item Hnode Hitem) as Hfrom.
  destruct (init_unfold _ _ _ _ _ _ _ _ _ _ _ Hinit)
    as [_ [_ [_ [_ [_ [_ [_ [_ [_ HnL]]]]]]]]].
  unfold add_grb_var, llist. rewrite HnL.
  assert (Hitems : forall items,
            (forall item, In item items -> In item (leaves_lists node)) ->
            mapM (fun item =>
                    left_leaf_grb_var <-
                      mapM (list_getitem (map L (seq 0 (length (leaf_v_list (compiled self))))))
                        (left_leaves item) ;;
                    right_leaf_grb_var <-
                      mapM (list_getitem (map L (seq 0 (length (leaf_v_list (compiled self))))))
                        (right_leaves item) ;;
                    Ok (left_leaf_grb_var, right_leaf_grb_var, is_root item)) items
            = Ok (map (fun item => (map L (left_leaves item), map L (right_leaves item),
                                    is_root item)) items)).
  { induction items as [| item items IH]; intros Hsub; [reflexivity |].
    cbn [mapM map].
    destruct (Hfrom item (Hsub item (or_introl eq_refl))) as [o [Ho [_ Ho']]].
    pose proof (forest_occurrences_ranges d false _ 0 o Ho) as Hr.
    rewrite Ho' in Hr.
    rewrite <- (ensemble_leaf_values_length _ _ _ _ _ _ _ _ _ _ _ Hinit) in Hr.
    cbn [Nat.add] in Hr.
    destruct (adjacent_ranges_bound _ _ Hr) as [Hl Hrr].
    rewrite (mapM_getitem_L _ _ Hl), (mapM_getitem_L _ _ Hrr). cbn [bind].
    rewrite IH; [reflexivity |]. intros; apply Hsub; now right. }
  rewrite Hitems by auto. reflexivity.
Qed.

Lemma add_grb_var_total_witness :
  exists self,
    KantchelianAttack_init (Some [stump]) None inf GUARD_VAL ROUND_DIGITS
      None None 0 false 1 = Ok self /\
    add_grb_var (mk_node_wrapper 0 5 [(0%nat, 0%nat)]
                   [mk_leaves_item [0%nat] [1%nat] true]) (P 0) (llist self)
      = Ok (P 0, [([L 0], [L 1], true)]).
Proof.
  destruct (KantchelianAttack_init (Some [stump]) None inf GUARD_VAL
              ROUND_DIGITS None None 0 false 1) as [self | e] eqn:E;
    [| vm_compute in E; discriminate E].
  exists self. split; [reflexivity |].
  refine (add_grb_var_total _ _ _ _ _ _ _ _ _ _ self 0%nat _ E _).
  vm_compute in E. injection E as <-. reflexivity.
Defined.

(** ** The split ordering groups (lines 219-241) *)

Lemma pdict_add_keys (pd : pdict_t) (a : nat) (e : Q * var) :
  map fst (pdict_add pd a e) =
    if in_dec Nat.eq_dec a (map fst pd) then map fst pd else map fst pd ++ [a].
Proof.
  induction pd as [| [k l] pd IH]; simpl; [reflexivity |].
  destruct (Nat.eqb_spec k a) as [-> | Hne]; simpl.
  - destruct (Nat.eq_dec a a); [reflexivity | congruence].
  - rewrite IH. destruct (Nat.eq_dec k a) as [-> | Hka]; [congruence |].
    destruct (in_dec Nat.eq_dec a (map fst pd)); reflexivity.
Qed.

Lemma pdict_add_NoDup (pd : pdict_t) (a : nat) (e : Q * var) :
  NoDup (map fst pd) -> NoDup (map fst (pdict_add pd a e)).
Proof.
  intros H. rewrite pdict_add_keys.
  destruct (in_dec Nat.eq_dec a (map fst pd)) as [Hin | Hnot]; [exact H |].
  apply NoDup_app; [exact H | repeat constructor; intros [] |].
  intros k Hk [E | []]. subst k. contradiction.
Qed.

Lemma lookup_pdict_add (pd : pdict_t) (a : nat) (e : Q * var) (k : nat) :
  lookup_pdict (pdict_add pd a e) k =
    if (k =? a)%nat then lookup_pdict pd a ++ [e] else lookup_pdict pd k.
Proof.
  unfold lookup_pdict.
  induction pd as [| [k' l'] pd IH]; simpl.
  - destruct (Nat.eqb_spec a k) as [-> | Hne].
    + now rewrite Nat.eqb_refl.
    + destruct (Nat.eqb_spec k a); [congruence | reflexivity].
  - destruct (Nat.eqb_spec k' a) as [-> | Hne]; simpl.
    + destruct (Nat.eqb_spec a k) as [-> | Hak].
      * now rewrite !Nat.eqb_refl.
      * destruct (Nat.eqb_spec k a); [congruence |]. reflexivity.
    + destruct (Nat.eqb_spec k' k) as [-> | Hkk].
      * destruct (Nat.eqb_spec k a); [congruence | reflexivity].
      * exact IH.
Qed.

Lemma lookup_pdict_in (pd : pdict_t) (k : nat) (l : list (Q * var)) :
  NoDup (map fst pd) -> In (k, l) pd -> lookup_pdict pd k = l.
Proof.
  unfold lookup_pdict. induction pd as [| [k' l'] pd IH]; intros Hnd Hin;
    [contradiction |].
  simpl in *. inversion Hnd as [| ? ? Hnot Hnd']; subst.
  destruct Hin as [Hin | Hin].
  - inversion Hin; subst. now rewrite Nat.eqb_refl.
  - destruct (Nat.eqb_spec k' k) as [-> | Hne]; [| now apply IH].
    exfalso. apply Hnot. change k with (fst (k, l)). now apply in_map.
Qed.

Lemma build_pdict_fold (its : list (nat * node_wrapper)) (pd : pdict_t) (a : nat) :
  NoDup (map fst pd) ->
  let pd' := fold_left (fun pd it => pdict_add pd (attribute (snd it))
                                       (threshold (snd it), P (fst it))) its pd in
  NoDup (map fst pd') /\
  lookup_pdict pd' a =
    lookup_pdict pd a ++
    map (fun jn => (threshold (snd jn), P (fst jn)))
      (filter (fun jn => (attribute (snd jn) =? a)%nat) its).
Proof.
  revert pd. induction its as [| it its IH]; intros pd Hnd; cbn [fold_left filter map].
  - now rewrite app_nil_r.
  - destruct (IH (pdict_add pd (attribute (snd it)) (threshold (snd it), P (fst it)))
                (pdict_add_NoDup _ _ _ Hnd)) as [H1 H2].
    split; [exact H1 |]. cbv zeta in H2. rewrite H2, lookup_pdict_add.
    rewrite (Nat.eqb_sym a).
    destruct (attribute (snd it) =? a)%nat eqn:E.
    + apply Nat.eqb_eq in E. rewrite E. cbn [map]. now rewrite <- app_assoc.
    + reflexivity.
Qed.

Lemma build_pdict_spec (nodes : list node_wrapper) :
  NoDup (map fst (build_pdict nodes)) /\
  forall k l, In (k, l) (build_pdict nodes) -> l = entries_of k 0 nodes.
Proof.
  destruct (build_pdict_fold (enumerate 0 nodes) [] 0 (NoDup_nil _)) as [Hnd _].
  split; [exact Hnd |].
  intros k l Hin.
  destruct (build_pdict_fold (enumerate 0 nodes) [] k (NoDup_nil _)) as [_ H].
  cbv zeta in H. unfold build_pdict in Hin.
  rewrite (lookup_pdict_in _ _ _ Hnd Hin) in H. exact H.
Qed.

Lemma build_pdict_has (nodes : list node_wrapper) (j : nat) (node : node_wrapper) :
  nth_error nodes j = Some node ->
  In (attribute node, entries_of (attribute node) 0 nodes) (build_pdict nodes) /\
  In (threshold node, P j) (entries_of (attribute node) 0 nodes).
Proof.
  intros Hj.
  assert (Hin : In (threshold node, P j) (entries_of (attribute node) 0 nodes)).
  { unfold entries_of. apply in_map_iff. exists (j, node). split; [reflexivity |].
    apply filter_In. split; [apply (in_enumerate nodes 0 j node Hj) |].
    simpl. apply Nat.eqb_refl. }
  split; [| exact Hin].
  destruct (build_pdict_fold (enumerate 0 nodes) [] (attribute node) (NoDup_nil _))
    as [Hnd H].
  cbv zeta in H. fold (build_pdict nodes) in H, Hnd.
  change (lookup_pdict [] (attribute node)) with (@nil (Q * var)) in H.
  cbn [app] in H. fold (entries_of (attribute node) 0 nodes) in H.
  unfold lookup_pdict in H.
  destruct (find (fun e => (fst e =? attribute node)%nat) (build_pdict nodes))
    as [[k l] |] eqn:Ef.
  - apply find_some in Ef. destruct Ef as [Hin' Hk]. simpl in Hk, H.
    apply Nat.eqb_eq in Hk. subst. exact Hin'.
  - rewrite <- H in Hin. contradiction.
Qed.

Lemma entries_of_in (a s : nat) (nodes : list node_wrapper) (t : Q) (v : var) :
  In (t, v) (entries_of a s nodes) ->
  exists j node, v = P (s + j) /\ nth_error nodes j = Some node /\
                 attribute node = a /\ threshold node = t.
Proof.
  unfold entries_of. intros H. apply in_map_iff in H.
  destruct H as [[j node] [E H]]. inversion E; subst.
  apply filter_In in H. destruct H as [H Ha]. simpl in Ha.
  apply enumerate_in in H. destruct H as [Hle Hn].
  exists (j - s)%nat, node. repeat split; auto.
  - f_equal. lia.
  - now apply Nat.eqb_eq.
Qed.

Lemma entries_of_cons (a s : nat) (n : node_wrapper) (nodes : list node_wrapper) :
  entries_of a s (n :: nodes) =
    (if (attribute n =? a)%nat then [(threshold n, P s)] else [])
    ++ entries_of a (S s) nodes.
Proof.
  unfold entries_of, enumerate. cbn [length seq combine filter fst snd].
  destruct (attribute n =? a)%nat; reflexivity.
Qed.

(** The thresholds of one feature are pairwise different. *)
Lemma entries_of_NoDup (a s : nat) (nodes : list node_wrapper) :
  NoDup (map node_key nodes) -> NoDup (map fst (entries_of a s nodes)).
Proof.
  revert s. induction nodes as [| n nodes IH]; intros s Hnd.
  - constructor.
  - rewrite entries_of_cons. simpl in Hnd.
    inversion Hnd as [| ? ? Hnot Hnd']; subst.
    destruct (Nat.eqb_spec (attribute n) a) as [Ha | Ha]; cbn [app map fst].
    + constructor; [| now apply IH].
      intros Hin. apply in_map_iff in Hin. destruct Hin as [[t v] [Et Hin]].
      simpl in Et. subst t. apply entries_of_in in Hin.
      destruct Hin as [j [node [_ [Hn [Hattr Hth]]]]].
      apply Hnot. apply in_map_iff. exists node. split.
      * unfold node_key. congruence.
      * eapply nth_error_In; eauto.
    + now apply IH.
Qed.

Lemma entries_of_canonical (a s : nat) (nodes : list node_wrapper) :
  Forall (fun k => canonical (snd k)) (map node_key nodes) ->
  Forall canonical (map fst (entries_of a s nodes)).
Proof.
  intros Hc. apply Forall_forall. intros t Ht.
  apply in_map_iff in Ht. destruct Ht as [[t' v] [<- Hin]].
  apply entries_of_in in Hin. destruct Hin as [j [node [_ [Hn [_ <-]]]]].
  rewrite Forall_forall in Hc.
  apply (Hc (node_key node)). apply in_map. eapply nth_error_In; eauto.
Qed.

(** An ascending list of pairwise different lowest-terms thresholds is
    strictly ascending. *)
Lemma sorted_distinct_strict (l : list (Q * var)) :
  Sorted key_le l -> NoDup (map fst l) -> Forall canonical (map fst l) ->
  StronglySorted key_lt l.
Proof.
  intros Hs Hnd Hc.
  apply Sorted_StronglySorted in Hs;
    [| intros x y z; unfold key_le; apply Qle_trans].
  induction Hs as [| a l Hs IH Hall]; [constructor |].
  simpl in Hnd, Hc. inversion Hnd as [| ? ? Hnot Hnd']; subst.
  inversion Hc as [| ? ? Hca Hc']; subst.
  constructor; [now apply IH |].
  rewrite Forall_forall in Hall, Hc' |- *. intros b Hb.
  specialize (Hall b Hb). unfold key_le in Hall. unfold key_lt.
  destruct (Qeq_dec (fst a) (fst b)) as [E | E].
  - exfalso. apply Hnot.
    rewrite (canonical_eq (fst a) (fst b) Hca (Hc' _ (in_map fst _ _ Hb)) E).
    now apply in_map.
  - apply Qle_lteq in Hall. destruct Hall as [Hlt | Heq]; [exact Hlt | contradiction].
Qed.

Lemma consis_loop_in (key : nat) (l : list (Q * var)) :
  forall (i0 i : nat) (md : Q) (a b : Q * var),
    nth_error l i = Some a -> nth_error l (S i) = Some b ->
    In (p_consis_attr key (i0 + i),
        mk_TempConstr (expr_var (snd a)) LESS_EQUAL (expr_var (snd b)))
       (fst (consis_loop key i0 l md)).
Proof.
  induction l as [| x l IH]; intros i0 i md a b Ha Hb; [destruct i; discriminate |].
  destruct l as [| y l]; [destruct i as [| [| i]]; discriminate |].
  change (fst (consis_loop key i0 (x :: y :: l) md))
    with ((p_consis_attr key i0,
           mk_TempConstr (expr_var (snd x)) LESS_EQUAL (expr_var (snd y)))
          :: fst (consis_loop key (S i0) (y :: l) (py_min md (fst y - fst x)))).
  destruct i as [| i].
  - simpl in Ha, Hb. inversion Ha; inversion Hb; subst. left.
    now rewrite Nat.add_0_r.
  - right. replace (i0 + S i)%nat with (S i0 + i)%nat by lia.
    apply IH; assumption.
Qed.

Lemma p_constraints_cs_in (pd : pdict_t) :
  forall (pd0 : pdict_t) (cs0 : list (cname * TempConstr)) (g0 : Q)
         (nc : cname * TempConstr),
    In nc cs0 \/
    (exists e, In e pd /\
               In nc (fst (consis_loop (fst e) 0 (sort_by_key (snd e)) 1000))) ->
    In nc (snd (fst (fold_left p_constraints_key pd (pd0, cs0, g0)))).
Proof.
  induction pd as [| e pd IH]; intros pd0 cs0 g0 nc H; cbn [fold_left].
  - destruct H as [H | [e [[] _]]]. exact H.
  - assert (Hstep : exists pd1 cs1 g1,
              p_constraints_key (pd0, cs0, g0) e = (pd1, cs1, g1) /\
              (forall x, In x cs0 -> In x cs1) /\
              (forall x, In x (fst (consis_loop (fst e) 0 (sort_by_key (snd e)) 1000))
                         -> In x cs1)).
    { unfold p_constraints_key.
      destruct (1 <? length (snd e))%nat eqn:El.
      - do 3 eexists. split; [reflexivity |].
        split; intros x Hx; apply in_or_app; auto.
      - do 3 eexists. split; [reflexivity |]. split; [auto |].
        intros x Hx. exfalso. apply Nat.ltb_ge in El.
        rewrite sort_by_key_short in Hx by exact El.
        destruct (snd e) as [| a [| b l]]; simpl in *; try contradiction. lia. }
    destruct Hstep as [pd1 [cs1 [g1 [-> [Hold Hnew]]]]].
    apply IH. destruct H as [H | [e' [[<- | He'] H]]].
    + left. now apply Hold.
    + left. now apply Hnew.
    + right. exists e'. auto.
Qed.

Lemma gaps_pos (l : list (Q * var)) (d : Q) :
  StronglySorted key_lt l -> In d (gaps (map fst l)) -> 0 < d.
Proof.
  induction l as [| a l IH]; intros Hs Hd; simpl in Hd; [contradiction |].
  destruct l as [| b l]; [contradiction |].
  inversion Hs as [| ? ? Hs' Hall]; subst.
  simpl in Hd. destruct Hd as [Hd | Hd].
  - inversion Hall; subst. unfold key_lt in *. lra.
  - apply IH; assumption.
Qed.

(** The lists of a built attacker's [pdict]. *)
Lemma init_pdict_entries (jm : option (list json_tree)) (eps : option Q)
    (ord : norm_order) (g : Q) (d : Z) (pos neg : option (list json_tree))
    (thr : Q) (vb : bool) (nt : nat) (self : KantchelianAttack)
    (key : nat) (l : list (Q * var)) :
  KantchelianAttack_init jm eps ord g d pos neg thr vb nt = Ok self ->
  In (key, l) (pdict self) ->
  In (key, entries_of key 0 (node_list (compiled self)))
     (build_pdict (node_list (compiled self))) /\
  l = sort_by_key (entries_of key 0 (node_list (compiled self))) /\
  StronglySorted key_lt l.
Proof.
  intros Hinit Hin.
  destruct (init_pdict_guard _ _ _ _ _ _ _ _ _ _ _ Hinit) as [Hpd _].
  destruct (init_recorded _ _ _ _ _ _ _ _ _ _ _ Hinit) as [[_ [Hnd Hc]] _].
  rewrite Hpd in Hin. apply in_map_iff in Hin. destruct Hin as [[k l0] [E Hin]].
  simpl in E. inversion E; subst. clear E.
  destruct (build_pdict_spec (node_list (compiled self))) as [_ Hspec].
  pose proof (Hspec _ _ Hin) as El0. subst l0.
  split; [exact Hin |]. split; [reflexivity |].
  set (en := entries_of key 0 (node_list (compiled self))).
  apply sorted_distinct_strict.
  - apply sort_by_key_sorted.
  - eapply Permutation_NoDup;
      [apply Permutation_map, sort_by_key_perm | now apply entries_of_NoDup].
  - eapply Permutation_Forall;
      [apply Permutation_map, sort_by_key_perm | now apply entries_of_canonical].
Qed.

(** X6 (split ordering groups). After construction [pdict] has one list per
    split feature; every unique split sits in the list of its feature as
    (threshold, variable); each list is non-empty, strictly ascending in the
    threshold and holds only splits of that feature; and the model carries,
    for consecutive elements [i], [i+1] of a list, the constraint
    "p_consis_attr{key}_{i}th": variable [i] <= variable [i+1]. *)
Theorem split_ordering_groups (jm : option (list json_tree)) (eps : option Q)
    (ord : norm_order) (g : Q) (d : Z) (pos neg : option (list json_tree))
    (thr : Q) (vb : bool) (nt : nat) (self : KantchelianAttack) :
  KantchelianAttack_init jm eps ord g d pos neg thr vb nt = Ok self ->
  NoDup (map fst (pdict self)) /\
  (forall j node,
      nth_error (node_list (compiled self)) j = Some node ->
      exists l, In (attribute node, l) (pdict self) /\ In (threshold node, P j) l) /\
  (forall key l,
      In (key, l) (pdict self) ->
      l <> [] /\ StronglySorted key_lt l /\
      (forall t v, In (t, v) l ->
         exists j node, v = P j /\ nth_error (node_list (compiled self)) j = Some node /\
                        attribute node = key /\ threshold node = t) /\
      (forall i a b,
         nth_error l i = Some a -> nth_error l (S i) = Some b ->
         In (p_consis_attr key i,
             mk_TempConstr (expr_var (snd a)) LESS_EQUAL (expr_var (snd b)))
            (constrs (m self)))).
Proof.
  intros Hinit.
  destruct (init_pdict_guard _ _ _ _ _ _ _ _ _ _ _ Hinit) as [Hpd _].
  destruct (build_pdict_spec (node_list (compiled self))) as [Hnd Hspec].
  split; [| split].
  - rewrite Hpd, map_map. simpl. exact Hnd.
  - intros j node Hj.
    destruct (build_pdict_has _ j node Hj) as [H1 H2].
    exists (sort_by_key (entries_of (attribute node) 0 (node_list (compiled self)))).
    split.
    + rewrite Hpd. apply in_map_iff. eexists. split; [| exact H1]. reflexivity.
    + eapply Permutation_in; [apply sort_by_key_perm | exact H2].
  - intros key l Hin.
    destruct (init_pdict_entries _ _ _ _ _ _ _ _ _ _ _ key l Hinit Hin)
      as [Hb [El Hs]].
    pose proof (init_pdict_lists _ _ _ _ _ _ _ _ _ _ _ Hinit) as Hne.
    rewrite Forall_forall in Hne. destruct (Hne _ Hin) as [Hne' _]. simpl in Hne'.
    split; [exact Hne' |]. split; [exact Hs |]. split.
    + intros t v Htv. rewrite El in Htv.
      apply (Permutation_in _ (Permutation_sym (sort_by_key_perm _))) in Htv.
      apply entries_of_in in Htv. exact Htv.
    + intros i a b Ha Hb'.
      rewrite (init_constrs _ _ _ _ _ _ _ _ _ _ _ Hinit).
      apply in_or_app. left. unfold p_constraints.
      apply p_constraints_cs_in. right.
      exists (key, entries_of key 0 (node_list (compiled self))).
      split; [exact Hb |]. cbn [fst snd]. rewrite <- El.
      exact (consis_loop_in key l 0 i 1000 a b Ha Hb').
Qed.

Lemma split_ordering_groups_witness :
  exists self,
    KantchelianAttack_init (Some [two_level; stump]) None inf GUARD_VAL ROUND_DIGITS
      None None 0 false 1 = Ok self /\
    NoDup (map fst (pdict self)).
Proof.
  destruct (KantchelianAttack_init (Some [two_level; stump]) None inf GUARD_VAL
              ROUND_DIGITS None None 0 false 1) as [self | e] eqn:E;
    [| vm_compute in E; discriminate E].
  exists self. split; [reflexivity |].
  exact (proj1 (split_ordering_groups _ _ _ _ _ _ _ _ _ _ self E)).
Defined.

(** *** The guard value stays inside the gaps *)

Lemma guard_step_pos (guard : Q) (entry : nat * list (Q * var)) :
  0 < guard ->
  StronglySorted key_lt (sort_by_key (snd entry)) ->
  0 < guard_step guard entry.
Proof.
  intros Hg Hs. rewrite guard_step_eq.
  destruct (1 <? length (snd entry))%nat; [| exact Hg].
  unfold shrink_guard.
  set (G := gaps (map fst (sort_by_key (snd entry)))).
  destruct (fold_py_min_spec G 1000) as [_ [_ H3]]. fold G in H3.
  destruct (Qlt_bool (fold_left py_min G 1000) (2 * guard)); [| exact Hg].
  assert (H0 : 0 < fold_left py_min G 1000).
  { destruct H3 as [-> | H3]; [reflexivity |].
    eapply gaps_pos; [exact Hs | exact H3]. }
  apply Qlt_shift_div_l; [reflexivity | lra].
Qed.

Lemma fold_guard_step_pos (pd : pdict_t) (g : Q) :
  0 < g ->
  (forall e, In e pd -> StronglySorted key_lt (sort_by_key (snd e))) ->
  0 < fold_left guard_step pd g.
Proof.
  revert g. induction pd as [| e pd IH]; intros g Hg Hs; simpl; [exact Hg |].
  apply IH.
  - apply guard_step_pos; [exact Hg | apply Hs; now left].
  - intros e' He'. apply Hs. now right.
Qed.

(** X7 (guard inside the gaps). When the constructor is given a positive
    guard value, the guard value it ends with is positive and strictly
    smaller than every gap between consecutive thresholds of a feature. *)
Theorem guard_within_gaps (jm : option (list json_tree)) (eps : option Q)
    (ord : norm_order) (g : Q) (d : Z) (pos neg : option (list json_tree))
    (thr : Q) (vb : bool) (nt : nat) (self : KantchelianAttack) :
  KantchelianAttack_init jm eps ord g d pos neg thr vb nt = Ok self ->
  0 < g ->
  0 < guard_val self /\
  forall key l gap,
    In (key, l) (pdict self) -> In gap (gaps (map fst l)) -> guard_val self < gap.
Proof.
  intros Hinit Hg.
  destruct (init_pdict_guard _ _ _ _ _ _ _ _ _ _ _ Hinit) as [Hpd Hgv].
  assert (Hpos : 0 < guard_val self).
  { rewrite Hgv. apply fold_guard_step_pos; [exact Hg |].
    intros [k l] He.
    assert (Hin : In (k, sort_by_key l) (pdict self)).
    { rewrite Hpd. apply in_map_iff. exists (k, l). auto. }
    destruct (init_pdict_entries _ _ _ _ _ _ _ _ _ _ _ _ _ Hinit Hin)
      as [_ [_ Hs]].
    exact Hs. }
  split; [exact Hpos |].
  intros key l gap Hin Hgap.
  rewrite Hpd in Hin. apply in_map_iff in Hin. destruct Hin as [e [E He]].
  inversion E; subst.
  pose proof (fold_guard_step_gap _ g e gap He Hgap) as H2.
  rewrite <- Hgv in H2. lra.
Qed.

Lemma guard_within_gaps_witness :
  exists self,
    KantchelianAttack_init (Some [two_level; stump]) None inf GUARD_VAL ROUND_DIGITS
      None None 0 false 1 = Ok self /\
    0 < guard_val self.
Proof.
  destruct (KantchelianAttack_init (Some [two_level; stump]) None inf GUARD_VAL
              ROUND_DIGITS None None 0 false 1) as [self | e] eqn:E;
    [| vm_compute in E; discriminate E].
  exists self. split; [reflexivity |].
  refine (proj1 (guard_within_gaps _ _ _ _ _ _ _ _ _ _ self E _)). reflexivity.
Defined.

(** ** Reading the solution back into the sample (lines 440-446) *)

Lemma getitem_Ok (x : sample) (i : nat) (v : Q) :
  getitem x i = Ok v <-> nth_error x i = Some v.
Proof.
  unfold getitem. destruct (nth_error x i); split; intros H;
    inversion H; reflexivity.
Qed.

Lemma setitem_spec (x : sample) (i : nat) (v xk : Q) :
  nth_error x i = Some xk ->
  exists x',
    setitem x i v = Ok x' /\ length x' = length x /\
    nth_error x' i = Some v /\
    forall j, j <> i -> nth_error x' j = nth_error x j.
Proof.
  revert i. induction x as [| a x IH]; intros [| i] H; simpl in *;
    try discriminate.
  - eexists. split; [reflexivity |]. split; [reflexivity |].
    split; [reflexivity |]. intros [| j] Hj; [congruence | reflexivity].
  - destruct (IH i H) as [x' [E [Hlen [Hi Hj]]]]. rewrite E. simpl.
    eexists. split; [reflexivity |]. simpl. split; [congruence |].
    split; [exact Hi |]. intros [| j] Hne; [reflexivity |].
    simpl. apply Hj. congruence.
Qed.

Lemma reconstruct_node_spec (xval : var -> Q) (guard : Q) (key : nat) (x : sample)
    (node : Q * var) (xk : Q) :
  nth_error x key = Some xk ->
  exists x',
    reconstruct_node xval guard key x node = Ok x' /\
    length x' = length x /\
    nth_error x' key = Some (nudge guard (xval (snd node)) xk (fst node)) /\
    forall j, j <> key -> nth_error x' j = nth_error x j.
Proof.
  intros Hx. unfold reconstruct_node, nudge.
  pose proof (proj2 (getitem_Ok x key xk) Hx) as Hg.
  destruct (Qlt_bool (1 # 2) (xval (snd node))) eqn:Ep.
  - assert (Eq : Qle_bool (xval (snd node)) (1 # 2) = false).
    { apply Qle_bool_false. now apply Qlt_bool_iff. }
    rewrite Hg. cbn [bind].
    destruct (Qle_bool (fst node) xk).
    + destruct (setitem_spec x key (fst node - guard) xk Hx) as [x' [E H]].
      rewrite E. cbn [bind]. rewrite Eq. exists x'. tauto.
    + cbn [bind]. rewrite Eq. exists x. tauto.
  - assert (Eq : Qle_bool (xval (snd node)) (1 # 2) = true).
    { apply Qle_bool_iff. now apply Qlt_bool_false. }
    cbn [bind]. rewrite Eq, Hg. cbn [bind].
    destruct (Qlt_bool xk (fst node)).
    + destruct (setitem_spec x key (fst node + guard) xk Hx) as [x' [E H]].
      rewrite E. exists x'. tauto.
    + exists x. tauto.
Qed.

Lemma reconstruct_key_spec (xval : var -> Q) (guard : Q) (key : nat)
    (l : list (Q * var)) (x : sample) (xk : Q) :
  nth_error x key = Some xk ->
  exists x',
    foldM (reconstruct_node xval guard key) l x = Ok x' /\
    length x' = length x /\
    nth_error x' key = Some (nudge_all xval guard l xk) /\
    forall j, j <> key -> nth_error x' j = nth_error x j.
Proof.
  revert x xk. induction l as [| node l IH]; intros x xk Hx; cbn [foldM].
  - exists x. auto.
  - destruct (reconstruct_node_spec xval guard key x node xk Hx)
      as [x1 [E [Hlen [Hk Hj]]]].
    rewrite E. cbn [bind].
    destruct (IH x1 _ Hk) as [x' [E' [Hlen' [Hk' Hj']]]].
    exists x'. split; [exact E' |]. split; [congruence |].
    split; [exact Hk' |]. intros j Hne. rewrite Hj', Hj; auto.
Qed.

Lemma reconstruct_spec (xval : var -> Q) (guard : Q) (pd : pdict_t) (x : sample) :
  NoDup (map fst pd) ->
  (forall key l, In (key, l) pd -> (key < length x)%nat) ->
  exists x',
    reconstruct xval guard pd x = Ok x' /\
    length x' = length x /\
    (forall key l xk, In (key, l) pd -> nth_error x key = Some xk ->
                      nth_error x' key = Some (nudge_all xval guard l xk)) /\
    (forall j, ~ In j (map fst pd) -> nth_error x' j = nth_error x j).
Proof.
  unfold reconstruct.
  revert x. induction pd as [| [key l] pd IH]; intros x Hnd Hcov; cbn [foldM].
  - exists x. split; [reflexivity |]. split; [reflexivity |].
    split; [intros ? ? ? [] | auto].
  - simpl in Hnd. inversion Hnd as [| ? ? Hnot Hnd']; subst.
    assert (Hlt : (key < length x)%nat) by (eapply Hcov; left; reflexivity).
    destruct (nth_error x key) as [xk |] eqn:Ex;
      [| apply nth_error_None in Ex; lia].
    cbn [fst snd].
    destruct (reconstruct_key_spec xval guard key l x xk Ex)
      as [x1 [E [Hlen [Hk Hj]]]].
    rewrite E. cbn [bind].
    destruct (IH x1 Hnd') as [x' [E' [Hlen' [Hkeys Hother]]]].
    { intros k' l' Hin. rewrite Hlen. eapply Hcov. right. exact Hin. }
    exists x'. split; [exact E' |]. split; [congruence |]. split.
    + intros k' l' xk' [Hin | Hin] Hx'.
      * inversion Hin; subst. rewrite Hother by exact Hnot.
        rewrite Ex in Hx'. inversion Hx'; subst. exact Hk.
      * apply (Hkeys k' l' xk' Hin). rewrite Hj; [exact Hx' |].
        intros ->. apply Hnot. change key with (fst (key, l')). now apply in_map.
    + intros j Hj'. simpl in Hj'.
      rewrite Hother by (intros Hin; apply Hj'; now right).
      apply Hj. intros ->. apply Hj'. now left.
Qed.

Lemma nudge_cases (guard p xk th : Q) :
  nudge guard p xk th = xk \/
  nudge guard p xk th = th - guard \/ nudge guard p xk th = th + guard.
Proof.
  unfold nudge.
  destruct (Qlt_bool (1 # 2) p), (Qle_bool th xk), (Qlt_bool xk th); auto.
Qed.

Lemma nudge_all_cases (xval : var -> Q) (guard : Q) (l : list (Q * var)) (xk : Q) :
  nudge_all xval guard l xk = xk \/
  exists t v, In (t, v) l /\
    (nudge_all xval guard l xk = t - guard \/ nudge_all xval guard l xk = t + guard).
Proof.
  unfold nudge_all. revert xk. induction l as [| [t v] l IH]; intros xk; simpl.
  - now left.
  - destruct (IH (nudge guard (xval v) xk t)) as [E | [t' [v' [Hin E]]]].
    + rewrite E.
      destruct (nudge_cases guard (xval v) xk t) as [E' | E']; [now left |].
      right. exists t, v. split; [now left | exact E'].
    + right. exists t', v'. split; [now right | exact E].
Qed.

Lemma objective_keys_cover (ord : norm_order) (guard : Q) (x : sample) (pd : pdict_t) :
  forall acc r,
    foldM (objective_key ord guard x) pd acc = Ok r ->
    forall key l, In (key, l) pd -> (key < length x)%nat.
Proof.
  induction pd as [| e pd IH]; intros acc r H key l Hin; [contradiction |].
  cbn [foldM] in H. bind_inv H. destruct Hin as [-> | Hin]; [| eapply IH; eauto].
  unfold objective_key in Hr. destruct acc as [mdl [[c cl] vl]]. cbn [fst snd] in Hr.
  destruct (length l =? 0)%nat; [discriminate |].
  destruct (getitem x key) as [xk |] eqn:Eg; [| discriminate].
  apply getitem_Ok in Eg. apply nth_error_Some. congruence.
Qed.

(** X8 (shape of the adversarial example). What the minimal-distance query
    returns has the length of the sample, and each of its features either
    has the sample's value or sits at a threshold of a split on that
    feature, plus or minus the guard value. *)
Theorem adversarial_example_shape (jm : option (list json_tree)) (eps : option Q)
    (ord : norm_order) (g : Q) (d : Z) (pos neg : option (list json_tree))
    (thr : Q) (vb : bool) (nt : nat) (self self' : KantchelianAttack)
    (solver : Model -> Z * (var -> Q)) (x x' : sample) (label : nat) :
  KantchelianAttack_init jm eps ord g d pos neg thr vb nt = Ok self ->
  optimal_adversarial_example solver self x label = Ok (Some x', self') ->
  length x' = length x /\
  forall j,
    nth_error x' j = nth_error x j \/
    exists l t v,
      In (j, l) (pdict self) /\ In (t, v) l /\
      (nth_error x' j = Some (t - guard_val self) \/
       nth_error x' j = Some (t + guard_val self)).
Proof.
  intros Hinit H. unfold optimal_adversarial_example in H. bind_inv H.
  destruct (negb (r =? label)%nat).
  { inversion H; subst. split; [reflexivity | now left]. }
  bind_inv H.
  destruct (status (optimize solver r0) =? INFEASIBLE)%Z; [discriminate |].
  bind_inv H. bind_inv H. inversion H; subst. clear H.
  assert (Hcov : forall key l, In (key, l) (pdict self) -> (key < length x)%nat).
  { unfold minimal_distance_model in Hr0. bind_inv Hr0.
    eapply objective_keys_cover; eauto. }
  assert (Hnd : NoDup (map fst (pdict self))).
  { destruct (init_pdict_guard _ _ _ _ _ _ _ _ _ _ _ Hinit) as [Hpd _].
    rewrite Hpd, map_map. simpl.
    apply (build_pdict_spec (node_list (compiled self))). }
  destruct (reconstruct_spec (X (optimize solver r0)) (guard_val self) (pdict self) x
              Hnd Hcov) as [x1 [E [Hlen [Hkeys Hother]]]].
  rewrite E in Hr1. inversion Hr1; subst x1. clear Hr1.
  split; [exact Hlen |]. intros j.
  destruct (in_dec Nat.eq_dec j (map fst (pdict self))) as [Hin | Hnot];
    [| left; now apply Hother].
  apply in_map_iff in Hin. destruct Hin as [[k l] [Ek Hin]]. simpl in Ek. subst k.
  destruct (nth_error x j) as [xj |] eqn:Ex;
    [| apply nth_error_None in Ex; specialize (Hcov j l Hin); lia].
  rewrite (Hkeys j l xj Hin Ex).
  destruct (nudge_all_cases (X (optimize solver r0)) (guard_val self) l xj)
    as [E' | [t [v [Htv E']]]].
  - left. now rewrite E'.
  - right. exists l, t, v. split; [exact Hin |]. split; [exact Htv |].
    destruct E' as [-> | ->]; auto.
Qed.

Lemma adversarial_example_shape_witness :
  exists self self' x',
    KantchelianAttack_init (Some [stump]) None inf GUARD_VAL ROUND_DIGITS
      None None 0 false 1 = Ok self /\
    optimal_adversarial_example stump_solver self [3] 0 = Ok (Some x', self') /\
    length x' = length [3] /\
    forall j,
      nth_error x' j = nth_error [3] j \/
      exists l t v,
        In (j, l) (pdict self) /\ In (t, v) l /\
        (nth_error x' j = Some (t - guard_val self) \/
         nth_error x' j = Some (t + guard_val self)).
Proof.
  destruct (KantchelianAttack_init (Some [stump]) None inf GUARD_VAL
              ROUND_DIGITS None None 0 false 1) as [self | e] eqn:E;
    [| vm_compute in E; discriminate E].
  pose proof E as E'. vm_compute in E'. injection E' as E'.
  destruct (optimal_adversarial_example stump_solver self [3] 0)
    as [[[x' |] self'] | e] eqn:Eo;
    [| subst self; vm_compute in Eo; discriminate Eo
     | subst self; vm_compute in Eo; discriminate Eo].
  exists self, self', x'. split; [reflexivity |]. split; [exact Eo |].
  exact (adversarial_example_shape (Some [stump]) None inf GUARD_VAL ROUND_DIGITS
           None None 0 false 1 self self' stump_solver [3] x' 0%nat E Eo).
Defined.

(** ** The read-back value agrees with every split variable of its feature *)

Lemma nudge_consistent_self (xval : var -> Q) (guard y : Q) (node : Q * var) :
  0 < guard ->
  consistent xval (nudge guard (xval (snd node)) y (fst node)) node.
Proof.
  intros Hg. unfold consistent, nudge.
  destruct (Qlt_bool (1 # 2) (xval (snd node))) eqn:Ep.
  - apply Qlt_bool_iff in Ep. split; [intros _ | lra].
    destruct (Qle_bool (fst node) y) eqn:E; [lra |].
    now apply Qle_bool_false in E.
  - apply Qlt_bool_false in Ep. split; [lra | intros _].
    destruct (Qlt_bool y (fst node)) eqn:E; [lra |].
    now apply Qlt_bool_false in E.
Qed.

Lemma nudge_consistent_before (xval : var -> Q) (guard y : Q) (n node : Q * var) :
  0 < guard ->
  separated xval guard n node ->
  consistent xval y n ->
  consistent xval (nudge guard (xval (snd node)) y (fst node)) n.
Proof.
  intros Hg [Hsep Hmono] [H1 H2]. unfold consistent, nudge.
  destruct (Qlt_bool (1 # 2) (xval (snd node))) eqn:Ep.
  - destruct (Qle_bool (fst node) y) eqn:E; [| split; assumption].
    apply Qle_bool_iff in E. split.
    + intros Hn. specialize (H1 Hn). lra.
    + intros _. lra.
  - apply Qlt_bool_false in Ep.
    destruct (Qlt_bool y (fst node)) eqn:E; [| split; assumption].
    split; [intros Hn; lra | intros _; lra].
Qed.

Lemma StronglySorted_app_inv {A : Type} (R : A -> A -> Prop) (l1 : list A) (a : A)
    (l2 : list A) :
  StronglySorted R (l1 ++ a :: l2) -> forall n, In n l1 -> R n a.
Proof.
  induction l1 as [| b l1 IH]; intros Hs n Hn; [contradiction |].
  simpl in Hs. inversion Hs as [| ? ? Hs' Hall]; subst.
  destruct Hn as [<- | Hn].
  - rewrite Forall_forall in Hall. apply Hall. apply in_or_app. right. now left.
  - now apply IH.
Qed.

Lemma nudge_all_consistent_aux (xval : var -> Q) (guard : Q) (l : list (Q * var)) :
  0 < guard ->
  forall (done : list (Q * var)) (y : Q),
    StronglySorted (separated xval guard) (done ++ l) ->
    (forall n, In n done -> consistent xval y n) ->
    forall n, In n (done ++ l) -> consistent xval (nudge_all xval guard l y) n.
Proof.
  intros Hg. induction l as [| node l IH]; intros done y Hs Hdone n Hn.
  - rewrite app_nil_r in Hn. now apply Hdone.
  - unfold nudge_all. cbn [fold_left].
    change (fold_left _ l ?z) with (nudge_all xval guard l z).
    apply (IH (done ++ [node])).
    + now rewrite <- app_assoc.
    + intros n' Hn'. apply in_app_or in Hn'. destruct Hn' as [Hn' | [<- | []]].
      * apply nudge_consistent_before; auto.
        eapply StronglySorted_app_inv; eauto.
      * now apply nudge_consistent_self.
    + now rewrite <- app_assoc.
Qed.

Lemma nudge_all_consistent (xval : var -> Q) (guard : Q) (l : list (Q * var))
    (xk : Q) (n : Q * var) :
  0 < guard ->
  StronglySorted (separated xval guard) l ->
  In n l ->
  consistent xval (nudge_all xval guard l xk) n.
Proof.
  intros Hg Hs Hn.
  apply (nudge_all_consistent_aux xval guard l Hg [] xk); auto.
  intros ? [].
Qed.

Lemma sorted_separated (xval : var -> Q) (guard : Q) (l : list (Q * var)) :
  0 <= guard ->
  (forall gap, In gap (gaps (map fst l)) -> guard <= gap) ->
  (forall i a b, nth_error l i = Some a -> nth_error l (S i) = Some b ->
                 xval (snd a) <= xval (snd b)) ->
  StronglySorted (separated xval guard) l.
Proof.
  intros Hg Hgap Hmono.
  apply Sorted_StronglySorted.
  { intros a b c [H1 H2] [H3 H4]. split; lra. }
  induction l as [| a l IH]; [constructor |].
  constructor.
  - apply IH.
    + intros gap Hin. apply Hgap. destruct l as [| b l]; [contradiction |].
      simpl. now right.
    + intros i x y Hx Hy. apply (Hmono (S i)); assumption.
  - destruct l as [| b l]; constructor. split.
    + assert (Hin : In (fst b - fst a) (gaps (map fst (a :: b :: l))))
        by (simpl; now left).
      specialize (Hgap _ Hin). lra.
    + apply (Hmono 0%nat); reflexivity.
Qed.

(** ** The leaf variables follow the path of the sample *)

Lemma Qsum_app (l1 l2 : list Q) : Qsum (l1 ++ l2) == Qsum l1 + Qsum l2.
Proof.
  induction l1 as [| a l1 IH]; simpl; [lra |]. rewrite IH. lra.
Qed.

Lemma leaf_sum_app (a : var -> Q) (l1 l2 : list nat) :
  leaf_sum a (l1 ++ l2) == leaf_sum a l1 + leaf_sum a l2.
Proof. unfold leaf_sum. rewrite map_app. apply Qsum_app. Qed.

Lemma leaf_sum_nonneg (a : var -> Q) (idxs : list nat) :
  (forall i, In i idxs -> 0 <= a (L i)) -> 0 <= leaf_sum a idxs.
Proof.
  unfold leaf_sum. induction idxs as [| i idxs IH]; intros H; simpl; [lra |].
  assert (0 <= a (L i)) by (apply H; now left).
  assert (0 <= Qsum (map (fun i => a (L i)) idxs)) by (apply IH; intros; apply H; now right).
  lra.
Qed.

Lemma leaf_sum_zero (a : var -> Q) (idxs : list nat) :
  (forall i, In i idxs -> 0 <= a (L i)) ->
  leaf_sum a idxs <= 0 ->
  forall i, In i idxs -> a (L i) == 0.
Proof.
  induction idxs as [| j idxs IH]; intros Hpos Hle i Hi; [contradiction |].
  unfold leaf_sum in Hle. simpl in Hle.
  assert (H0 : 0 <= a (L j)) by (apply Hpos; now left).
  assert (H1 : 0 <= leaf_sum a idxs)
    by (apply leaf_sum_nonneg; intros; apply Hpos; now right).
  unfold leaf_sum in H1.
  destruct Hi as [<- | Hi]; [lra |].
  apply IH; auto.
  - intros; apply Hpos; now right.
  - unfold leaf_sum. lra.
Qed.

Lemma leaf_value_app (a : var -> Q) (vs1 vs2 : list Q) (s : nat) :
  leaf_value a (vs1 ++ vs2) s
    == leaf_value a vs1 s + leaf_value a vs2 (s + length vs1).
Proof.
  unfold leaf_value. rewrite length_app, seq_app.
  rewrite combine_app_eq by now rewrite length_seq.
  rewrite map_app. apply Qsum_app.
Qed.

Lemma leaf_value_zero (a : var -> Q) (vs : list Q) (s : nat) :
  (forall i, In i (seq s (length vs)) -> a (L i) == 0) ->
  leaf_value a vs s == 0.
Proof.
  unfold leaf_value. revert s. induction vs as [| v vs IH]; intros s H; simpl;
    [reflexivity |].
  rewrite (H s) by (simpl; now left).
  rewrite IH; [lra |]. intros i Hi. apply H. simpl. now right.
Qed.

Lemma check_tree_wf (x : sample) (n attr : nat) (th : Q) (yes no : nat)
    (c0 c1 : json_tree) :
  well_formed (JSplit n attr th yes no c0 c1) = true ->
  check_tree x (JSplit n attr th yes no c0 c1) =
    (xa <- getitem x attr ;;
     if Qlt_bool xa th then check_tree x (linked_child yes c0 c1)
     else check_tree x (linked_child no c0 c1)).
Proof.
  cbn [well_formed check_tree]. rewrite !andb_true_iff. intros [[H _] _].
  unfold linked_child, find_child in *.
  destruct (getitem x attr) as [xa |]; [| reflexivity]. cbn [bind].
  destruct (Nat.eqb_spec (tree_nodeid c1) yes) as [E1y | E1y];
    destruct (Nat.eqb_spec (tree_nodeid c0) yes) as [E0y | E0y];
    destruct (Nat.eqb_spec (tree_nodeid c1) no) as [E1n | E1n];
    destruct (Nat.eqb_spec (tree_nodeid c0) no) as [E0n | E0n];
    simpl in H; try discriminate; try reflexivity;
    destruct (Qlt_bool xa th); try reflexivity; congruence.
Qed.

Lemma well_formed_linked (n attr : nat) (th : Q) (yes no : nat) (c0 c1 : json_tree) :
  well_formed (JSplit n attr th yes no c0 c1) = true ->
  well_formed (linked_child yes c0 c1) = true /\
  well_formed (linked_child no c0 c1) = true.
Proof.
  intros H. destruct (well_formed_children _ _ _ _ _ _ _ H) as [H0 [H1 Hs]].
  destruct Hs as [[-> ->] | [-> ->]]; auto.
Qed.

Lemma thresholds_rounded_linked (d : Z) (n attr : nat) (th : Q) (yes no : nat)
    (c0 c1 : json_tree) :
  thresholds_rounded d (JSplit n attr th yes no c0 c1) = true ->
  py_round th d == th /\
  thresholds_rounded d (linked_child yes c0 c1) = true /\
  thresholds_rounded d (linked_child no c0 c1) = true.
Proof.
  cbn [thresholds_rounded]. rewrite !andb_true_iff. intros [[H H0] H1].
  split; [now apply Qeq_bool_iff |].
  destruct (linked_child_cases yes c0 c1) as [-> | ->],
           (linked_child_cases no c0 c1) as [-> | ->]; auto.
Qed.

(** Under the coupling constraints, with the sample on the side each split
    variable says, the weighted leaf sum of a tree is its total leaf mass
    times the leaf value that [check] reaches. *)
Lemma tree_value (d : Z) (a : var -> Q) (x : sample) (t : json_tree) :
  forall (treeid : nat) (root : bool) (s : nat),
    well_formed t = true -> thresholds_rounded d t = true ->
    (forall i, (s <= i < s + n_leaves t)%nat -> 0 <= a (L i)) ->
    (forall o, In o (occurrences d t treeid root s) -> side_ok a x o) ->
    exists v,
      check_tree x t = Ok v /\
      leaf_value a (tree_leaves false t) s == leaf_sum a (seq s (n_leaves t)) * v.
Proof.
  induction t as [n0 v0 | n0 attr th yes no c0 IH0 c1 IH1];
    intros treeid root s Hwf Hrd Hpos Hocc.
  - exists v0. split; [reflexivity |].
    unfold leaf_value, leaf_sum. simpl. lra.
  - assert (IH : forall id treeid root s,
               well_formed (linked_child id c0 c1) = true ->
               thresholds_rounded d (linked_child id c0 c1) = true ->
               (forall i, (s <= i < s + n_leaves (linked_child id c0 c1))%nat ->
                          0 <= a (L i)) ->
               (forall o, In o (occurrences d (linked_child id c0 c1) treeid root s) ->
                          side_ok a x o) ->
               exists v,
                 check_tree x (linked_child id c0 c1) = Ok v /\
                 leaf_value a (tree_leaves false (linked_child id c0 c1)) s
                   == leaf_sum a (seq s (n_leaves (linked_child id c0 c1))) * v).
    { intros id. destruct (linked_child_cases id c0 c1) as [-> | ->]; auto. }
    destruct (well_formed_linked _ _ _ _ _ _ _ Hwf) as [Hwl Hwr].
    destruct (thresholds_rounded_linked _ _ _ _ _ _ _ _ Hrd) as [Hth [Hrl Hrr]].
    rewrite (check_tree_wf x _ _ _ _ _ _ _ Hwf).
    cbn [occurrences n_leaves tree_leaves] in *.
    set (l := linked_child yes c0 c1) in *.
    set (r := linked_child no c0 c1) in *.
    destruct (IH yes treeid false s Hwl Hrl) as [vl [Hcl Hvl]].
    { intros i Hi. apply Hpos. fold l in Hi. lia. }
    { intros o Ho. apply Hocc. apply in_or_app. now left. }
    destruct (IH no treeid false (s + n_leaves l)%nat Hwr Hrr) as [vr [Hcr Hvr]].
    { intros i Hi. apply Hpos. fold r in Hi. lia. }
    { intros o Ho. apply Hocc. apply in_or_app. right. apply in_or_app. now left. }
    fold l in Hcl, Hvl. fold r in Hcr, Hvr.
    destruct (Hocc (mk_occurrence (attr, py_round th d) (treeid, n0)
                      (mk_leaves_item (seq s (n_leaves l))
                         (seq (s + n_leaves l) (n_leaves r)) root)))
      as [pv [xk [Hxk [Hbin [Hleft [Hright [Hlt Hge]]]]]]].
    { apply in_or_app. right. apply in_or_app. right. now left. }
    cbn [occ_key occ_item left_leaves right_leaves fst snd] in *.
    rewrite (proj2 (getitem_Ok x attr xk) Hxk). cbn [bind].
    assert (HV : leaf_value a (tree_leaves false l ++ tree_leaves false r) s
                 == leaf_value a (tree_leaves false l) s
                    + leaf_value a (tree_leaves false r) (s + n_leaves l)).
    { rewrite leaf_value_app, tree_leaves_length. reflexivity. }
    assert (HS : leaf_sum a (seq s (n_leaves l + n_leaves r))
                 == leaf_sum a (seq s (n_leaves l))
                    + leaf_sum a (seq (s + n_leaves l) (n_leaves r))).
    { rewrite seq_app. apply leaf_sum_app. }
    assert (Hpl : forall i, In i (seq s (n_leaves l)) -> 0 <= a (L i)).
    { intros i Hi. apply in_seq in Hi. apply Hpos. lia. }
    assert (Hpr : forall i, In i (seq (s + n_leaves l) (n_leaves r)) -> 0 <= a (L i)).
    { intros i Hi. apply in_seq in Hi. apply Hpos. lia. }
    pose proof (leaf_sum_nonneg a _ Hpl) as Hnl.
    pose proof (leaf_sum_nonneg a _ Hpr) as Hnr.
    destruct (Qlt_bool xk th) eqn:Ex.
    + (* the sample goes to the "yes" side: the other side carries no mass *)
      apply Qlt_bool_iff in Ex.
      assert (Hp1 : pv == 1).
      { destruct Hbin as [Hp | Hp]; [| exact Hp].
        exfalso. assert (Hle : pv <= 1 # 2) by lra. specialize (Hge Hle). lra. }
      assert (Hz : forall i, In i (seq (s + n_leaves l) (n_leaves r)) -> a (L i) == 0).
      { apply leaf_sum_zero; [exact Hpr | lra]. }
      assert (Hr0 : leaf_sum a (seq (s + n_leaves l) (n_leaves r)) == 0) by lra.
      assert (Hv0 : leaf_value a (tree_leaves false r) (s + n_leaves l) == 0).
      { apply leaf_value_zero. rewrite tree_leaves_length. exact Hz. }
      exists vl. split; [exact Hcl |].
      rewrite HV, HS, Hvl, Hv0, Hr0. ring.
    + apply Qlt_bool_false in Ex.
      assert (Hp0 : pv == 0).
      { destruct Hbin as [Hp | Hp]; [exact Hp |].
        exfalso. assert (Hlt' : 1 # 2 < pv) by lra. specialize (Hlt Hlt'). lra. }
      assert (Hz : forall i, In i (seq s (n_leaves l)) -> a (L i) == 0).
      { apply leaf_sum_zero; [exact Hpl | lra]. }
      assert (Hl0 : leaf_sum a (seq s (n_leaves l)) == 0) by lra.
      assert (Hv0 : leaf_value a (tree_leaves false l) s == 0).
      { apply leaf_value_zero. rewrite tree_leaves_length. exact Hz. }
      exists vr. split; [exact Hcr |].
      rewrite HV, HS, Hvr, Hv0, Hl0. ring.
Qed.

(** ** Evaluating the expressions of the model *)

Lemma eval_const (a : var -> Q) (c : Q) : eval_expr a (expr_const c) == c.
Proof. unfold eval_expr. simpl. lra. Qed.

Lemma eval_var (a : var -> Q) (v : var) : eval_expr a (expr_var v) == a v.
Proof. unfold eval_expr. simpl. lra. Qed.

Lemma eval_sub_var (a : var -> Q) (e : LinExpr) (v : var) :
  eval_expr a (expr_sub_var e v) == eval_expr a e - a v.
Proof.
  unfold eval_expr, expr_sub_var. cbn [terms constant].
  rewrite map_app, Qsum_app. simpl. lra.
Qed.

Lemma eval_add_var (a : var -> Q) (e : LinExpr) (v : var) :
  eval_expr a (expr_add_var e v) == eval_expr a e + a v.
Proof.
  unfold eval_expr, expr_add_var. cbn [terms constant].
  rewrite map_app, Qsum_app. simpl. lra.
Qed.

Lemma eval_repeat_ones (a : var -> Q) (idxs : list nat) :
  eval_expr a (LinExpr_of (repeat 1 (length idxs)) (map L idxs)) == leaf_sum a idxs.
Proof.
  unfold eval_expr, LinExpr_of, leaf_sum. cbn [terms constant].
  induction idxs as [| i idxs IH]; simpl; [lra |].
  simpl in IH. lra.
Qed.

Lemma eval_ones (a : var -> Q) (idxs : list nat) :
  eval_expr a (ones_expr (map L idxs)) == leaf_sum a idxs.
Proof. unfold ones_expr. rewrite length_map. apply eval_repeat_ones. Qed.

Lemma eval_leaf_values (a : var -> Q) (vs : list Q) (s : nat) :
  eval_expr a (LinExpr_of vs (map L (seq s (length vs)))) == leaf_value a vs s.
Proof.
  unfold eval_expr, LinExpr_of, leaf_value. cbn [terms constant].
  revert s. induction vs as [| v vs IH]; intros s; simpl; [lra |].
  specialize (IH (S s)). simpl in IH. lra.
Qed.

(** Both kinds of coupling constraints bound the two sides of a visit. *)
Lemma coupling_bounds (a : var -> Q) (j k : nat) (item : leaves_item) :
  (forall nc, In nc (node_leaves_item j k item) -> holds a (snd nc)) ->
  leaf_sum a (left_leaves item) <= a (P j) /\
  leaf_sum a (right_leaves item) <= 1 - a (P j).
Proof.
  intros H. unfold node_leaves_item in H.
  destruct (is_root item).
  - pose proof (H _ (or_introl eq_refl)) as H1.
    pose proof (H _ (or_intror (or_introl eq_refl))) as H2.
    unfold holds in H1, H2. cbn [snd rel lhs rhs] in H1, H2.
    rewrite eval_sub_var, eval_ones, eval_const in H1.
    rewrite eval_add_var, eval_ones, eval_const in H2. lra.
  - pose proof (H _ (or_introl eq_refl)) as H1.
    pose proof (H _ (or_intror (or_introl eq_refl))) as H2.
    unfold holds in H1, H2. cbn [snd rel lhs rhs] in H1, H2.
    rewrite eval_sub_var, eval_ones, eval_const in H1.
    rewrite eval_add_var, eval_ones, eval_const in H2. lra.
Qed.

Lemma leaf_sum_constraints_mass (a : var -> Q) (its : list (nat * json_tree)) :
  forall (i0 s : nat),
    (forall nc, In nc (leaf_sum_constraints i0 (s :: running_counts s its)) ->
                holds a (snd nc)) ->
    forest_mass_ok a its s.
Proof.
  induction its as [| it its IH]; intros i0 s H; [exact I |].
  cbn [running_counts leaf_sum_constraints forest_mass_ok] in *. split.
  - pose proof (H _ (or_introl eq_refl)) as H1.
    unfold holds in H1. cbn [snd rel lhs rhs] in H1.
    replace (s + n_leaves (snd it) - s)%nat with (n_leaves (snd it)) in H1 by lia.
    rewrite eval_const in H1.
    rewrite <- (eval_repeat_ones a (seq s (n_leaves (snd it)))).
    now rewrite length_seq.
  - apply (IH (S i0)). intros nc Hnc. apply H. now right.
Qed.

Lemma map_snd_enumerate {A : Type} (s : nat) (l : list A) :
  map snd (enumerate s l) = l.
Proof.
  unfold enumerate. revert s. induction l as [| a l IH]; intros s; simpl;
    [reflexivity |]. now rewrite IH.
Qed.

(** The weighted leaf sum of the whole ensemble is the sum [check] computes. *)
Lemma forest_value (d : Z) (a : var -> Q) (x : sample) (its : list (nat * json_tree)) :
  forall (s : nat),
    forallb well_formed (map snd its) = true ->
    forallb (thresholds_rounded d) (map snd its) = true ->
    (forall i, (s <= i < s + length (forest_leaves false its))%nat -> 0 <= a (L i)) ->
    (forall o, In o (forest_occurrences d its s) -> side_ok a x o) ->
    forest_mass_ok a its s ->
    exists vs,
      mapM (check_tree x) (map snd its) = Ok vs /\
      leaf_value a (forest_leaves false its) s == Qsum vs.
Proof.
  induction its as [| it its IH]; intros s Hwf Hrd Hpos Hocc Hmass.
  - exists []. split; [reflexivity |]. unfold leaf_value. simpl. reflexivity.
  - cbn [map forallb] in Hwf, Hrd.
    apply andb_true_iff in Hwf. destruct Hwf as [Hw Hwf].
    apply andb_true_iff in Hrd. destruct Hrd as [Hr Hrd].
    cbn [forest_mass_ok] in Hmass. destruct Hmass as [Hm Hmass].
    cbn [forest_occurrences] in Hocc.
    assert (Hlen : length (forest_leaves false (it :: its))
                   = (n_leaves (snd it) + length (forest_leaves false its))%nat).
    { unfold forest_leaves. cbn [flat_map].
      now rewrite length_app, tree_leaves_length. }
    destruct (tree_value d a x (snd it) (fst it) true s Hw Hr) as [v [Hc Hv]].
    { intros i Hi. apply Hpos. lia. }
    { intros o Ho. apply Hocc. apply in_or_app. now left. }
    destruct (IH (s + n_leaves (snd it))%nat Hwf Hrd) as [vs [Hcs Hvs]].
    { intros i Hi. apply Hpos. lia. }
    { intros o Ho. apply Hocc. apply in_or_app. now right. }
    { exact Hmass. }
    exists (v :: vs). split.
    + cbn [map mapM]. rewrite Hc. cbn [bind]. rewrite Hcs. reflexivity.
    + assert (HV : leaf_value a (forest_leaves false (it :: its)) s
                   == leaf_value a (tree_leaves false (snd it)) s
                      + leaf_value a (forest_leaves false its) (s + n_leaves (snd it))).
      { unfold forest_leaves. cbn [flat_map].
        rewrite leaf_value_app, tree_leaves_length. reflexivity. }
      rewrite HV, Hv, Hvs, Hm. simpl. ring.
Qed.

(** ** What the queries keep of the constructor's model *)

Lemma cname_eqb_eq (a b : cname) : cname_eqb a b = true <-> a = b.
Proof.
  destruct a, b; simpl; split; intros H; try discriminate; try reflexivity;
    try (apply andb_true_iff in H; destruct H as [H1 H2];
         apply Nat.eqb_eq in H1; apply Nat.eqb_eq in H2; congruence);
    try (apply Nat.eqb_eq in H; congruence);
    try (inversion H; subst; rewrite ?Nat.eqb_refl; reflexivity).
Qed.

Lemma remove_first_keeps (name : cname) (cs : list (cname * TempConstr))
    (nc : cname * TempConstr) :
  In nc cs -> fst nc <> name -> In nc (remove_first name cs).
Proof.
  induction cs as [| c cs IH]; intros Hin Hne; [contradiction |].
  simpl. destruct (cname_eqb (fst c) name) eqn:E.
  - apply cname_eqb_eq in E. destruct Hin as [-> | Hin]; [contradiction | exact Hin].
  - destruct Hin as [-> | Hin]; [now left | right; now apply IH].
Qed.

Lemma remove_first_subset (name : cname) (cs : list (cname * TempConstr))
    (nc : cname * TempConstr) :
  In nc (remove_first name cs) -> In nc cs.
Proof.
  induction cs as [| c cs IH]; simpl; [tauto |].
  destruct (cname_eqb (fst c) name); simpl; tauto.
Qed.

Lemma objective_key_keeps (ord : norm_order) (guard : Q) (x : sample)
    (acc r : Model * (Q * list Q * list var)) (e : nat * list (Q * var)) :
  objective_key ord guard x acc e = Ok r ->
  n_P (fst r) = n_P (fst acc) /\ n_L (fst r) = n_L (fst acc) /\
  B_bounds (fst r) = B_bounds (fst acc) /\
  forall nc, In nc (constrs (fst acc)) ->
             (forall key, fst nc <> linf_constr_attr key) ->
             In nc (constrs (fst r)).
Proof.
  unfold objective_key. destruct acc as [mdl [[c cl] vl]]. cbn [fst snd].
  destruct (length (snd e) =? 0)%nat; [discriminate |].
  destruct (getitem x (fst e)) as [xk |]; [| discriminate]. cbn [bind].
  destruct (w_list _ guard xk (map fst (snd e))) as [w |]; [| discriminate].
  cbn [bind]. destruct ord.
  - destruct (is_None _); [discriminate |].
    intros H. inversion H; subst. cbn. repeat split; auto.
    intros nc Hin Hne. apply in_or_app. left.
    apply remove_first_keeps; auto.
  - intros H. inversion H; subst. cbn. repeat split; auto.
Qed.

Lemma objective_keys_keep (ord : norm_order) (guard : Q) (x : sample) (pd : pdict_t) :
  forall (acc r : Model * (Q * list Q * list var)),
    foldM (objective_key ord guard x) pd acc = Ok r ->
    n_P (fst r) = n_P (fst acc) /\ n_L (fst r) = n_L (fst acc) /\
    B_bounds (fst r) = B_bounds (fst acc) /\
    forall nc, In nc (constrs (fst acc)) ->
               (forall key, fst nc <> linf_constr_attr key) ->
               In nc (constrs (fst r)).
Proof.
  induction pd as [| e pd IH]; intros acc r H; cbn [foldM] in H.
  - inversion H; subst. auto.
  - bind_inv H.
    destruct (objective_key_keeps _ _ _ _ _ _ Hr) as [H1 [H2 [H3 H4]]].
    destruct (IH _ _ H) as [H1' [H2' [H3' H4']]].
    repeat split; try congruence. auto.
Qed.

Lemma minimal_distance_model_keeps (self : KantchelianAttack) (x : sample)
    (label : nat) (m4 : Model) :
  minimal_distance_model self x label = Ok m4 ->
  n_P m4 = n_P (m self) /\ n_L m4 = n_L (m self) /\
  B_bounds m4 = B_bounds (m self) /\
  (forall nc, In nc (constrs (m self)) -> kept_name (fst nc) -> In nc (constrs m4)) /\
  In (mislabel, mislabel_constr self label) (constrs m4) /\
  (forall key l, In (key, l) (pdict self) -> (key < length x)%nat).
Proof.
  unfold minimal_distance_model. intros H. bind_inv H.
  destruct r as [m3 [[c cl] vl]].
  destruct (objective_keys_keep _ _ _ _ _ _ Hr) as [H1 [H2 [H3 H4]]].
  cbn [fst] in *.
  assert (Hm4 : n_P m4 = n_P m3 /\ n_L m4 = n_L m3 /\ B_bounds m4 = B_bounds m3 /\
                constrs m4 = constrs m3).
  { destruct (order self); inversion H; subst; cbn; auto. }
  destruct Hm4 as [E1 [E2 [E3 E4]]]. rewrite E1, E2, E3, E4.
  repeat split; auto.
  - intros nc Hin [Hk1 Hk2]. apply H4; [| exact Hk2].
    cbn. apply in_or_app. left. apply remove_first_keeps; auto.
  - apply H4; [| intros key; discriminate].
    cbn. apply in_or_app. right. now left.
  - eapply objective_keys_cover; eauto.
Qed.

(** *** The constructor's constraints by name *)

Lemma init_coupling_held (jm : option (list json_tree)) (eps : option Q)
    (ord : norm_order) (g : Q) (d : Z) (pos neg : option (list json_tree))
    (thr : Q) (vb : bool) (nt : nat) (self : KantchelianAttack)
    (a : var -> Q) (cs : list (cname * TempConstr))
    (j : nat) (node : node_wrapper) (item : leaves_item) :
  KantchelianAttack_init jm eps ord g d pos neg thr vb nt = Ok self ->
  (forall nc, In nc (constrs (m self)) -> kept_name (fst nc) -> In nc cs) ->
  (forall nc, In nc cs -> holds a (snd nc)) ->
  nth_error (node_list (compiled self)) j = Some node ->
  In item (leaves_lists node) ->
  leaf_sum a (left_leaves item) <= a (P j) /\
  leaf_sum a (right_leaves item) <= 1 - a (P j).
Proof.
  intros Hinit Hkept Hholds Hj Hitem.
  apply In_nth_error in Hitem. destruct Hitem as [k Hk].
  apply (coupling_bounds a j k item).
  intros nc Hnc. apply Hholds, Hkept.
  - rewrite (init_constrs _ _ _ _ _ _ _ _ _ _ _ Hinit).
    apply in_or_app. right. apply in_or_app. right.
    eapply node_leaves_item_in; eauto.
  - unfold node_leaves_item in Hnc.
    destruct (is_root item); destruct Hnc as [<- | [<- | []]];
      split; try discriminate; intros; discriminate.
Qed.

Lemma init_mass_held (jm : option (list json_tree)) (eps : option Q)
    (ord : norm_order) (g : Q) (d : Z) (pos neg : option (list json_tree))
    (thr : Q) (vb : bool) (nt : nat) (self : KantchelianAttack)
    (a : var -> Q) (cs : list (cname * TempConstr)) :
  KantchelianAttack_init jm eps ord g d pos neg thr vb nt = Ok self ->
  (forall nc, In nc (constrs (m self)) -> kept_name (fst nc) -> In nc cs) ->
  (forall nc, In nc cs -> holds a (snd nc)) ->
  forest_mass_ok a (enumerate 0 (ensemble self)) 0.
Proof.
  intros Hinit Hkept Hholds.
  destruct (init_compiled _ _ _ _ _ _ _ _ _ _ _ Hinit) as [_ [_ [_ [Hcount _]]]].
  apply (leaf_sum_constraints_mass a _ 0 0).
  intros nc Hnc. apply Hholds, Hkept.
  - rewrite (init_constrs _ _ _ _ _ _ _ _ _ _ _ Hinit), Hcount.
    apply in_or_app. right. apply in_or_app. now left.
  - clear - Hnc. revert Hnc. generalize 0%nat at 1.
    generalize (0%nat :: running_counts 0 (enumerate 0 (ensemble self))).
    induction l as [| c l IH]; intros i Hnc; [contradiction |].
    destruct l as [| c' l]; [contradiction |].
    cbn [leaf_sum_constraints] in Hnc. destruct Hnc as [<- | Hnc].
    + split; [discriminate | intros; discriminate].
    + eapply IH; eauto.
Qed.

Lemma init_chain_held (jm : option (list json_tree)) (eps : option Q)
    (ord : norm_order) (g : Q) (d : Z) (pos neg : option (list json_tree))
    (thr : Q) (vb : bool) (nt : nat) (self : KantchelianAttack)
    (a : var -> Q) (cs : list (cname * TempConstr))
    (key : nat) (l : list (Q * var)) :
  KantchelianAttack_init jm eps ord g d pos neg thr vb nt = Ok self ->
  (forall nc, In nc (constrs (m self)) -> kept_name (fst nc) -> In nc cs) ->
  (forall nc, In nc cs -> holds a (snd nc)) ->
  In (key, l) (pdict self) ->
  forall i n1 n2, nth_error l i = Some n1 -> nth_error l (S i) = Some n2 ->
                  a (snd n1) <= a (snd n2).
Proof.
  intros Hinit Hkept Hholds Hin i n1 n2 H1 H2.
  destruct (init_pdict_entries _ _ _ _ _ _ _ _ _ _ _ key l Hinit Hin) as [Hb [El _]].
  assert (Hc : In (p_consis_attr key i,
                   mk_TempConstr (expr_var (snd n1)) LESS_EQUAL (expr_var (snd n2)))
                  (constrs (m self))).
  { rewrite (init_constrs _ _ _ _ _ _ _ _ _ _ _ Hinit).
    apply in_or_app. left. unfold p_constraints.
    apply p_constraints_cs_in. right.
    exists (key, entries_of key 0 (node_list (compiled self))).
    split; [exact Hb |]. cbn [fst snd]. rewrite <- El.
    exact (consis_loop_in key l 0 i 1000 n1 n2 H1 H2). }
  assert (Hk : kept_name (p_consis_attr key i))
    by (split; [discriminate | intros; discriminate]).
  pose proof (Hholds _ (Hkept _ Hc Hk)) as Hh.
  unfold holds in Hh. cbn [snd rel lhs rhs] in Hh.
  now rewrite !eval_var in Hh.
Qed.

Lemma init_guard_facts (jm : option (list json_tree)) (eps : option Q)
    (ord : norm_order) (g : Q) (d : Z) (pos neg : option (list json_tree))
    (thr : Q) (vb : bool) (nt : nat) (self : KantchelianAttack) :
  KantchelianAttack_init jm eps ord g d pos neg thr vb nt = Ok self ->
  0 < g ->
  0 < guard_val self /\
  forall key l gap,
    In (key, l) (pdict self) -> In gap (gaps (map fst l)) -> guard_val self <= gap.
Proof.
  intros Hinit Hg.
  destruct (init_pdict_guard _ _ _ _ _ _ _ _ _ _ _ Hinit) as [Hpd Hgv].
  assert (Hpos : 0 < guard_val self).
  { rewrite Hgv. apply fold_guard_step_pos; [exact Hg |].
    intros [k l] He.
    assert (Hin : In (k, sort_by_key l) (pdict self)).
    { rewrite Hpd. apply in_map_iff. exists (k, l). auto. }
    destruct (init_pdict_entries _ _ _ _ _ _ _ _ _ _ _ _ _ Hinit Hin)
      as [_ [_ Hs]].
    exact Hs. }
  split; [exact Hpos |].
  intros key l gap Hin Hgap.
  rewrite Hpd in Hin. apply in_map_iff in Hin. destruct Hin as [e [E He]].
  inversion E; subst.
  pose proof (fold_guard_step_gap _ g e gap He Hgap) as H2.
  rewrite <- Hgv in H2. lra.
Qed.

(** ** Soundness of the reconstruction *)

Lemma init_pdict_NoDup (jm : option (list json_tree)) (eps : option Q)
    (ord : norm_order) (g : Q) (d : Z) (pos neg : option (list json_tree))
    (thr : Q) (vb : bool) (nt : nat) (self : KantchelianAttack) :
  KantchelianAttack_init jm eps ord g d pos neg thr vb nt = Ok self ->
  NoDup (map fst (pdict self)).
Proof.
  intros Hinit.
  destruct (init_pdict_guard _ _ _ _ _ _ _ _ _ _ _ Hinit) as [Hpd _].
  rewrite Hpd, map_map. simpl.
  apply (build_pdict_spec (node_list (compiled self))).
Qed.

Lemma init_pdict_has (jm : option (list json_tree)) (eps : option Q)
    (ord : norm_order) (g : Q) (d : Z) (pos neg : option (list json_tree))
    (thr : Q) (vb : bool) (nt : nat) (self : KantchelianAttack)
    (j : nat) (node : node_wrapper) :
  KantchelianAttack_init jm eps ord g d pos neg thr vb nt = Ok self ->
  nth_error (node_list (compiled self)) j = Some node ->
  exists l, In (attribute node, l) (pdict self) /\ In (threshold node, P j) l.
Proof.
  intros Hinit Hj.
  destruct (init_pdict_guard _ _ _ _ _ _ _ _ _ _ _ Hinit) as [Hpd _].
  destruct (build_pdict_has _ j node Hj) as [H1 H2].
  exists (sort_by_key (entries_of (attribute node) 0 (node_list (compiled self)))).
  split.
  - rewrite Hpd. apply in_map_iff. eexists. split; [| exact H1]. reflexivity.
  - eapply Permutation_in; [apply sort_by_key_perm | exact H2].
Qed.

(** With a feasible assignment read back, the sample produced is, for every
    visit of a split, on the side that the split's variable says. *)
Lemma reconstruct_side_ok (jm : option (list json_tree)) (eps : option Q)
    (ord : norm_order) (g : Q) (d : Z) (pos neg : option (list json_tree))
    (thr : Q) (vb : bool) (nt : nat) (self : KantchelianAttack)
    (a : var -> Q) (cs : list (cname * TempConstr)) (x x' : sample) :
  KantchelianAttack_init jm eps ord g d pos neg thr vb nt = Ok self ->
  0 < g ->
  (forall nc, In nc (constrs (m self)) -> kept_name (fst nc) -> In nc cs) ->
  (forall nc, In nc cs -> holds a (snd nc)) ->
  (forall j, (j < n_P (m self))%nat -> a (P j) == 0 \/ a (P j) == 1) ->
  (forall key l, In (key, l) (pdict self) -> (key < length x)%nat) ->
  reconstruct a (guard_val self) (pdict self) x = Ok x' ->
  forall o, In o (forest_occurrences d (enumerate 0 (ensemble self)) 0) ->
            side_ok a x' o.
Proof.
  intros Hinit Hg Hkept Hholds Hbin Hcov Hrec o Ho.
  destruct (init_recorded _ _ _ _ _ _ _ _ _ _ _ Hinit) as [_ [Hrecd _]].
  destruct (Hrecd o Ho) as [j [node [_ [Hj [Hkey [_ Hitem]]]]]].
  destruct (init_pdict_has _ _ _ _ _ _ _ _ _ _ _ j node Hinit Hj) as [l [Hl Hjl]].
  destruct (init_guard_facts _ _ _ _ _ _ _ _ _ _ _ Hinit Hg) as [Hgpos Hgap].
  destruct (init_unfold _ _ _ _ _ _ _ _ _ _ _ Hinit)
    as [_ [_ [_ [_ [_ [_ [_ [_ [HnP _]]]]]]]]].
  pose proof (Hcov _ _ Hl) as Hlt.
  destruct (nth_error x (attribute node)) as [xk |] eqn:Ex;
    [| apply nth_error_None in Ex; lia].
  destruct (reconstruct_spec a (guard_val self) (pdict self) x
              (init_pdict_NoDup _ _ _ _ _ _ _ _ _ _ _ Hinit) Hcov)
    as [x1 [E [_ [Hkeys _]]]].
  rewrite E in Hrec. inversion Hrec; subst x1. clear Hrec.
  pose proof (Hkeys _ _ _ Hl Ex) as Hx'.
  assert (Hsep : StronglySorted (separated a (guard_val self)) l).
  { apply sorted_separated.
    - lra.
    - intros gap Hin. eapply Hgap; eauto.
    - eapply init_chain_held; eauto. }
  pose proof (nudge_all_consistent a (guard_val self) l xk _ Hgpos Hsep Hjl)
    as [Hc1 Hc2].
  cbn [fst snd] in Hc1, Hc2.
  destruct (init_coupling_held _ _ _ _ _ _ _ _ _ _ _ a cs j node (occ_item o)
              Hinit Hkept Hholds Hj Hitem) as [Hleft Hright].
  exists (a (P j)), (nudge_all a (guard_val self) l xk).
  rewrite <- Hkey. unfold node_key. cbn [fst snd].
  split; [exact Hx' |]. split.
  { apply Hbin. rewrite HnP. apply nth_error_Some. congruence. }
  auto.
Qed.

(** X9 (soundness of the reconstruction). Binary mode, positive guard value,
    every link resolving to both children, no threshold changed by the
    rounding: when the query is asked about the label that the raw trees
    predict and returns an example read back from a feasible assignment of
    the model it solved, the raw trees predict another label on that
    example. *)
Theorem reconstruction_sound (trees : list json_tree) (eps : option Q)
    (ord : norm_order) (g : Q) (d : Z) (thr : Q) (vb : bool) (nt : nat)
    (self self' : KantchelianAttack) (solver : Model -> Z * (var -> Q))
    (x x' : sample) (label : nat) :
  KantchelianAttack_init (Some trees) eps ord g d None None thr vb nt = Ok self ->
  forallb well_formed trees = true ->
  forallb (thresholds_rounded d) trees = true ->
  0 < g ->
  predict self x = Ok label ->
  optimal_adversarial_example solver self x label = Ok (Some x', self') ->
  feasible (m self') (X (m self')) ->
  exists pred', predict self x' = Ok pred' /\ pred' <> label.
Proof.
  intros Hinit Hwf Hrd Hg Hpred Hopt Hfeas.
  destruct (init_unfold _ _ _ _ _ _ _ _ _ _ _ Hinit)
    as [_ [Hb [Hjm [_ [_ [_ [Hthr [_ [HnP HnL]]]]]]]]].
  cbn in Hb.
  assert (Hens : ensemble self = trees) by (unfold ensemble; now rewrite Hb, Hjm).
  unfold optimal_adversarial_example in Hopt. rewrite Hpred in Hopt.
  cbn [bind] in Hopt. rewrite Nat.eqb_refl in Hopt. cbn [negb] in Hopt.
  destruct (minimal_distance_model self x label) as [m4 |] eqn:Em4; [| discriminate].
  cbn [bind] in Hopt.
  destruct (status (optimize solver m4) =? INFEASIBLE)%Z; [discriminate |].
  destruct (reconstruct (X (optimize solver m4)) (guard_val self) (pdict self) x)
    as [x1 |] eqn:Erec; [| discriminate].
  cbn [bind] in Hopt.
  destruct (predict self x1) as [pr |] eqn:Epr; [| discriminate].
  cbn [bind] in Hopt. inversion Hopt; subst x1 self'. clear Hopt.
  cbn [m set_m] in Hfeas.
  set (a := X (optimize solver m4)) in *.
  destruct Hfeas as [[HbP [HbL _]] Hcs].
  cbn [optimize n_P n_L constrs] in HbP, HbL, Hcs.
  destruct (minimal_distance_model_keeps _ _ _ _ Em4)
    as [EP [EL [_ [Hkept [Hmis Hcov]]]]].
  rewrite EP in HbP. rewrite EL in HbL.
  destruct (init_guard_facts _ _ _ _ _ _ _ _ _ _ _ Hinit Hg) as [Hgpos _].
  destruct (init_leaf_values _ _ _ _ _ _ _ _ _ _ _ Hinit) as [Hlv _].
  unfold ensemble_leaf_values in Hlv. rewrite Hb, Hens in Hlv.
  (* the weighted leaf sum is the value [check] computes on the example *)
  destruct (forest_value d a x' (enumerate 0 trees) 0) as [vs [Hvs Hval]].
  { now rewrite map_snd_enumerate. }
  { now rewrite map_snd_enumerate. }
  { intros i Hi. apply HbL. rewrite HnL, Hlv. lia. }
  { rewrite <- Hens.
    eapply reconstruct_side_ok; eauto. }
  { rewrite <- Hens. eapply init_mass_held; eauto. }
  rewrite map_snd_enumerate in Hvs.
  exists pr. split; [exact Epr |].
  unfold predict in Epr. rewrite Hb, Hjm in Epr. unfold check in Epr.
  rewrite Hvs in Epr. cbn [bind] in Epr.
  (* the "mislabel" constraint puts that value across the threshold *)
  pose proof (Hcs _ Hmis) as Hm. cbn [snd] in Hm.
  unfold mislabel_constr in Hm. rewrite Hb, HnL, Hlv in Hm. cbn [negb orb] in Hm.
  destruct (label =? 1)%nat eqn:El.
  - apply Nat.eqb_eq in El. subst label.
    unfold holds in Hm. cbn [rel lhs rhs] in Hm.
    rewrite eval_leaf_values, eval_const, Hval in Hm.
    assert (E : Qle_bool (pred_threshold self) (Qsum vs) = false).
    { apply Qle_bool_false. lra. }
    rewrite E in Epr. inversion Epr. discriminate.
  - apply Nat.eqb_neq in El.
    unfold holds in Hm. cbn [rel lhs rhs] in Hm.
    rewrite eval_leaf_values, eval_const, Hval in Hm.
    assert (E : Qle_bool (pred_threshold self) (Qsum vs) = true).
    { apply Qle_bool_iff. lra. }
    rewrite E in Epr. inversion Epr. congruence.
Qed.

Lemma stump_solution_feasible (mdl : Model) :
  n_P mdl = 1%nat -> n_L mdl = 2%nat -> B_bounds mdl = Some (0, None) ->
  (forall nc, In nc (constrs mdl) ->
     In (snd nc)
        [ mk_TempConstr (LinExpr_of [1; 1] [L 0; L 1]) EQUAL (expr_const 1);
          mk_TempConstr (expr_sub_var (ones_expr [L 0%nat]) (P 0)) EQUAL (expr_const 0);
          mk_TempConstr (expr_add_var (ones_expr [L 1%nat]) (P 0)) EQUAL (expr_const 1);
          mk_TempConstr (LinExpr_of [- (1); 1] [L 0; L 1]) GREATER_EQUAL
            (expr_const (0 + GUARD_VAL));
          mk_TempConstr
            (expr_add_const (LinExpr_of [- (2)] [P 0]) 2) LESS_EQUAL (expr_var B) ]) ->
  feasible mdl (snd (stump_solver mdl)).
Proof.
  intros HP HL HB Hcs. split.
  - split; [| split].
    + intros j _. left. reflexivity.
    + rewrite HL. intros [| [| i]] Hi; simpl; try lia; split; discriminate.
    + rewrite HB. simpl. discriminate.
  - intros nc Hnc. specialize (Hcs nc Hnc). simpl in Hcs.
    destruct Hcs as [<- | [<- | [<- | [<- | [<- | []]]]]];
      vm_compute; try reflexivity; discriminate.
Qed.

Lemma reconstruction_sound_witness :
  exists self self' x',
    KantchelianAttack_init (Some [stump]) None inf GUARD_VAL ROUND_DIGITS
      None None 0 false 1 = Ok self /\
    optimal_adversarial_example stump_solver self [3] 0 = Ok (Some x', self') /\
    exists pred', predict self x' = Ok pred' /\ pred' <> 0%nat.
Proof.
  destruct (KantchelianAttack_init (Some [stump]) None inf GUARD_VAL
              ROUND_DIGITS None None 0 false 1) as [self | e] eqn:E;
    [| vm_compute in E; discriminate E].
  pose proof E as E'. vm_compute in E'. injection E' as E'.
  destruct (optimal_adversarial_example stump_solver self [3] 0)
    as [[[x' |] self'] | e] eqn:Eo;
    [| subst self; vm_compute in Eo; discriminate Eo
     | subst self; vm_compute in Eo; discriminate Eo].
  exists self, self', x'. split; [reflexivity |]. split; [exact Eo |].
  refine (reconstruction_sound [stump] None inf GUARD_VAL ROUND_DIGITS 0 false 1
            self self' stump_solver [3] x' 0%nat E eq_refl eq_refl eq_refl _ Eo _).
  - subst self. reflexivity.
  - subst self. vm_compute in Eo. injection Eo as _ <-.
    apply (stump_solution_feasible
             (mk_Model 1 2 (Some (0, None)) _ _ _ _)); try reflexivity.
    intros nc Hnc. cbn in Hnc.
    destruct Hnc as [<- | [<- | [<- | [<- | [<- | []]]]]]; cbn; auto 10.
Defined.

(** ** The feasibility query at two radii *)

Lemma attack_model_with_B (self : KantchelianAttack) (b : option (Q * option Q))
    (x : sample) (label : nat) :
  is_None b = is_None (B_bounds (m self)) ->
  attack_model (set_m self (with_B_bounds (m self) b)) x label
    = (r <- attack_model self x label ;; Ok (with_B_bounds r b)).
Proof.
  intros Hb. unfold attack_model. cbn [m set_m guard_val pdict].
  change (mislabel_constr (set_m self (with_B_bounds (m self) b)) label)
    with (mislabel_constr self label).
  change (addConstr (try_remove (with_B_bounds (m self) b) mislabel) mislabel
            (mislabel_constr self label))
    with (with_B_bounds
            (addConstr (try_remove (m self) mislabel) mislabel
               (mislabel_constr self label)) b).
  rewrite attack_keys_with_B by exact Hb.
  destruct (foldM (attack_key (guard_val self) x) (pdict self)
              (addConstr (try_remove (m self) mislabel) mislabel
                 (mislabel_constr self label))); reflexivity.
Qed.

Lemma attack_model_B_bounds (self : KantchelianAttack) (x : sample) (label : nat)
    (mq : Model) :
  attack_model self x label = Ok mq -> B_bounds mq = B_bounds (m self).
Proof.
  unfold attack_model. intros H. bind_inv H. inversion H; subst. cbn.
  now rewrite (attack_keys_B_bounds _ _ _ _ _ Hr).
Qed.

Lemma with_B_bounds_id (mdl : Model) : with_B_bounds mdl (B_bounds mdl) = mdl.
Proof. now destruct mdl. Qed.

Lemma attack_model_congr (a a' : KantchelianAttack) (x : sample) (label : nat) :
  m a = m a' -> pdict a = pdict a' -> guard_val a = guard_val a' ->
  mislabel_constr a label = mislabel_constr a' label ->
  attack_model a x label = attack_model a' x label.
Proof.
  unfold attack_model. intros Hm Hp Hg Hc. rewrite Hm, Hp, Hg, Hc. reflexivity.
Qed.

(** The models the query solves at two positive radii: the one at the
    smaller radius is the other with a smaller upper bound on [B]. *)
Lemma attack_models_at_two_radii (jm : option (list json_tree)) (e1 e2 g : Q) (d : Z)
    (pos neg : option (list json_tree)) (thr : Q) (vb : bool) (nt : nat)
    (a1 a2 : KantchelianAttack) (x : sample) (label : nat) :
  ~ e1 == 0 -> ~ e2 == 0 ->
  KantchelianAttack_init jm (Some e1) inf g d pos neg thr vb nt = Ok a1 ->
  KantchelianAttack_init jm (Some e2) inf g d pos neg thr vb nt = Ok a2 ->
  (attack_model a1 x label
     = (r <- attack_model a2 x label ;;
        Ok (with_B_bounds r (Some (0, Some (e1 - (1 # 10000))))))) /\
  (forall m2, attack_model a2 x label = Ok m2 ->
              B_bounds m2 = Some (0, Some (e2 - (1 # 10000)))).
Proof.
  intros H1 H2 E1 E2.
  destruct (init_epsilon_change _ _ _ _ _ _ _ _ _ _ _ _ H1 H2 E1 E2)
    as [mdl [Hm1 [Hm2 [Hpd [Hgv Hmis]]]]].
  split.
  - rewrite <- (attack_model_with_B a2 (Some (0, Some (e1 - (1 # 10000)))) x label)
      by (rewrite Hm2; reflexivity).
    apply attack_model_congr.
    + cbn [m set_m]. rewrite Hm1, Hm2. reflexivity.
    + exact Hpd.
    + exact Hgv.
    + rewrite (Hmis label). reflexivity.
  - intros m2 Hm. rewrite (attack_model_B_bounds _ _ _ _ Hm), Hm2. reflexivity.
Qed.

(** X10 (monotonicity in epsilon). Two attackers built from the same arguments
    with radii [0 < eps1 <= eps2], and a solver that is exact on the models
    the query hands it: when the query answers "robust" at [eps2], it
    answers "robust" at [eps1]. *)
Theorem attack_epsilon_monotone (solver : Model -> Z * (var -> Q))
    (jm : option (list json_tree)) (eps1 eps2 g : Q) (d : Z)
    (pos neg : option (list json_tree)) (thr : Q) (vb : bool) (nt : nat)
    (a1 a2 s2 : KantchelianAttack) (x : sample) (label : nat) :
  0 < eps1 -> eps1 <= eps2 ->
  KantchelianAttack_init jm (Some eps1) inf g d pos neg thr vb nt = Ok a1 ->
  KantchelianAttack_init jm (Some eps2) inf g d pos neg thr vb nt = Ok a2 ->
  (forall mq, attack_model a1 x label = Ok mq -> exact_on solver mq) ->
  (forall mq, attack_model a2 x label = Ok mq -> exact_on solver mq) ->
  attack solver a2 x label = Ok (true, s2) ->
  exists s1, attack solver a1 x label = Ok (true, s1).
Proof.
  intros Hpos Hle E1 E2 Hex1 Hex2 Hatt.
  destruct (attack_models_at_two_radii jm eps1 eps2 g d pos neg thr vb nt a1 a2 x label)
    as [Hrel Hb2]; try assumption; try lra.
  unfold attack in Hatt |- *.
  destruct (attack_model a2 x label) as [m2 |] eqn:Em2; [| discriminate].
  cbn [bind] in Hatt, Hrel. rewrite Hrel. cbn [bind].
  injection Hatt as Hst Hs2.
  apply Z.eqb_eq in Hst. cbn [optimize status] in Hst.
  specialize (Hex1 _ Hrel). specialize (Hex2 _ eq_refl).
  apply Hex2 in Hst.
  assert (Hinf : fst (solver (with_B_bounds m2 (Some (0, Some (eps1 - (1 # 10000))))))
                 = INFEASIBLE).
  { apply Hex1. intros [asg Hf]. apply Hst. exists asg.
    rewrite <- (with_B_bounds_id m2), (Hb2 m2 eq_refl).
    eapply feasible_wider_B; [| exact Hf]. lra. }
  cbn [optimize status]. rewrite Hinf. eexists. reflexivity.
Qed.

(** The stump queried at [[3]] with label 0: flipping the prediction costs
    distance 2, so no assignment is feasible below that radius. *)
Lemma stump_query_infeasible (mq : Model) (ub : Q) :
  ub < 2 -> n_P mq = 1%nat -> B_bounds mq = Some (0, Some ub) ->
  In (p_root_left 0 0,
      mk_TempConstr (expr_sub_var (ones_expr [L 0%nat]) (P 0)) EQUAL (expr_const 0))
     (constrs mq) ->
  In (p_root_right 0 0,
      mk_TempConstr (expr_add_var (ones_expr [L 1%nat]) (P 0)) EQUAL (expr_const 1))
     (constrs mq) ->
  In (mislabel,
      mk_TempConstr (LinExpr_of [- (1); 1] [L 0; L 1]) GREATER_EQUAL
        (expr_const (0 + GUARD_VAL))) (constrs mq) ->
  In (linf_constr_attr 0,
      mk_TempConstr (expr_add_const (LinExpr_of [- (2)] [P 0]) 2) LESS_EQUAL
        (expr_var B)) (constrs mq) ->
  ~ exists a, feasible mq a.
Proof.
  intros Hub HP HB Hl Hr Hm Hd [a [[HbP [_ HbB]] Hcs]].
  rewrite HB in HbB.
  assert (H0 : a (P 0%nat) == 0 \/ a (P 0%nat) == 1) by (apply HbP; lia).
  apply Hcs in Hl, Hr, Hm, Hd.
  unfold holds, eval_expr in Hl, Hr, Hm, Hd.
  cbn [snd rel lhs rhs terms constant expr_sub_var expr_add_var expr_const
       expr_var expr_add_const ones_expr LinExpr_of combine map repeat length
       app Qsum fold_right fst] in Hl, Hr, Hm, Hd.
  unfold GUARD_VAL in Hm.
  destruct H0 as [H0 | H0]; rewrite H0 in *; lra.
Qed.

Lemma attack_epsilon_monotone_witness :
  exists a1 s1,
    KantchelianAttack_init (Some [stump]) (Some (1 # 2)) inf GUARD_VAL ROUND_DIGITS
      None None 0 false 1 = Ok a1 /\
    attack never_feasible a1 [3] 0 = Ok (true, s1).
Proof.
  destruct (KantchelianAttack_init (Some [stump]) (Some (1 # 2)) inf GUARD_VAL
              ROUND_DIGITS None None 0 false 1) as [a1 | e] eqn:E1;
    [| vm_compute in E1; discriminate E1].
  destruct (KantchelianAttack_init (Some [stump]) (Some 1) inf GUARD_VAL
              ROUND_DIGITS None None 0 false 1) as [a2 | e] eqn:E2;
    [| vm_compute in E2; discriminate E2].
  pose proof E1 as E1'. vm_compute in E1'. injection E1' as E1'.
  pose proof E2 as E2'. vm_compute in E2'. injection E2' as E2'.
  exists a1.
  assert (Hex : forall (a : KantchelianAttack) (ub : Q) mq,
            ub < 2 ->
            attack_model a [3] 0
              = Ok (mk_Model 1 2 (Some (0, Some ub))
                      [ (leaf_sum_one_for_tree 0,
                         mk_TempConstr (LinExpr_of [1; 1] [L 0; L 1]) EQUAL
                           (expr_const 1));
                        (p_root_left 0 0,
                         mk_TempConstr (expr_sub_var (ones_expr [L 0%nat]) (P 0))
                           EQUAL (expr_const 0));
                        (p_root_right 0 0,
                         mk_TempConstr (expr_add_var (ones_expr [L 1%nat]) (P 0))
                           EQUAL (expr_const 1));
                        (mislabel,
                         mk_TempConstr (LinExpr_of [- (1); 1] [L 0; L 1])
                           GREATER_EQUAL (expr_const (0 + GUARD_VAL)));
                        (linf_constr_attr 0,
                         mk_TempConstr (expr_add_const (LinExpr_of [- (2)] [P 0]) 2)
                           LESS_EQUAL (expr_var B)) ]
                      (expr_const 0) LOADED (fun _ => 0)) ->
            attack_model a [3] 0 = Ok mq -> exact_on never_feasible mq).
  { intros a ub mq Hub Ha Hq. rewrite Ha in Hq. injection Hq as <-.
    split; [intros _ | reflexivity].
    apply (stump_query_infeasible _ ub Hub); cbn; auto 10. }
  destruct (fun H1 H2 H3 H4 H5 => attack_epsilon_monotone never_feasible (Some [stump]) (1 # 2) 1
            GUARD_VAL ROUND_DIGITS None None 0 false 1 a1 a2
            (set_m a2 (optimize never_feasible
                         match attack_model a2 [3] 0 with
                         | Ok mq => mq
                         | Raise _ => m a2
                         end))
            [3] 0%nat H1 H2 E1 E2 H3 H4 H5) as [s1 Hs1].
  - reflexivity.
  - discriminate.
  - intros mq. apply (Hex a1 ((1 # 2) - (1 # 10000))); [reflexivity |].
    subst a1. reflexivity.
  - intros mq. apply (Hex a2 (1 - (1 # 10000))); [reflexivity |].
    subst a2. reflexivity.
  - subst a2. reflexivity.
  - exists s1. split; [reflexivity | exact Hs1].
Defined.

(** ** Repeated queries on one attacker *)

Lemma remove_first_absent (name : cname) (cs : list (cname * TempConstr)) :
  (forall nc, In nc cs -> fst nc <> name) -> remove_first name cs = cs.
Proof.
  induction cs as [| c cs IH]; intros H; [reflexivity |]. simpl.
  destruct (cname_eqb (fst c) name) eqn:E.
  - apply cname_eqb_eq in E. exfalso. apply (H c); [now left | exact E].
  - f_equal. apply IH. intros nc Hnc. apply H. now right.
Qed.

Lemma remove_first_app (name : cname) (a b : list (cname * TempConstr)) :
  (forall nc, In nc a -> fst nc <> name) ->
  remove_first name (a ++ b) = a ++ remove_first name b.
Proof.
  induction a as [| c a IH]; intros H; [reflexivity |]. simpl.
  destruct (cname_eqb (fst c) name) eqn:E.
  - apply cname_eqb_eq in E. exfalso. apply (H c); [now left | exact E].
  - f_equal. apply IH. intros nc Hnc. apply H. now right.
Qed.

Lemma remove_first_head (name : cname) (c : TempConstr)
    (b : list (cname * TempConstr)) :
  remove_first name ((name, c) :: b) = b.
Proof.
  simpl. destruct (cname_eqb name name) eqn:E; [reflexivity |].
  assert (H : cname_eqb name name = true) by now apply cname_eqb_eq.
  congruence.
Qed.

Lemma linf_part_names (f : nat * list (Q * var) -> option TempConstr) (pd : pdict_t)
    (nc : cname * TempConstr) :
  In nc (linf_part f pd) ->
  exists e, In e pd /\ fst nc = linf_constr_attr (fst e).
Proof.
  unfold linf_part. intros H. apply in_flat_map in H. destruct H as [e [He H]].
  exists e. split; [exact He |]. destruct (f e); [| contradiction].
  destruct H as [<- | []]. reflexivity.
Qed.

Lemma linf_part_none (pd : pdict_t) : linf_part (fun _ => None) pd = [].
Proof. induction pd as [| e pd IH]; [reflexivity | exact IH]. Qed.

Lemma linf_part_ext (f f' : nat * list (Q * var) -> option TempConstr) (pd : pdict_t) :
  (forall e, In e pd -> f e = f' e) -> linf_part f pd = linf_part f' pd.
Proof.
  induction pd as [| e pd IH]; intros H; [reflexivity |].
  unfold linf_part. cbn [flat_map]. fold (linf_part f pd). fold (linf_part f' pd).
  rewrite (H e) by now left. f_equal. apply IH. intros e' He'. apply H. now right.
Qed.

Lemma replace_linf (base done : list (cname * TempConstr))
    (f : nat * list (Q * var) -> option TempConstr) (e : nat * list (Q * var))
    (pd : pdict_t) :
  (forall nc, In nc base -> kept_name (fst nc)) ->
  ~ In (fst e) (map fst pd) ->
  (forall nc, In nc done -> fst nc <> linf_constr_attr (fst e)) ->
  remove_first (linf_constr_attr (fst e)) (base ++ linf_part f (e :: pd) ++ done)
  = base ++ linf_part f pd ++ done.
Proof.
  intros Hb Hk Hd.
  rewrite remove_first_app by (intros nc Hnc; apply (proj2 (Hb nc Hnc))).
  f_equal.
  assert (Habs : remove_first (linf_constr_attr (fst e)) (linf_part f pd ++ done)
                 = linf_part f pd ++ done).
  { apply remove_first_absent. intros nc Hnc. apply in_app_or in Hnc.
    destruct Hnc as [Hnc | Hnc]; [| now apply Hd].
    apply linf_part_names in Hnc. destruct Hnc as [e' [He' ->]].
    intros Heq. injection Heq as Heq. apply Hk. rewrite <- Heq.
    now apply in_map. }
  unfold linf_part. cbn [flat_map]. fold (linf_part f pd).
  destruct (f e) as [c |]; cbn [app].
  - apply remove_first_head.
  - exact Habs.
Qed.

Lemma replace_mislabel (base mis : list (cname * TempConstr))
    (f : nat * list (Q * var) -> option TempConstr) (pd : pdict_t) :
  (forall nc, In nc base -> kept_name (fst nc)) ->
  mis = [] \/ (exists c, mis = [(mislabel, c)]) ->
  remove_first mislabel (base ++ mis ++ linf_part f pd) = base ++ linf_part f pd.
Proof.
  intros Hb Hmis.
  rewrite remove_first_app by (intros nc Hnc; apply (proj1 (Hb nc Hnc))).
  f_equal. destruct Hmis as [-> | [c ->]]; cbn [app].
  - apply remove_first_absent. intros nc Hnc.
    apply linf_part_names in Hnc. destruct Hnc as [e [_ ->]]. discriminate.
  - apply remove_first_head.
Qed.

(** What one feature does to the model does not depend on the constraints,
    the objective and the solution the model holds. *)
Lemma attack_key_cases (g : Q) (x : sample) (nP nL : nat)
    (bb : option (Q * option Q)) (e : nat * list (Q * var)) :
  (exists ex, forall cs obj st xv,
      attack_key g x (mk_Model nP nL bb cs obj st xv) e = Raise ex) \/
  (is_None bb = false /\
   exists c, forall cs obj st xv,
      attack_key g x (mk_Model nP nL bb cs obj st xv) e
      = Ok (mk_Model nP nL bb
              (remove_first (linf_constr_attr (fst e)) cs
                 ++ [(linf_constr_attr (fst e), c)]) obj st xv)).
Proof.
  unfold attack_key.
  destruct (length (snd e) =? 0)%nat; [left; eexists; reflexivity |].
  destruct (getitem x (fst e)) as [xk | ex]; [| left; exists ex; reflexivity].
  cbn [bind].
  destruct (w_list (fun d => d) g xk (map fst (snd e))) as [w | ex];
    [| left; exists ex; reflexivity].
  cbn [bind try_remove B_bounds].
  destruct (is_None bb) eqn:Eb; [left; eexists; reflexivity |].
  right. split; [reflexivity |]. eexists. intros. reflexivity.
Qed.

Lemma attack_keys_two_runs (g : Q) (x : sample) (base : list (cname * TempConstr))
    (f : nat * list (Q * var) -> option TempConstr)
    (nP nL : nat) (bb : option (Q * option Q)) (obj : LinExpr) (st : Z)
    (xv : var -> Q) :
  (forall nc, In nc base -> kept_name (fst nc)) ->
  forall (pd : pdict_t) (done : list (cname * TempConstr)),
    NoDup (map fst pd) ->
    (forall nc e, In nc done -> In e pd -> fst nc <> linf_constr_attr (fst e)) ->
    foldM (attack_key g x) pd
      (mk_Model nP nL bb (base ++ linf_part f pd ++ done) obj st xv)
    = foldM (attack_key g x) pd (mk_Model nP nL bb (base ++ done) obj st xv).
Proof.
  intros Hb. induction pd as [| e pd IH]; intros done Hnd Hdone; [reflexivity |].
  cbn [foldM]. cbn [map] in Hnd. apply NoDup_cons_iff in Hnd.
  destruct Hnd as [Hk Hnd].
  destruct (attack_key_cases g x nP nL bb e) as [[ex H] | [_ [c H]]];
    rewrite !H; cbn [bind]; [reflexivity |].
  rewrite replace_linf; [| exact Hb | exact Hk |
    intros nc Hnc; apply (Hdone nc e Hnc); now left].
  rewrite (remove_first_absent (linf_constr_attr (fst e)) (base ++ done)).
  2:{ intros nc Hnc. apply in_app_or in Hnc. destruct Hnc as [Hnc | Hnc].
      - apply (proj2 (Hb nc Hnc)).
      - apply (Hdone nc e Hnc). now left. }
  rewrite <- !app_assoc. apply IH; [exact Hnd |].
  intros nc e' Hnc He'. apply in_app_or in Hnc. destruct Hnc as [Hnc | [<- | []]].
  - apply (Hdone nc e' Hnc). now right.
  - cbn [fst]. intros Heq. injection Heq as Heq. apply Hk. rewrite Heq.
    now apply in_map.
Qed.

Lemma attack_keys_shape (g : Q) (x : sample) (base : list (cname * TempConstr))
    (nP nL : nat) (bb : option (Q * option Q)) :
  (forall nc, In nc base -> kept_name (fst nc)) ->
  forall (pd : pdict_t) (done : list (cname * TempConstr)),
    NoDup (map fst pd) ->
    (forall nc e, In nc done -> In e pd -> fst nc <> linf_constr_attr (fst e)) ->
    (exists ex, forall obj st xv,
        foldM (attack_key g x) pd (mk_Model nP nL bb (base ++ done) obj st xv)
        = Raise ex) \/
    ((is_None bb = true -> pd = []) /\
     exists f', forall obj st xv,
        foldM (attack_key g x) pd (mk_Model nP nL bb (base ++ done) obj st xv)
        = Ok (mk_Model nP nL bb (base ++ done ++ linf_part f' pd) obj st xv)).
Proof.
  intros Hb. induction pd as [| e pd IH]; intros done Hnd Hdone.
  - right. split; [reflexivity |]. exists (fun _ => None). intros.
    cbn [foldM linf_part flat_map]. now rewrite app_nil_r.
  - cbn [map] in Hnd. apply NoDup_cons_iff in Hnd. destruct Hnd as [Hk Hnd].
    destruct (attack_key_cases g x nP nL bb e) as [[ex H] | [Hbb [c H]]].
    { left. exists ex. intros. cbn [foldM]. now rewrite H. }
    assert (Habs : remove_first (linf_constr_attr (fst e)) (base ++ done)
                   = base ++ done).
    { apply remove_first_absent. intros nc Hnc. apply in_app_or in Hnc.
      destruct Hnc as [Hnc | Hnc].
      - apply (proj2 (Hb nc Hnc)).
      - apply (Hdone nc e Hnc). now left. }
    destruct (IH (done ++ [(linf_constr_attr (fst e), c)]) Hnd)
      as [[ex H'] | [_ [f' H']]].
    { intros nc e' Hnc He'. apply in_app_or in Hnc.
      destruct Hnc as [Hnc | [<- | []]].
      - apply (Hdone nc e' Hnc). now right.
      - cbn [fst]. intros Heq. injection Heq as Heq. apply Hk. rewrite Heq.
        now apply in_map. }
    + left. exists ex. intros. cbn [foldM]. rewrite H. cbn [bind].
      rewrite Habs, <- app_assoc. apply H'.
    + right. split; [intros Hn; congruence |].
      exists (fun e0 => if (fst e0 =? fst e)%nat then Some c else f' e0).
      assert (Hl : linf_part
                     (fun e0 => if (fst e0 =? fst e)%nat then Some c else f' e0)
                     (e :: pd)
                   = (linf_constr_attr (fst e), c) :: linf_part f' pd).
      { unfold linf_part at 1. cbn [flat_map]. rewrite Nat.eqb_refl. cbn [app].
        apply (f_equal (cons (linf_constr_attr (fst e), c))).
        apply linf_part_ext. intros e0 He0.
        destruct (fst e0 =? fst e)%nat eqn:E; [| reflexivity].
        apply Nat.eqb_eq in E. exfalso. apply Hk. rewrite <- E. now apply in_map. }
      intros. cbn [foldM]. rewrite H. cbn [bind].
      rewrite Habs, <- app_assoc, H', Hl, <- app_assoc. reflexivity.
Qed.

(** The keys loop of a query, entered after "mislabel" was replaced: its
    outcome is the same whatever earlier queries left in the model. *)
Lemma keys_outcome (g : Q) (x : sample) (base : list (cname * TempConstr))
    (nP nL : nat) (bb : option (Q * option Q)) (pd : pdict_t) (c' : TempConstr) :
  (forall nc, In nc base -> kept_name (fst nc)) ->
  NoDup (map fst pd) ->
  (exists ex, forall mis f obj st xv,
      mis = [] \/ (exists c, mis = [(mislabel, c)]) ->
      foldM (attack_key g x) pd
        (mk_Model nP nL bb
           (remove_first mislabel (base ++ mis ++ linf_part f pd) ++ [(mislabel, c')])
           obj st xv) = Raise ex) \/
  ((is_None bb = true -> pd = []) /\
   exists f', forall mis f obj st xv,
      mis = [] \/ (exists c, mis = [(mislabel, c)]) ->
      foldM (attack_key g x) pd
        (mk_Model nP nL bb
           (remove_first mislabel (base ++ mis ++ linf_part f pd) ++ [(mislabel, c')])
           obj st xv)
      = Ok (mk_Model nP nL bb (base ++ [(mislabel, c')] ++ linf_part f' pd)
              obj st xv)).
Proof.
  intros Hb Hnd.
  assert (Hdone : forall nc (e : nat * list (Q * var)),
            In nc [(mislabel, c')] -> In e pd -> fst nc <> linf_constr_attr (fst e)).
  { intros nc e [<- | []] _. discriminate. }
  assert (Hrew : forall mis f obj st xv,
            mis = [] \/ (exists c, mis = [(mislabel, c)]) ->
            foldM (attack_key g x) pd
              (mk_Model nP nL bb
                 (remove_first mislabel (base ++ mis ++ linf_part f pd)
                    ++ [(mislabel, c')]) obj st xv)
            = foldM (attack_key g x) pd
                (mk_Model nP nL bb (base ++ [(mislabel, c')]) obj st xv)).
  { intros mis f obj st xv Hmis. rewrite (replace_mislabel base mis f pd Hb Hmis).
    rewrite <- app_assoc.
    apply (attack_keys_two_runs g x base f nP nL bb obj st xv Hb pd _ Hnd Hdone). }
  destruct (attack_keys_shape g x base nP nL bb Hb pd [(mislabel, c')] Hnd Hdone)
    as [[ex H] | [Hbb [f' H]]].
  - left. exists ex. intros. rewrite Hrew by assumption. apply H.
  - right. split; [exact Hbb |]. exists f'. intros. rewrite Hrew by assumption.
    apply H.
Qed.

(** *** The names of the constraints the constructor adds *)

Lemma consis_loop_kept (key : nat) (l : list (Q * var)) :
  forall (i : nat) (md : Q) (nc : cname * TempConstr),
    In nc (fst (consis_loop key i l md)) -> kept_name (fst nc).
Proof.
  induction l as [| a l IH]; intros i md nc H; [contradiction |].
  destruct l as [| b l]; [contradiction |].
  change (fst (consis_loop key i (a :: b :: l) md))
    with ((p_consis_attr key i,
           mk_TempConstr (expr_var (snd a)) LESS_EQUAL (expr_var (snd b)))
          :: fst (consis_loop key (S i) (b :: l) (py_min md (fst b - fst a)))) in H.
  destruct H as [<- | H]; [| eapply IH; exact H].
  split; [discriminate | intros; discriminate].
Qed.

Lemma p_constraints_kept (pd : pdict_t) :
  forall (pd0 : pdict_t) (cs0 : list (cname * TempConstr)) (g0 : Q),
    (forall nc, In nc cs0 -> kept_name (fst nc)) ->
    forall nc, In nc (snd (fst (fold_left p_constraints_key pd (pd0, cs0, g0)))) ->
               kept_name (fst nc).
Proof.
  induction pd as [| e pd IH]; intros pd0 cs0 g0 H0 nc H; cbn [fold_left] in H.
  - now apply H0.
  - destruct (p_constraints_key (pd0, cs0, g0) e) as [[pd1 cs1] g1] eqn:E.
    apply (IH pd1 cs1 g1); [| exact H].
    unfold p_constraints_key in E.
    destruct (1 <? length (snd e))%nat; inversion E; subst; [| exact H0].
    intros nc' Hnc'. apply in_app_or in Hnc'. destruct Hnc' as [Hnc' | Hnc'].
    + now apply H0.
    + eapply consis_loop_kept; exact Hnc'.
Qed.

Lemma leaf_sum_constraints_kept (counts : list nat) :
  forall (i : nat) (nc : cname * TempConstr),
    In nc (leaf_sum_constraints i counts) -> kept_name (fst nc).
Proof.
  induction counts as [| a counts IH]; intros i nc H; [contradiction |].
  destruct counts as [| b rest]; [contradiction |].
  cbn [leaf_sum_constraints] in H. destruct H as [<- | H].
  - split; [discriminate | intros; discriminate].
  - eapply IH; exact H.
Qed.

Lemma node_leaves_constraints_kept (nodes : list node_wrapper)
    (nc : cname * TempConstr) :
  In nc (node_leaves_constraints nodes) -> kept_name (fst nc).
Proof.
  unfold node_leaves_constraints. intros H.
  apply in_flat_map in H. destruct H as [jn [_ H]].
  apply in_flat_map in H. destruct H as [ki [_ H]].
  unfold node_leaves_item in H.
  destruct (is_root (snd ki)); destruct H as [<- | [<- | []]];
    (split; [discriminate | intros; discriminate]).
Qed.

Lemma init_constrs_kept (jm : option (list json_tree)) (eps : option Q)
    (ord : norm_order) (g : Q) (d : Z) (pos neg : option (list json_tree))
    (thr : Q) (vb : bool) (nt : nat) (self : KantchelianAttack) :
  KantchelianAttack_init jm eps ord g d pos neg thr vb nt = Ok self ->
  forall nc, In nc (constrs (m self)) -> kept_name (fst nc).
Proof.
  intros Hinit nc H. rewrite (init_constrs _ _ _ _ _ _ _ _ _ _ _ Hinit) in H.
  apply in_app_or in H. destruct H as [H | H].
  - unfold p_constraints in H.
    eapply (p_constraints_kept _ [] [] g); [| exact H]. intros ? [].
  - apply in_app_or in H. destruct H as [H | H].
    + eapply leaf_sum_constraints_kept; exact H.
    + eapply node_leaves_constraints_kept; exact H.
Qed.

Lemma init_finite_order (jm : option (list json_tree)) (eps : option Q)
    (ord : norm_order) (g : Q) (d : Z) (pos neg : option (list json_tree))
    (thr : Q) (vb : bool) (nt : nat) (self : KantchelianAttack) :
  KantchelianAttack_init jm eps ord g d pos neg thr vb nt = Ok self ->
  order self <> inf -> B_bounds (m self) = None.
Proof.
  unfold KantchelianAttack_init.
  destruct (negb (is_None eps || is_inf ord)) eqn:Ea; [discriminate |].
  intros H. bind_inv H.
  destruct (p_constraints (build_pdict (node_list r)) g) as [[pd cs] g'].
  inversion H; subst; cbn. intros Hord.
  destruct ord as [| rho]; [contradiction |].
  destruct eps as [e |]; [discriminate | reflexivity].
Qed.

(** *** The two queries on an attacker that was queried before *)

Lemma same_but_m (s self : KantchelianAttack) :
  set_m s (m self) = self ->
  guard_val s = guard_val self /\ pdict s = pdict self /\ order s = order self /\
  (forall x, predict s x = predict self x) /\
  (forall m', set_m s m' = set_m self m') /\
  (n_L (m s) = n_L (m self) -> forall l, mislabel_constr s l = mislabel_constr self l).
Proof.
  destruct self, s. unfold set_m. cbn. intros H. injection H as; subst.
  repeat split. intros Hn l. unfold mislabel_constr. cbn. now rewrite Hn.
Qed.

Lemma objective_key_inf (g : Q) (x : sample) (mdl : Model)
    (t : Q * list Q * list var) (e : nat * list (Q * var)) :
  objective_key inf g x (mdl, t) e = (r <- attack_key g x mdl e ;; Ok (r, t)).
Proof.
  destruct t as [[c cl] vl]. unfold objective_key, attack_key. cbn [fst snd].
  destruct (length (snd e) =? 0)%nat; [reflexivity |].
  destruct (getitem x (fst e)) as [xk |]; [| reflexivity]. cbn [bind].
  change (fun d : Q => Qpower d (Z.of_nat 1)) with (fun d : Q => d).
  destruct (w_list (fun d => d) g xk (map fst (snd e))) as [w |]; [| reflexivity].
  cbn [bind]. destruct (is_None _); reflexivity.
Qed.

Lemma objective_keys_inf (g : Q) (x : sample) (pd : pdict_t) :
  forall (mdl : Model) (t : Q * list Q * list var),
    foldM (objective_key inf g x) pd (mdl, t)
    = (r <- foldM (attack_key g x) pd mdl ;; Ok (r, t)).
Proof.
  induction pd as [| e pd IH]; intros mdl t; [reflexivity |].
  cbn [foldM]. rewrite objective_key_inf.
  destruct (attack_key g x mdl e); cbn [bind]; [apply IH | reflexivity].
Qed.

Lemma objective_keys_Lp (rho : nat) (g : Q) (x : sample) (pd : pdict_t) :
  forall t : Q * list Q * list var,
    (exists ex, forall mdl,
        foldM (objective_key (Lp rho) g x) pd (mdl, t) = Raise ex) \/
    (exists t', forall mdl,
        foldM (objective_key (Lp rho) g x) pd (mdl, t) = Ok (mdl, t')).
Proof.
  induction pd as [| e pd IH]; intros t.
  - right. exists t. reflexivity.
  - assert (Hstep : (exists ex, forall mdl,
                        objective_key (Lp rho) g x (mdl, t) e = Raise ex) \/
                    (exists t1, forall mdl,
                        objective_key (Lp rho) g x (mdl, t) e = Ok (mdl, t1))).
    { destruct t as [[c cl] vl]. unfold objective_key. cbn [fst snd].
      destruct (length (snd e) =? 0)%nat; [left; eexists; reflexivity |].
      destruct (getitem x (fst e)) as [xk | ex]; [| left; exists ex; reflexivity].
      cbn [bind].
      destruct (w_list _ g xk (map fst (snd e))) as [w | ex];
        [| left; exists ex; reflexivity].
      cbn [bind]. right. eexists. intros. reflexivity. }
    destruct Hstep as [[ex H] | [t1 H]].
    + left. exists ex. intros. cbn [foldM]. now rewrite H.
    + destruct (IH t1) as [[ex H'] | [t' H']].
      * left. exists ex. intros. cbn [foldM]. rewrite H. apply H'.
      * right. exists t'. intros. cbn [foldM]. rewrite H. apply H'.
Qed.

(** The model of the feasibility query, whatever earlier queries left. *)
Lemma attack_model_outcome (self : KantchelianAttack) (x : sample) (l : nat) :
  (forall nc, In nc (constrs (m self)) -> kept_name (fst nc)) ->
  NoDup (map fst (pdict self)) ->
  (order self <> inf -> B_bounds (m self) = None) ->
  (exists ex, forall s mis f obj st xv,
      set_m s (m self) = self ->
      mis = [] \/ (exists c, mis = [(mislabel, c)]) ->
      m s = mk_Model (n_P (m self)) (n_L (m self)) (B_bounds (m self))
              (constrs (m self) ++ mis ++ linf_part f (pdict self)) obj st xv ->
      attack_model s x l = Raise ex) \/
  (exists f',
      (order self <> inf -> linf_part f' (pdict self) = []) /\
      forall s mis f obj st xv,
        set_m s (m self) = self ->
        mis = [] \/ (exists c, mis = [(mislabel, c)]) ->
        m s = mk_Model (n_P (m self)) (n_L (m self)) (B_bounds (m self))
                (constrs (m self) ++ mis ++ linf_part f (pdict self)) obj st xv ->
        attack_model s x l
        = Ok (mk_Model (n_P (m self)) (n_L (m self)) (B_bounds (m self))
                (constrs (m self) ++ [(mislabel, mislabel_constr self l)]
                   ++ linf_part f' (pdict self))
                (expr_const 0) st xv)).
Proof.
  intros Hb Hnd Hord.
  destruct (keys_outcome (guard_val self) x (constrs (m self)) (n_P (m self))
              (n_L (m self)) (B_bounds (m self)) (pdict self)
              (mislabel_constr self l) Hb Hnd) as [[ex H] | [Hbb [f' H]]].
  - left. exists ex. intros s mis f obj st xv Hs Hmis Hm.
    destruct (same_but_m s self Hs) as [Hg [Hp [_ [_ [_ Hc]]]]].
    unfold attack_model. rewrite Hg, Hp, Hc by (rewrite Hm; reflexivity).
    rewrite Hm. unfold try_remove, addConstr.
    cbn [n_P n_L B_bounds constrs objective status X].
    rewrite H by exact Hmis. reflexivity.
  - right. exists f'. split.
    { intros Ho. rewrite Hbb; [reflexivity |]. now rewrite (Hord Ho). }
    intros s mis f obj st xv Hs Hmis Hm.
    destruct (same_but_m s self Hs) as [Hg [Hp [_ [_ [_ Hc]]]]].
    unfold attack_model. rewrite Hg, Hp, Hc by (rewrite Hm; reflexivity).
    rewrite Hm. unfold try_remove, addConstr.
    cbn [n_P n_L B_bounds constrs objective status X].
    rewrite H by exact Hmis. reflexivity.
Qed.

(** The model of the minimal-distance query, whatever earlier queries left. *)
Lemma minimal_distance_model_outcome (self : KantchelianAttack) (x : sample) (l : nat) :
  (forall nc, In nc (constrs (m self)) -> kept_name (fst nc)) ->
  NoDup (map fst (pdict self)) ->
  (exists ex, forall s mis f obj st xv,
      set_m s (m self) = self ->
      mis = [] \/ (exists c, mis = [(mislabel, c)]) ->
      (order self <> inf -> linf_part f (pdict self) = []) ->
      m s = mk_Model (n_P (m self)) (n_L (m self)) (B_bounds (m self))
              (constrs (m self) ++ mis ++ linf_part f (pdict self)) obj st xv ->
      minimal_distance_model s x l = Raise ex) \/
  (exists f' obj',
      (order self <> inf -> linf_part f' (pdict self) = []) /\
      forall s mis f obj st xv,
        set_m s (m self) = self ->
        mis = [] \/ (exists c, mis = [(mislabel, c)]) ->
        (order self <> inf -> linf_part f (pdict self) = []) ->
        m s = mk_Model (n_P (m self)) (n_L (m self)) (B_bounds (m self))
                (constrs (m self) ++ mis ++ linf_part f (pdict self)) obj st xv ->
        minimal_distance_model s x l
        = Ok (mk_Model (n_P (m self)) (n_L (m self)) (B_bounds (m self))
                (constrs (m self) ++ [(mislabel, mislabel_constr self l)]
                   ++ linf_part f' (pdict self))
                obj' st xv)).
Proof.
  intros Hb Hnd. destruct (order self) as [| rho] eqn:Eo.
  - destruct (keys_outcome (guard_val self) x (constrs (m self)) (n_P (m self))
                (n_L (m self)) (B_bounds (m self)) (pdict self)
                (mislabel_constr self l) Hb Hnd) as [[ex H] | [Hbb [f' H]]].
    + left. exists ex. intros s mis f obj st xv Hs Hmis _ Hm.
      destruct (same_but_m s self Hs) as [Hg [Hp [Ho [_ [_ Hc]]]]].
      unfold minimal_distance_model.
      rewrite Hg, Hp, Ho, Eo, Hc by (rewrite Hm; reflexivity).
      rewrite objective_keys_inf, Hm.
      unfold try_remove, addConstr.
    cbn [n_P n_L B_bounds constrs objective status X].
      rewrite H by exact Hmis. reflexivity.
    + right. exists f', (expr_var B). split; [intros Hne; now elim Hne |].
      intros s mis f obj st xv Hs Hmis _ Hm.
      destruct (same_but_m s self Hs) as [Hg [Hp [Ho [_ [_ Hc]]]]].
      unfold minimal_distance_model.
      rewrite Hg, Hp, Ho, Eo, Hc by (rewrite Hm; reflexivity).
      rewrite objective_keys_inf, Hm.
      unfold try_remove, addConstr.
    cbn [n_P n_L B_bounds constrs objective status X].
      rewrite H by exact Hmis. reflexivity.
  - destruct (objective_keys_Lp rho (guard_val self) x (pdict self) (0, [], []))
      as [[ex H] | [[[c cl] vl] H]].
    + left. exists ex. intros s mis f obj st xv Hs Hmis _ Hm.
      destruct (same_but_m s self Hs) as [Hg [Hp [Ho [_ [_ Hc]]]]].
      unfold minimal_distance_model.
      rewrite Hg, Hp, Ho, Eo, H. reflexivity.
    + right. exists (fun _ => None), (expr_add_const (LinExpr_of cl vl) c).
      split; [intros _; apply linf_part_none |].
      intros s mis f obj st xv Hs Hmis Hf Hm.
      destruct (same_but_m s self Hs) as [Hg [Hp [Ho [_ [_ Hc]]]]].
      unfold minimal_distance_model.
      rewrite Hg, Hp, Ho, Eo, H, Hc by (rewrite Hm; reflexivity).
      cbn [bind]. rewrite Hm.
      unfold try_remove, addConstr, setObjective.
      cbn [n_P n_L B_bounds constrs objective status X].
      rewrite (replace_mislabel _ mis f _ Hb Hmis), linf_part_none.
      rewrite Hf by discriminate. now rewrite !app_nil_r.
Qed.

(** What every attacker reached by queries looks like: it differs from the
    fresh one in its model only, and the model holds the constructor's
    constraints, at most one "mislabel" and the "linf_constr_attr"
    constraints of the last query that added them. *)
Lemma queried_inv (solver : Model -> Z * (var -> Q))
    (jm : option (list json_tree)) (eps : option Q) (ord : norm_order) (g : Q)
    (d : Z) (pos neg : option (list json_tree)) (thr : Q) (vb : bool) (nt : nat)
    (self s : KantchelianAttack) :
  KantchelianAttack_init jm eps ord g d pos neg thr vb nt = Ok self ->
  queried solver self s ->
  set_m s (m self) = self /\
  exists mis f obj st xv,
    m s = mk_Model (n_P (m self)) (n_L (m self)) (B_bounds (m self))
            (constrs (m self) ++ mis ++ linf_part f (pdict self)) obj st xv /\
    (mis = [] \/ (exists c, mis = [(mislabel, c)])) /\
    (order self <> inf -> linf_part f (pdict self) = []).
Proof.
  intros Hinit Hq.
  pose proof (init_constrs_kept _ _ _ _ _ _ _ _ _ _ _ Hinit) as Hb.
  pose proof (init_pdict_NoDup _ _ _ _ _ _ _ _ _ _ _ Hinit) as Hnd.
  pose proof (init_finite_order _ _ _ _ _ _ _ _ _ _ _ Hinit) as Hord.
  induction Hq as [| s s' x l r Hq IH Hatt | s s' x l r Hq IH Hopt].
  - split; [destruct self; reflexivity |].
    exists [], (fun _ => None), (objective (m self)), (status (m self)), (X (m self)).
    split; [| split; [now left | intros _; apply linf_part_none]].
    rewrite linf_part_none. cbn [app]. rewrite app_nil_r.
    destruct (m self); reflexivity.
  - destruct IH as [Hs [mis [f [obj [st [xv [Hm [Hmis Hf]]]]]]]].
    unfold attack in Hatt.
    destruct (attack_model_outcome self x l Hb Hnd Hord) as [[ex H] | [f' [Hf' H]]];
      rewrite (H s mis f obj st xv Hs Hmis Hm) in Hatt; [discriminate |].
    cbn [bind] in Hatt. injection Hatt as _ <-. split; [exact Hs |].
    eexists [(mislabel, mislabel_constr self l)], f', _, _, _.
    split; [reflexivity |]. split; [right; eexists; reflexivity | exact Hf'].
  - unfold optimal_adversarial_example in Hopt. bind_inv Hopt.
    destruct (negb (r0 =? l)%nat).
    { injection Hopt as _ <-. exact IH. }
    destruct IH as [Hs [mis [f [obj [st [xv [Hm [Hmis Hf]]]]]]]].
    destruct (minimal_distance_model_outcome self x l Hb Hnd)
      as [[ex H] | [f' [obj' [Hf' H]]]];
      rewrite (H s mis f obj st xv Hs Hmis Hf Hm) in Hopt; [discriminate |].
    cbn [bind] in Hopt.
    assert (Hs' : s' = set_m s (optimize solver
                     (mk_Model (n_P (m self)) (n_L (m self)) (B_bounds (m self))
                        (constrs (m self) ++ [(mislabel, mislabel_constr self l)]
                           ++ linf_part f' (pdict self)) obj' st xv))).
    { destruct (status _ =? INFEASIBLE)%Z.
      - now injection Hopt as _ <-.
      - bind_inv Hopt. bind_inv Hopt. now injection Hopt as _ <-. }
    subst s'. split; [exact Hs |].
    eexists [(mislabel, mislabel_constr self l)], f', _, _, _.
    split; [reflexivity |]. split; [right; eexists; reflexivity | exact Hf'].
Qed.

(** X11 (queries forget their history). On an attacker that answered any
    number of queries, either query builds the model it builds on the fresh
    attacker, with the status and the values the last [optimize] left: the
    constraints named "mislabel" and "linf_constr_attr<k>" are replaced, never
    accumulated, and an error is the error of the fresh attacker. *)
Theorem queries_forget_history (solver : Model -> Z * (var -> Q))
    (jm : option (list json_tree)) (eps : option Q) (ord : norm_order) (g : Q)
    (d : Z) (pos neg : option (list json_tree)) (thr : Q) (vb : bool) (nt : nat)
    (self s : KantchelianAttack) (x : sample) (label : nat) :
  KantchelianAttack_init jm eps ord g d pos neg thr vb nt = Ok self ->
  queried solver self s ->
  attack_model s x label
    = (mq <- attack_model self x label ;;
       Ok (with_solution mq (status (m s)) (X (m s)))) /\
  minimal_distance_model s x label
    = (mq <- minimal_distance_model self x label ;;
       Ok (with_solution mq (status (m s)) (X (m s)))).
Proof.
  intros Hinit Hq.
  pose proof (init_constrs_kept _ _ _ _ _ _ _ _ _ _ _ Hinit) as Hb.
  pose proof (init_pdict_NoDup _ _ _ _ _ _ _ _ _ _ _ Hinit) as Hnd.
  pose proof (init_finite_order _ _ _ _ _ _ _ _ _ _ _ Hinit) as Hord.
  destruct (queried_inv solver _ _ _ _ _ _ _ _ _ _ self s Hinit Hq)
    as [Hs [mis [f [obj [st [xv [Hm [Hmis Hf]]]]]]]].
  destruct (queried_inv solver _ _ _ _ _ _ _ _ _ _ self self Hinit
              (queried_fresh solver self))
    as [Hs0 [mis0 [f0 [obj0 [st0 [xv0 [Hm0 [Hmis0 Hf0]]]]]]]].
  split.
  - destruct (attack_model_outcome self x label Hb Hnd Hord)
      as [[ex H] | [f' [_ H]]];
      rewrite (H s mis f obj st xv Hs Hmis Hm),
              (H self mis0 f0 obj0 st0 xv0 Hs0 Hmis0 Hm0); [reflexivity |].
    cbn [bind]. rewrite Hm. reflexivity.
  - destruct (minimal_distance_model_outcome self x label Hb Hnd)
      as [[ex H] | [f' [obj' [_ H]]]];
      rewrite (H s mis f obj st xv Hs Hmis Hf Hm),
              (H self mis0 f0 obj0 st0 xv0 Hs0 Hmis0 Hf0 Hm0); [reflexivity |].
    cbn [bind]. rewrite Hm. reflexivity.
Qed.

Lemma queries_forget_history_witness :
  exists self s x',
    KantchelianAttack_init (Some [stump]) None inf GUARD_VAL ROUND_DIGITS
      None None 0 false 1 = Ok self /\
    optimal_adversarial_example stump_solver self [3] 0 = Ok (Some x', s) /\
    attack_model s [7] 1
      = (mq <- attack_model self [7] 1 ;;
         Ok (with_solution mq (status (m s)) (X (m s)))) /\
    minimal_distance_model s [7] 1
      = (mq <- minimal_distance_model self [7] 1 ;;
         Ok (with_solution mq (status (m s)) (X (m s)))).
Proof.
  destruct (KantchelianAttack_init (Some [stump]) None inf GUARD_VAL
              ROUND_DIGITS None None 0 false 1) as [self | e] eqn:E;
    [| vm_compute in E; discriminate E].
  pose proof E as E'. vm_compute in E'. injection E' as E'.
  destruct (optimal_adversarial_example stump_solver self [3] 0)
    as [[[x' |] s] | e] eqn:Eo;
    [| subst self; vm_compute in Eo; discriminate Eo
     | subst self; vm_compute in Eo; discriminate Eo].
  exists self, s, x'. split; [reflexivity |]. split; [exact Eo |].
  exact (queries_forget_history stump_solver (Some [stump]) None inf GUARD_VAL
           ROUND_DIGITS None None 0 false 1 self s [7] 1%nat E
           (@queried_optimal stump_solver self self s [3] 0%nat (Some x')
              (queried_fresh stump_solver self) Eo)).
Defined.

(** ** [KantchelianAttackMultiClass.__init__] *)

Lemma one_vs_all_fold (n : nat) (trees : list json_tree) :
  forall (s : nat) (models : list (list json_tree)),
    length models = n ->
    length (fold_left (fun models it =>
                         list_update models (fst it mod n) (fun l => l ++ [snd it]))
              (enumerate s trees) models) = n /\
    forall c, (c < n)%nat ->
      nth c (fold_left (fun models it =>
                          list_update models (fst it mod n) (fun l => l ++ [snd it]))
               (enumerate s trees) models) []
      = nth c models []
        ++ map snd (filter (fun it => (fst it mod n =? c)%nat) (enumerate s trees)).
Proof.
  induction trees as [| t trees IH]; intros s models Hlen.
  - split; [exact Hlen |]. intros c _. cbn. now rewrite app_nil_r.
  - change (enumerate s (t :: trees)) with ((s, t) :: enumerate (S s) trees).
    cbn [fold_left fst snd filter].
    destruct (IH (S s) (list_update models (s mod n) (fun l => l ++ [t])))
      as [H1 H2]; [now rewrite list_update_length |].
    split; [exact H1 |]. intros c Hc. rewrite (H2 c Hc).
    assert (Hn : nth_error models c = Some (nth c models []))
      by (apply nth_error_nth'; lia).
    destruct (s mod n =? c)%nat eqn:E.
    + apply Nat.eqb_eq in E. subst c.
      rewrite (nth_error_nth _ _ []
                 (list_update_nth_same models (s mod n) (fun l => l ++ [t]) _ Hn)).
      cbn [map snd]. now rewrite <- app_assoc.
    + apply Nat.eqb_neq in E.
      pose proof (list_update_nth_other models (s mod n) c (fun l => l ++ [t]) E)
        as Ho.
      rewrite Hn in Ho. now rewrite (nth_error_nth _ _ [] Ho).
Qed.

(** X12 (round-robin split). The trees are dealt to the classes in turn: the
    model of class [c] holds the trees whose index is [c] modulo the number
    of classes, in their order. *)
Theorem one_vs_all_spec (n : nat) (trees : list json_tree) (c : nat) :
  (c < n)%nat ->
  length (one_vs_all n trees) = n /\
  nth c (one_vs_all n trees) []
  = map snd (filter (fun it => (fst it mod n =? c)%nat) (enumerate 0 trees)).
Proof.
  intros Hc. unfold one_vs_all.
  destruct (one_vs_all_fold n trees 0 (repeat [] n) (repeat_length _ _)) as [H1 H2].
  split; [exact H1 |]. rewrite (H2 c Hc).
  assert (Hr : nth c (repeat (@nil json_tree) n) [] = []).
  { apply nth_error_nth. rewrite nth_error_repeat by exact Hc. reflexivity. }
  now rewrite Hr.
Qed.

Lemma one_vs_all_spec_witness :
  length (one_vs_all 3 [stump; JLeaf 0 1; JLeaf 0 2; JLeaf 0 3; stump]) = 3%nat /\
  nth 1 (one_vs_all 3 [stump; JLeaf 0 1; JLeaf 0 2; JLeaf 0 3; stump]) []
  = map snd (filter (fun it => (fst it mod 3 =? 1)%nat)
               (enumerate 0 [stump; JLeaf 0 1; JLeaf 0 2; JLeaf 0 3; stump])).
Proof.
  apply (one_vs_all_spec 3 [stump; JLeaf 0 1; JLeaf 0 2; JLeaf 0 3; stump] 1). lia.
Defined.

Lemma mapM_nth_error {A B : Type} (f : A -> result B) (l : list A) :
  forall (r : list B) (i : nat) (a : A),
    mapM f l = Ok r -> nth_error l i = Some a ->
    exists b, nth_error r i = Some b /\ f a = Ok b.
Proof.
  induction l as [| a0 l IH]; intros r i a H Hi; [destruct i; discriminate |].
  cbn [mapM] in H. bind_inv H. bind_inv H. injection H as <-.
  destruct i as [| i]; cbn in Hi |- *.
  - injection Hi as <-. eauto.
  - eapply IH; eauto.
Qed.

Lemma mapM_length {A B : Type} (f : A -> result B) (l : list A) :
  forall r, mapM f l = Ok r -> length r = length l.
Proof.
  induction l as [| a0 l IH]; intros r H; cbn [mapM] in H.
  - now injection H as <-.
  - bind_inv H. bind_inv H. injection H as <-. cbn. f_equal. now apply IH.
Qed.

(** The row of one class, as the inner loop of the constructor builds it. *)
Lemma attackers_row (models : list (list json_tree)) (ord : norm_order) (g : Q)
    (d : Z) (thr : Q) (vb : bool) (nt : nat) (c : nat) :
  forall (k s : nat) (acc row : list (option KantchelianAttack)),
    foldM (attackers_step models ord g d thr vb nt c) (seq s k) acc = Ok row ->
    exists atk,
      length atk = k /\
      (forall i a, nth_error atk i = Some a ->
         KantchelianAttack_init None None ord g d (Some (nth c models []))
           (Some (nth (s + i) models [])) thr vb nt = Ok a) /\
      row = acc ++ flat_map (fun ja => if (c =? fst ja)%nat
                                       then [None; Some (snd ja)]
                                       else [Some (snd ja)])
                     (enumerate s atk).
Proof.
  induction k as [| k IH]; intros s acc row H.
  - cbn in H. injection H as <-. exists []. split; [reflexivity |].
    split; [intros [| i] a Hi; discriminate |]. cbn. now rewrite app_nil_r.
  - cbn [seq foldM] in H. bind_inv H. unfold attackers_step in Hr. bind_inv Hr.
    injection Hr as <-. destruct (IH _ _ _ H) as [atk [Hlen [Hat Hrow]]].
    exists (r0 :: atk). split; [cbn; now rewrite Hlen |]. split.
    + intros [| i] a Hi; cbn in Hi.
      * injection Hi as <-. now rewrite Nat.add_0_r.
      * replace (s + S i)%nat with (S s + i)%nat by lia. now apply Hat.
    + rewrite Hrow.
      change (enumerate s (r0 :: atk)) with ((s, r0) :: enumerate (S s) atk).
      cbn [flat_map fst snd]. destruct (c =? s)%nat; now rewrite <- !app_assoc.
Qed.

Lemma row_after (c : nat) (atk : list KantchelianAttack) :
  forall s, (c < s)%nat ->
    flat_map (fun ja : nat * KantchelianAttack =>
                if (c =? fst ja)%nat then [None; Some (snd ja)] else [Some (snd ja)])
      (enumerate s atk) = map Some atk.
Proof.
  induction atk as [| a atk IH]; intros s Hs; [reflexivity |].
  change (enumerate s (a :: atk)) with ((s, a) :: enumerate (S s) atk).
  cbn [flat_map fst snd map].
  destruct (c =? s)%nat eqn:E; [apply Nat.eqb_eq in E; lia |].
  cbn [app]. f_equal. apply IH. lia.
Qed.

Lemma row_layout (c : nat) (atk : list KantchelianAttack) :
  forall s, (s <= c)%nat -> (c < s + length atk)%nat ->
    flat_map (fun ja : nat * KantchelianAttack =>
                if (c =? fst ja)%nat then [None; Some (snd ja)] else [Some (snd ja)])
      (enumerate s atk)
    = map Some (firstn (c - s) atk) ++ None :: map Some (skipn (c - s) atk).
Proof.
  induction atk as [| a atk IH]; intros s Hs Hc; [cbn in Hc; lia |].
  change (enumerate s (a :: atk)) with ((s, a) :: enumerate (S s) atk).
  cbn [flat_map fst snd].
  destruct (c =? s)%nat eqn:E.
  - apply Nat.eqb_eq in E. subst c. rewrite Nat.sub_diag. cbn.
    rewrite row_after by lia. reflexivity.
  - apply Nat.eqb_neq in E. cbn [length] in Hc.
    replace (c - s)%nat with (S (c - S s)) by lia.
    cbn [firstn skipn map app]. f_equal. apply IH; lia.
Qed.

(** X13 (attacker matrix). When the multiclass constructor returns, the row of
    class [c] has one entry more than there are classes: [None] at index
    [c], before it the attackers of [c] against the classes [j < c] at index
    [j], and after it the attackers of [c] against the classes [j >= c] at
    index [j + 1]. *)
Theorem multiclass_attacker_rows (trees : list json_tree) (n : nat)
    (ord : norm_order) (g : Q) (d : Z) (thr : Q) (vb : bool) (nt : nat)
    (mc : KantchelianAttackMultiClass) (c : nat) :
  KantchelianAttackMultiClass_init trees n ord g d thr vb nt = Ok mc ->
  (c < n)%nat ->
  exists row,
    nth_error (binary_attackers mc) c = Some row /\
    length row = S n /\
    nth_error row c = Some None /\
    (forall j, (j < c)%nat ->
       exists a, nth_error row j = Some (Some a) /\
                 KantchelianAttack_init None None ord g d
                   (Some (nth c (one_vs_all n trees) []))
                   (Some (nth j (one_vs_all n trees) [])) thr vb nt = Ok a) /\
    (forall j, (c <= j < n)%nat ->
       exists a, nth_error row (S j) = Some (Some a) /\
                 KantchelianAttack_init None None ord g d
                   (Some (nth c (one_vs_all n trees) []))
                   (Some (nth j (one_vs_all n trees) [])) thr vb nt = Ok a).
Proof.
  intros H Hc. unfold KantchelianAttackMultiClass_init in H.
  destruct (n <=? 2)%nat; [discriminate |]. bind_inv H. injection H as <-.
  cbn [binary_attackers].
  assert (Hnc : nth_error (seq 0 n) c = Some c)
    by (rewrite nth_error_seq; destruct (Nat.ltb_spec c n); [reflexivity | lia]).
  destruct (mapM_nth_error _ _ _ _ _ Hr Hnc) as [row [Hrow Hfold]].
  exists row. split; [exact Hrow |].
  destruct (attackers_row _ _ _ _ _ _ _ _ _ _ _ _ Hfold) as [atk [Hlen [Hat ->]]].
  cbn [app]. rewrite row_layout by lia. rewrite Nat.sub_0_r.
  assert (Hf : length (map Some (firstn c atk)) = c)
    by (rewrite length_map, firstn_length_le; lia).
  split; [| split; [| split]].
  - rewrite length_app. cbn [length]. rewrite !length_map, length_skipn.
    rewrite firstn_length_le by lia. lia.
  - rewrite nth_error_app2 by lia. rewrite Hf, Nat.sub_diag. reflexivity.
  - intros j Hj.
    destruct (nth_error atk j) as [a |] eqn:Ea;
      [| apply nth_error_None in Ea; lia].
    exists a. split; [| exact (Hat j a Ea)].
    rewrite nth_error_app1 by lia.
    rewrite nth_error_map, nth_error_firstn.
    destruct (Nat.ltb_spec j c); [| lia]. now rewrite Ea.
  - intros j Hj.
    destruct (nth_error atk j) as [a |] eqn:Ea;
      [| apply nth_error_None in Ea; lia].
    exists a. split; [| exact (Hat j a Ea)].
    rewrite nth_error_app2 by lia. rewrite Hf.
    replace (S j - c)%nat with (S (j - c)) by lia. cbn [nth_error].
    rewrite nth_error_map, nth_error_skipn.
    replace (c + (j - c))%nat with j by lia. now rewrite Ea.
Qed.

Lemma multiclass_attacker_rows_witness :
  exists mc row,
    KantchelianAttackMultiClass_init [stump; stump; stump] 3 inf GUARD_VAL
      ROUND_DIGITS 0 false 1 = Ok mc /\
    nth_error (binary_attackers mc) 0 = Some row /\
    length row = 4%nat /\
    nth_error row 0 = Some None /\
    (forall j, (j < 0)%nat ->
       exists a, nth_error row j = Some (Some a) /\
                 KantchelianAttack_init None None inf GUARD_VAL ROUND_DIGITS
                   (Some (nth 0 (one_vs_all 3 [stump; stump; stump]) []))
                   (Some (nth j (one_vs_all 3 [stump; stump; stump]) []))
                   0 false 1 = Ok a) /\
    (forall j, (0 <= j < 3)%nat ->
       exists a, nth_error row (S j) = Some (Some a) /\
                 KantchelianAttack_init None None inf GUARD_VAL ROUND_DIGITS
                   (Some (nth 0 (one_vs_all 3 [stump; stump; stump]) []))
                   (Some (nth j (one_vs_all 3 [stump; stump; stump]) []))
                   0 false 1 = Ok a).
Proof.
  destruct (KantchelianAttackMultiClass_init [stump; stump; stump] 3 inf GUARD_VAL
              ROUND_DIGITS 0 false 1) as [mc | e] eqn:E;
    [| vm_compute in E; discriminate E].
  destruct (multiclass_attacker_rows [stump; stump; stump] 3 inf GUARD_VAL
              ROUND_DIGITS 0 false 1 mc 0 E) as [row H]; [lia |].
  exists mc, row. split; [reflexivity | exact H].
Defined.

(** ** [KantchelianAttackMultiClass.optimal_adversarial_example] *)

Lemma attacker_at_update (rows : list (list (option KantchelianAttack)))
    (label other o : nat) (a' : KantchelianAttack) :
  o <> other ->
  attacker_at (list_update rows label
                 (fun r => list_update r other (fun _ => Some a'))) label o
  = attacker_at rows label o.
Proof.
  intros Ho. unfold attacker_at.
  destruct (nth_error rows label) as [row |] eqn:E.
  - rewrite (list_update_nth_same rows label _ row E).
    apply list_update_nth_other. congruence.
  - assert (H : nth_error (list_update rows label
                            (fun r => list_update r other (fun _ => Some a'))) label
                = None).
    { apply nth_error_None. rewrite list_update_length.
      now apply nth_error_None. }
    now rewrite H.
Qed.

Lemma found_by_same (solver : Model -> Z * (var -> Q))
    (rows : list (list (option KantchelianAttack))) (x : sample) (label o : nat)
    (adv : sample) (a a' : KantchelianAttack) (r : option sample) :
  found_by solver rows x label o adv ->
  attacker_at rows label o = Some (Some a) ->
  optimal_adversarial_example solver a x 1 = Ok (r, a') ->
  r = Some adv.
Proof.
  intros [_ [b [b' [Hb Hopt]]]] Ha Hr. congruence.
Qed.

Lemma best_so_far_skip (solver : Model -> Z * (var -> Q)) (ord : norm_order)
    (rows : list (list (option KantchelianAttack))) (x : sample) (label s : nat)
    (bd : option Q) (ba : option sample) :
  (forall adv, ~ found_by solver rows x label s adv) ->
  best_so_far solver ord rows x label s bd ba ->
  best_so_far solver ord rows x label (S s) bd ba.
Proof.
  intros Hno. unfold best_so_far. destruct ba as [adv |].
  - intros [Hd [[o [Ho Hf]] Hmin]]. split; [exact Hd |]. split.
    + exists o. split; [lia | exact Hf].
    + intros o' adv2 Ho' Hf'. destruct (Nat.eq_dec o' s) as [-> | Hne].
      * now elim (Hno adv2).
      * apply (Hmin o' adv2); [lia | exact Hf'].
  - intros [Hd Hnone]. split; [exact Hd |]. intros o adv Ho Hf.
    destruct (Nat.eq_dec o s) as [-> | Hne].
    + now elim (Hno adv).
    + apply (Hnone o adv); [lia | exact Hf].
Qed.

Lemma multiclass_fold (solver : Model -> Z * (var -> Q)) (ord : norm_order)
    (x : sample) (label : nat) (rows0 : list (list (option KantchelianAttack))) :
  forall (k s : nat) (bd : option Q) (ba : option sample)
         (rows : list (list (option KantchelianAttack)))
         (bd' : option Q) (ba' : option sample)
         (rows' : list (list (option KantchelianAttack))),
    foldM (multiclass_step solver ord x label) (seq s k) (bd, ba, rows)
      = Ok (bd', ba', rows') ->
    (forall o, (s <= o)%nat -> attacker_at rows label o = attacker_at rows0 label o) ->
    best_so_far solver ord rows0 x label s bd ba ->
    best_so_far solver ord rows0 x label (s + k) bd' ba'.
Proof.
  induction k as [| k IH]; intros s bd ba rows bd' ba' rows' H Hag Hinv.
  - cbn in H. injection H as <- <- <-. now rewrite Nat.add_0_r.
  - cbn [seq foldM] in H. bind_inv H. destruct r as [[bd1 ba1] rows1].
    replace (s + S k)%nat with (S s + k)%nat by lia.
    assert (Hstep : (forall o, (S s <= o)%nat ->
                       attacker_at rows1 label o = attacker_at rows0 label o) /\
                    best_so_far solver ord rows0 x label (S s) bd1 ba1).
    { unfold multiclass_step in Hr.
      destruct (s =? label)%nat eqn:El.
      { injection Hr as <- <- <-. split; [intros o Ho; apply Hag; lia |].
        apply best_so_far_skip; [| exact Hinv].
        apply Nat.eqb_eq in El. intros adv [Hne _]. contradiction. }
      pose proof (Hag s (Nat.le_refl s)) as Hs. unfold attacker_at in Hs at 1.
      destruct (nth_error rows label) as [row |]; [| discriminate].
      destruct (nth_error row s) as [[attacker |] |]; try discriminate.
      symmetry in Hs. bind_inv Hr. destruct r as [adv_example attacker'].
      assert (Hag' : forall o, (S s <= o)%nat ->
                attacker_at
                  (list_update rows label
                     (fun r => list_update r s (fun _ => Some attacker'))) label o
                = attacker_at rows0 label o).
      { intros o Ho. rewrite attacker_at_update by lia. apply Hag. lia. }
      apply Nat.eqb_neq in El.
      destruct adv_example as [adv |].
      2:{ injection Hr as <- <- <-. split; [exact Hag' |].
          apply best_so_far_skip; [| exact Hinv].
          intros adv Hf. pose proof (found_by_same _ _ _ _ _ _ _ _ _ Hf Hs Hr0).
          discriminate. }
      assert (Hfound : found_by solver rows0 x label s adv).
      { split; [exact El |]. exists attacker, attacker'. auto. }
      assert (Hsame : forall adv2, found_by solver rows0 x label s adv2 -> adv2 = adv).
      { intros adv2 Hf. pose proof (found_by_same _ _ _ _ _ _ _ _ _ Hf Hs Hr0).
        congruence. }
      destruct (closer (norm_key ord x adv) bd) eqn:Ec;
        injection Hr as <- <- <-; (split; [exact Hag' |]).
      - cbn [best_so_far]. split; [reflexivity |]. split.
        + exists s. split; [lia | exact Hfound].
        + intros o adv2 Ho Hf. destruct (Nat.eq_dec o s) as [-> | Hne].
          * rewrite (Hsame adv2 Hf). apply Qle_refl.
          * unfold best_so_far in Hinv. destruct ba as [advb |].
            -- destruct Hinv as [-> [_ Hmin]]. cbn [closer] in Ec.
               apply Qlt_bool_iff in Ec.
               apply Qle_trans with (norm_key ord x advb);
                 [now apply Qlt_le_weak | apply (Hmin o adv2); [lia | exact Hf]].
            -- destruct Hinv as [_ Hnone]. elim (Hnone o adv2); [lia | exact Hf].
      - unfold best_so_far in Hinv |- *. destruct ba as [advb |].
        + destruct Hinv as [-> [[o [Ho Hf]] Hmin]]. cbn [closer] in Ec.
          apply Qlt_bool_false in Ec.
          split; [reflexivity |]. split; [exists o; split; [lia | exact Hf] |].
          intros o' adv2 Ho' Hf'. destruct (Nat.eq_dec o' s) as [-> | Hne].
          * now rewrite (Hsame adv2 Hf').
          * apply (Hmin o' adv2); [lia | exact Hf'].
        + destruct Hinv as [-> _]. discriminate. }
    destruct Hstep as [Hag1 Hinv1]. exact (IH _ _ _ _ _ _ _ H Hag1 Hinv1).
Qed.

(** X14 (multiclass query). What the multiclass query returns was found by the
    attacker stored for some other label, and no attacker stored for another
    label found an example at a smaller distance. *)
Theorem multiclass_returns_closest (solver : Model -> Z * (var -> Q))
    (mc mc' : KantchelianAttackMultiClass) (x adv : sample) (label : nat) :
  multiclass_optimal_adversarial_example solver mc x label = Ok (adv, mc') ->
  (exists o, (o < n_classes mc)%nat /\
             found_by solver (binary_attackers mc) x label o adv) /\
  forall o adv2,
    (o < n_classes mc)%nat ->
    found_by solver (binary_attackers mc) x label o adv2 ->
    norm_key (mc_order mc) x adv <= norm_key (mc_order mc) x adv2.
Proof.
  intros H. unfold multiclass_optimal_adversarial_example in H. bind_inv H.
  destruct r as [[bd ba] rows]. destruct ba as [adv0 |]; [| discriminate].
  injection H as <- _.
  assert (H0 : best_so_far solver (mc_order mc) (binary_attackers mc) x label 0
                 None None).
  { split; [reflexivity |]. intros o adv1 Ho. lia. }
  pose proof (multiclass_fold solver (mc_order mc) x label (binary_attackers mc)
                _ _ _ _ _ _ _ _ Hr (fun o _ => eq_refl) H0) as Hb.
  cbn [best_so_far Nat.add] in Hb. destruct Hb as [_ Hb]. exact Hb.
Qed.

Lemma multiclass_returns_closest_witness :
  exists mc adv mc',
    KantchelianAttackMultiClass_init [stump; stump; stump] 3 inf GUARD_VAL
      ROUND_DIGITS 0 false 1 = Ok mc /\
    multiclass_optimal_adversarial_example stump_solver mc [3] 0 = Ok (adv, mc') /\
    (exists o, (o < n_classes mc)%nat /\
               found_by stump_solver (binary_attackers mc) [3] 0 o adv) /\
    forall o adv2,
      (o < n_classes mc)%nat ->
      found_by stump_solver (binary_attackers mc) [3] 0 o adv2 ->
      norm_key (mc_order mc) [3] adv <= norm_key (mc_order mc) [3] adv2.
Proof.
  destruct (KantchelianAttackMultiClass_init [stump; stump; stump] 3 inf GUARD_VAL
              ROUND_DIGITS 0 false 1) as [mc | e] eqn:E;
    [| vm_compute in E; discriminate E].
  pose proof E as E'. vm_compute in E'. injection E' as E'.
  destruct (multiclass_optimal_adversarial_example stump_solver mc [3] 0)
    as [[adv mc'] | e] eqn:Eo;
    [| subst mc; vm_compute in Eo; discriminate Eo].
  exists mc, adv, mc'. split; [reflexivity |]. split; [exact Eo |].
  exact (multiclass_returns_closest stump_solver mc mc' [3] adv 0%nat Eo).
Defined.

(** ** [KantchelianAttack.check] on well-formed trees *)

Lemma features_within_linked (n0 : nat) (nid attr : nat) (th : Q) (yes no : nat)
    (c0 c1 : json_tree) :
  features_within n0 (JSplit nid attr th yes no c0 c1) = true ->
  (attr < n0)%nat /\
  (forall id, features_within n0 (linked_child id c0 c1) = true).
Proof.
  cbn [features_within]. rewrite !andb_true_iff. intros [[Ha H0] H1].
  split; [now apply Nat.ltb_lt |].
  intros id. unfold linked_child. destruct (find_child id c0 c1) as [[|] |]; auto.
Qed.

Lemma check_tree_returns (x : sample) (t : json_tree) :
  well_formed t = true -> features_within (length x) t = true ->
  exists v, check_tree x t = Ok v /\ In v (tree_leaves false t).
Proof.
  induction t as [n0 v0 | n0 attr th yes no c0 IH0 c1 IH1]; intros Hwf Hft.
  - exists v0. split; [reflexivity | now left].
  - assert (IH : forall id,
               well_formed (linked_child id c0 c1) = true ->
               features_within (length x) (linked_child id c0 c1) = true ->
               exists v, check_tree x (linked_child id c0 c1) = Ok v /\
                         In v (tree_leaves false (linked_child id c0 c1))).
    { intros id. unfold linked_child.
      destruct (find_child id c0 c1) as [[|] |]; auto. }
    rewrite (check_tree_wf x _ _ _ _ _ _ _ Hwf).
    destruct (well_formed_linked _ _ _ _ _ _ _ Hwf) as [Hy Hn].
    destruct (features_within_linked _ _ _ _ _ _ _ _ Hft) as [Ha Hl].
    destruct (getitem_total x attr Ha) as [xa ->]. cbn [bind tree_leaves].
    destruct (Qlt_bool xa th).
    + destruct (IH yes Hy (Hl yes)) as [v [Hv Hin]].
      exists v. split; [exact Hv |]. apply in_or_app. now left.
    + destruct (IH no Hn (Hl no)) as [v [Hv Hin]].
      exists v. split; [exact Hv |]. apply in_or_app. now right.
Qed.

Lemma check_trees_return (x : sample) (trees : list json_tree) :
  forallb well_formed trees = true ->
  forallb (features_within (length x)) trees = true ->
  exists vs,
    mapM (check_tree x) trees = Ok vs /\
    Forall2 (fun t v => In v (tree_leaves false t)) trees vs.
Proof.
  induction trees as [| t trees IH]; intros Hwf Hft.
  - exists []. split; [reflexivity | constructor].
  - cbn [forallb] in Hwf, Hft.
    apply andb_true_iff in Hwf. destruct Hwf as [Hw Hwf].
    apply andb_true_iff in Hft. destruct Hft as [Hf Hft].
    destruct (check_tree_returns x t Hw Hf) as [v [Hv Hin]].
    destruct (IH Hwf Hft) as [vs [Hvs Hall]].
    exists (v :: vs). split; [| now constructor].
    cbn [mapM]. now rewrite Hv, Hvs.
Qed.

(** X15 (check returns). On trees whose links resolve to different children
    and whose splits test features the sample has, [check] raises nothing: it
    returns the sum of one leaf value per tree. *)
Theorem check_returns (x : sample) (trees : list json_tree) :
  forallb well_formed trees = true ->
  forallb (features_within (length x)) trees = true ->
  exists vs,
    check x trees = Ok (Qsum vs) /\
    Forall2 (fun t v => In v (tree_leaves false t)) trees vs.
Proof.
  intros Hwf Hft.
  destruct (check_trees_return x trees Hwf Hft) as [vs [Hvs Hall]].
  exists vs. split; [| exact Hall]. unfold check. now rewrite Hvs.
Qed.

Lemma check_returns_witness :
  exists vs,
    check [3; 1] [stump; two_level] = Ok (Qsum vs) /\
    Forall2 (fun t v => In v (tree_leaves false t)) [stump; two_level] vs.
Proof.
  apply (check_returns [3; 1] [stump; two_level]); reflexivity.
Defined.

(** ** The distance linearizer on ordered split variables *)

Lemma removelast_cons_nonempty {A : Type} (x : A) (l : list A) :
  l <> [] -> removelast (x :: l) = x :: removelast l.
Proof. destruct l; [contradiction | reflexivity]. Qed.

Lemma last_cons_nonempty {A : Type} (x d : A) (l : list A) :
  l <> [] -> last (x :: l) d = last l d.
Proof. destruct l; [contradiction | reflexivity]. Qed.

Lemma diffs_nonempty (w : list Q) : w <> [] -> diffs w <> [].
Proof.
  intros H E. apply H. apply length_zero_iff_nil.
  rewrite <- diffs_length, E. reflexivity.
Qed.

(** The differences telescope: with the variables of the first [j]
    thresholds at 0 and the others at 1, the weighted sum is [w[j]]. *)
Lemma diffs_telescope (a : var -> Q) (vars : list var) :
  forall (w : list Q) (j : nat),
    length w = S (length vars) ->
    (forall i v, nth_error vars i = Some v ->
       ((i < j)%nat -> a v == 0) /\ ((j <= i)%nat -> a v == 1)) ->
    (j <= length vars)%nat ->
    Qsum (map (fun t => fst t * a (snd t)) (combine (removelast (diffs w)) vars))
      + (0 + last (diffs w) 0) == nth j w 0.
Proof.
  induction vars as [| v vars IH]; intros w j Hlen Hpat Hj.
  - destruct w as [| w0 [| w1 w]]; try discriminate.
    cbn in Hj. assert (j = 0)%nat as -> by lia. cbn. ring.
  - destruct w as [| w0 [| w1 w]]; try discriminate.
    change (diffs (w0 :: w1 :: w)) with ((w0 - w1) :: diffs (w1 :: w)).
    assert (Hne : diffs (w1 :: w) <> []) by (apply diffs_nonempty; discriminate).
    rewrite removelast_cons_nonempty, last_cons_nonempty by exact Hne.
    cbn [combine map Qsum fold_right fst snd]. fold (Qsum
      (map (fun t => fst t * a (snd t)) (combine (removelast (diffs (w1 :: w))) vars))).
    cbn [length] in Hlen, Hj. injection Hlen as Hlen.
    destruct (Hpat 0%nat v eq_refl) as [Hz Ho].
    destruct j as [| j].
    + assert (Hav : a v == 1) by (apply Ho; lia).
      assert (Hrec := IH (w1 :: w) 0%nat (f_equal S Hlen)).
      cbn [nth] in Hrec |- *. rewrite <- Qplus_assoc, Hrec, Hav; [ring | | lia].
      intros i v' Hi. split; [lia |]. intros _. apply (Hpat (S i) v' Hi). lia.
    + assert (Hav : a v == 0) by (apply Hz; lia).
      assert (Hrec := IH (w1 :: w) j (f_equal S Hlen)).
      cbn [nth] in Hrec |- *.
      change (match w with
              | [] => 0
              | x :: l => nth j l 0 end) with (nth j w 0) in Hrec.
      rewrite <- Qplus_assoc, Hrec, Hav; [ring | | lia].
      intros i v' Hi. destruct (Hpat (S i) v' Hi) as [H1 H2].
      split; intros; [apply H1 | apply H2]; lia.
Qed.

(** The cost of the interval that an ordered assignment selects. *)
Lemma w_list_interval (pw : Q -> Q) (g xk : Q) (l : list (Q * var))
    (w : list Q) (a : var -> Q) (j : nat) :
  w_list pw g xk (map fst l) = Ok w ->
  (j <= length l)%nat ->
  (forall i e, nth_error l i = Some e ->
     ((i < j)%nat -> a (snd e) == 0) /\ ((j <= i)%nat -> a (snd e) == 1)) ->
  length w = S (length l) /\
  exists dist,
    w_entry pw g xk (nth j (None :: map Some (map fst l)) None)
      (nth j (map Some (map fst l) ++ [None]) None) = Ok dist /\
    Qsum (map (fun t => fst t * a (snd t)) (combine (removelast w) (map snd l)))
      + (0 + last w 0) == dist.
Proof.
  intros Hw Hj Hpat. unfold w_list in Hw. bind_inv Hw. injection Hw as <-.
  assert (Hlen : length r = S (length l)).
  { rewrite (mapM_length _ _ _ Hr), length_combine, length_app.
    cbn [length]. rewrite !length_map. lia. }
  split; [now rewrite diffs_length |].
  assert (Hla : length (None :: map Some (map fst l))
                = length (map Some (map fst l) ++ [None])).
  { rewrite length_app. cbn [length]. rewrite !length_map. lia. }
  assert (Hnth : nth_error (combine (None :: map Some (map fst l))
                              (map Some (map fst l) ++ [None])) j
                 = Some (nth j (None :: map Some (map fst l)) None,
                         nth j (map Some (map fst l) ++ [None]) None)).
  { rewrite <- (combine_nth _ _ j None None Hla). apply nth_error_nth'.
    rewrite length_combine, length_app. cbn [length]. rewrite !length_map. lia. }
  destruct (mapM_nth_error _ _ _ _ _ Hr Hnth) as [dist [Hd Hent]].
  cbn [fst snd] in Hent. exists dist. split; [exact Hent |].
  rewrite <- (nth_error_nth _ _ 0 Hd).
  apply (diffs_telescope a (map snd l) r j).
  - now rewrite length_map.
  - intros i v Hi. rewrite nth_error_map in Hi.
    destruct (nth_error l i) as [e |] eqn:Ee; [| discriminate].
    injection Hi as <-. exact (Hpat i e Ee).
  - now rewrite length_map.
Qed.

(** X16 (the linearizer is exact). With the split variables of one feature
    ordered as the consistency constraints ask, the first [j] at 0 and the
    others at 1, the left side of the feature's distance constraint is the
    cost that the loop over [axis] gave to the [j]-th interval. *)
Theorem linf_constr_measures (pw : Q -> Q) (g xk : Q) (l : list (Q * var))
    (w : list Q) (a : var -> Q) (j : nat) :
  w_list pw g xk (map fst l) = Ok w ->
  (j <= length l)%nat ->
  (forall i e, nth_error l i = Some e ->
     ((i < j)%nat -> a (snd e) == 0) /\ ((j <= i)%nat -> a (snd e) == 1)) ->
  exists dist,
    w_entry pw g xk (nth j (None :: map Some (map fst l)) None)
      (nth j (map Some (map fst l) ++ [None]) None) = Ok dist /\
    eval_expr a (lhs (linf_constr w l)) == dist.
Proof.
  intros Hw Hj Hpat.
  destruct (w_list_interval pw g xk l w a j Hw Hj Hpat) as [_ [dist [Hd He]]].
  exists dist. split; [exact Hd |].
  unfold linf_constr, eval_expr, expr_add_const, LinExpr_of.
  cbn [lhs terms constant]. exact He.
Qed.

Lemma linf_constr_measures_witness :
  exists w dist,
    w_list (fun d => d) GUARD_VAL 3 (map fst [(5, P 0); (7, P 1)]) = Ok w /\
    w_entry (fun d => d) GUARD_VAL 3
      (nth 1 (None :: map Some (map fst [(5, P 0); (7, P 1)])) None)
      (nth 1 (map Some (map fst [(5, P 0); (7, P 1)]) ++ [None]) None) = Ok dist /\
    eval_expr (fun v => match v with P 0 => 0 | _ => 1 end)
      (lhs (linf_constr w [(5, P 0); (7, P 1)])) == dist.
Proof.
  destruct (w_list (fun d => d) GUARD_VAL 3 (map fst [(5, P 0); (7, P 1)]))
    as [w | e] eqn:E; [| vm_compute in E; discriminate E].
  destruct (linf_constr_measures (fun d => d) GUARD_VAL 3 [(5, P 0); (7, P 1)] w
              (fun v => match v with P 0 => 0 | _ => 1 end) 1 E)
    as [dist [H1 H2]].
  - cbn. lia.
  - intros [| [| [| i]]] e0 Hi; cbn in Hi; try discriminate; injection Hi as <-;
      cbn; split; intros; try lia; reflexivity.
  - exists w, dist. split; [reflexivity |]. split; assumption.
Defined.

(** ** The feasibility query on an attacker of finite order *)

(** X17 (the feasibility query needs order infinity). On an attacker built
    with a finite order, whose ensemble has at least one split, and a sample
    that has every split feature, [attack] raises [AttributeError]: the
    distance variable was never created. *)
Theorem attack_finite_order_raises (solver : Model -> Z * (var -> Q))
    (jm : option (list json_tree)) (eps : option Q) (rho : nat) (g : Q) (d : Z)
    (pos neg : option (list json_tree)) (thr : Q) (vb : bool) (nt : nat)
    (self : KantchelianAttack) (x : sample) (label : nat) :
  KantchelianAttack_init jm eps (Lp rho) g d pos neg thr vb nt = Ok self ->
  pdict self <> [] ->
  (forall key l, In (key, l) (pdict self) -> (key < length x)%nat) ->
  attack solver self x label = Raise AttributeError.
Proof.
  intros Hinit Hne Hx.
  pose proof (init_pdict_lists _ _ _ _ _ _ _ _ _ _ _ Hinit) as Hpd.
  assert (Hord : order self <> inf).
  { revert Hinit. unfold KantchelianAttack_init.
    destruct (negb (is_None eps || is_inf (Lp rho))); [discriminate |].
    intros H. bind_inv H.
    destruct (p_constraints (build_pdict (node_list r)) g) as [[pd cs] g'].
    inversion H; subst; cbn. discriminate. }
  pose proof (init_finite_order _ _ _ _ _ _ _ _ _ _ _ Hinit Hord) as HB.
  unfold attack, attack_model.
  destruct (pdict self) as [| [key l] pd]; [congruence |].
  inversion Hpd as [| ? ? [Hl Hs] _]; subst. cbn [snd] in Hl, Hs.
  cbn [foldM]. unfold attack_key at 1. cbn [fst snd].
  assert (Hlen : (length l =? 0)%nat = false)
    by (destruct l; [congruence | reflexivity]).
  rewrite Hlen.
  destruct (getitem_total x key) as [xk Hxk]; [eapply Hx; left; reflexivity |].
  rewrite Hxk. cbn [bind].
  destruct (w_list_total (fun d => d) (guard_val self) xk (map fst l))
    as [w [Hw _]]; [now apply sorted_map_fst |].
  rewrite Hw. cbn [bind].
  change (B_bounds (try_remove
            (addConstr (try_remove (m self) mislabel) mislabel
               (mislabel_constr self label)) (linf_constr_attr key)))
    with (B_bounds (m self)).
  rewrite HB. reflexivity.
Qed.

Lemma attack_finite_order_raises_witness :
  exists self,
    KantchelianAttack_init (Some [stump]) None (Lp 1) GUARD_VAL ROUND_DIGITS
      None None 0 false 1 = Ok self /\
    attack never_feasible self [3] 0 = Raise AttributeError.
Proof.
  destruct (KantchelianAttack_init (Some [stump]) None (Lp 1) GUARD_VAL
              ROUND_DIGITS None None 0 false 1) as [self | e] eqn:E;
    [| vm_compute in E; discriminate E].
  pose proof E as E'. vm_compute in E'. injection E' as E'.
  exists self. split; [reflexivity |].
  apply (attack_finite_order_raises never_feasible (Some [stump]) None 1 GUARD_VAL
           ROUND_DIGITS None None 0 false 1 self [3] 0%nat E).
  - subst self. discriminate.
  - subst self. intros key l [H | []]. injection H as <- _. cbn. lia.
Defined.

(** ** The objective of the minimal-distance query for a finite order *)

Lemma removelast_length {A : Type} (w : list A) :
  length (removelast w) = pred (length w).
Proof.
  rewrite removelast_firstn_len, length_firstn. lia.
Qed.

Lemma lp_keys_measure (rho : nat) (g : Q) (x : sample) (a : var -> Q)
    (J : nat -> nat) :
  forall (pd : pdict_t) (mdl : Model) (c : Q) (cl : list Q) (vl : list var)
         (m3 : Model) (c' : Q) (cl' : list Q) (vl' : list var),
    foldM (objective_key (Lp rho) g x) pd (mdl, (c, cl, vl))
      = Ok (m3, (c', cl', vl')) ->
    length cl = length vl ->
    (forall key l, In (key, l) pd ->
       (J key <= length l)%nat /\
       forall i e, nth_error l i = Some e ->
         ((i < J key)%nat -> a (snd e) == 0) /\
         ((J key <= i)%nat -> a (snd e) == 1)) ->
    exists dists,
      Forall2 (fun e dist =>
                 exists xk,
                   getitem x (fst e) = Ok xk /\
                   w_entry (fun d => Qpower d (Z.of_nat rho)) g xk
                     (nth (J (fst e)) (None :: map Some (map fst (snd e))) None)
                     (nth (J (fst e)) (map Some (map fst (snd e)) ++ [None]) None)
                   = Ok dist)
        pd dists /\
      Qsum (map (fun t => fst t * a (snd t)) (combine cl' vl')) + c'
      == Qsum (map (fun t => fst t * a (snd t)) (combine cl vl)) + c + Qsum dists.
Proof.
  induction pd as [| [key l] pd IH];
    intros mdl c cl vl m3 c' cl' vl' H Hlen Hpat.
  - cbn in H. injection H as _ <- <- <-. exists []. split; [constructor |].
    cbn. ring.
  - cbn [foldM] in H. bind_inv H. destruct r as [mdl1 [[c1 cl1] vl1]].
    unfold objective_key in Hr. cbn [fst snd] in Hr.
    destruct (length l =? 0)%nat; [discriminate |].
    bind_inv Hr. bind_inv Hr. injection Hr as _ <- <- <-.
    destruct (Hpat key l (or_introl eq_refl)) as [Hj Hp].
    destruct (w_list_interval _ g r l r0 a (J key) Hr1 Hj Hp)
      as [Hw [dist [Hd He]]].
    destruct (IH _ _ _ _ _ _ _ _ H) as [dists [Hall Hsum]].
    + rewrite !length_app, removelast_length, length_map, Hw, Hlen. reflexivity.
    + intros key' l' Hin. apply Hpat. now right.
    + exists (dist :: dists). split.
      * constructor; [| exact Hall]. exists r. cbn [fst snd]. auto.
      * rewrite Hsum, combine_app_eq, map_app, Qsum_app by exact Hlen.
        cbn [Qsum fold_right]. fold (Qsum dists). rewrite <- He. ring.
Qed.

(** X18 (the objective for a finite order). For an attacker of finite order
    [rho], under an assignment that orders the split variables of every
    feature, the first [J key] at 0 and the others at 1, the objective of
    the minimal-distance query is the sum over the features of the cost that
    the loop over [axis] gave to the selected interval of that feature (the
    [rho]-th power of a distance). *)
Theorem lp_objective_measures (self : KantchelianAttack) (x : sample)
    (label : nat) (mq : Model) (rho : nat) (a : var -> Q) (J : nat -> nat) :
  order self = Lp rho ->
  minimal_distance_model self x label = Ok mq ->
  (forall key l, In (key, l) (pdict self) ->
     (J key <= length l)%nat /\
     forall i e, nth_error l i = Some e ->
       ((i < J key)%nat -> a (snd e) == 0) /\
       ((J key <= i)%nat -> a (snd e) == 1)) ->
  exists dists,
    Forall2 (fun e dist =>
               exists xk,
                 getitem x (fst e) = Ok xk /\
                 w_entry (fun d => Qpower d (Z.of_nat rho)) (guard_val self) xk
                   (nth (J (fst e)) (None :: map Some (map fst (snd e))) None)
                   (nth (J (fst e)) (map Some (map fst (snd e)) ++ [None]) None)
                 = Ok dist)
      (pdict self) dists /\
    eval_expr a (objective mq) == Qsum dists.
Proof.
  intros Ho H Hpat. unfold minimal_distance_model in H. rewrite Ho in H.
  bind_inv H. destruct r as [m3 [[c cl] vl]]. injection H as <-.
  destruct (lp_keys_measure rho (guard_val self) x a J _ _ _ _ _ _ _ _ _ Hr
              eq_refl Hpat) as [dists [Hall Hsum]].
  exists dists. split; [exact Hall |].
  unfold setObjective, eval_expr, expr_add_const, LinExpr_of.
  cbn [objective terms constant].
  change (combine (@nil Q) (@nil var)) with (@nil (Q * var)) in Hsum.
  cbn [map Qsum fold_right] in Hsum. fold (Qsum dists) in Hsum.
  fold (Qsum (map (fun t => fst t * a (snd t)) (combine cl vl))) in Hsum.
  lra.
Qed.

Lemma lp_objective_measures_witness :
  exists self mq dists,
    KantchelianAttack_init (Some [stump]) None (Lp 1) GUARD_VAL ROUND_DIGITS
      None None 0 false 1 = Ok self /\
    minimal_distance_model self [3] 0 = Ok mq /\
    Forall2 (fun e dist =>
               exists xk,
                 getitem [3] (fst e) = Ok xk /\
                 w_entry (fun d => Qpower d (Z.of_nat 1)) (guard_val self) xk
                   (nth 1 (None :: map Some (map fst (snd e))) None)
                   (nth 1 (map Some (map fst (snd e)) ++ [None]) None)
                 = Ok dist)
      (pdict self) dists /\
    eval_expr (fun _ => 0) (objective mq) == Qsum dists.
Proof.
  destruct (KantchelianAttack_init (Some [stump]) None (Lp 1) GUARD_VAL
              ROUND_DIGITS None None 0 false 1) as [self | e] eqn:E;
    [| vm_compute in E; discriminate E].
  pose proof E as E'. vm_compute in E'. injection E' as E'.
  destruct (minimal_distance_model self [3] 0) as [mq | e] eqn:Em;
    [| subst self; vm_compute in Em; discriminate Em].
  destruct (lp_objective_measures self [3] 0%nat mq 1 (fun _ => 0) (fun _ => 1%nat))
    as [dists H].
  - subst self. reflexivity.
  - exact Em.
  - subst self. intros key l [H | []]. injection H as _ <-. split; [cbn; lia |].
    intros [| [| i]] e0 Hi; cbn in Hi; try discriminate. injection Hi as <-.
    split; intros; [reflexivity | lia].
  - exists self, mq, dists. split; [reflexivity |]. split; [exact Em | exact H].
Defined.

(** ** Soundness of the reconstruction for a pair of ensembles *)

Lemma tree_leaves_neg (t : json_tree) :
  tree_leaves true t = map Qopp (tree_leaves false t).
Proof.
  induction t as [n0 v0 | n0 attr th yes no c0 IH0 c1 IH1]; [reflexivity |].
  cbn [tree_leaves]. rewrite map_app. unfold linked_child.
  destruct (find_child yes c0 c1) as [[|] |], (find_child no c0 c1) as [[|] |];
    now rewrite ?IH0, ?IH1.
Qed.

Lemma forest_leaves_neg (its : list (nat * json_tree)) :
  forest_leaves true its = map Qopp (forest_leaves false its).
Proof.
  unfold forest_leaves. induction its as [| it its IH]; [reflexivity |].
  cbn [flat_map]. now rewrite map_app, tree_leaves_neg, IH.
Qed.

Lemma leaf_value_opp (a : var -> Q) (vs : list Q) :
  forall s, leaf_value a (map Qopp vs) s == - leaf_value a vs s.
Proof.
  unfold leaf_value. induction vs as [| v vs IH]; intros s; simpl; [lra |].
  specialize (IH (S s)). simpl in IH. lra.
Qed.

Lemma forest_mass_ok_app (a : var -> Q) (its1 its2 : list (nat * json_tree)) :
  forall s,
    forest_mass_ok a (its1 ++ its2) s ->
    forest_mass_ok a its1 s /\
    forest_mass_ok a its2 (s + length (forest_leaves false its1)).
Proof.
  induction its1 as [| it its1 IH]; intros s H.
  - cbn. now rewrite Nat.add_0_r.
  - cbn [app forest_mass_ok] in H |- *. destruct H as [H1 H2].
    destruct (IH _ H2) as [H3 H4]. split; [split; assumption |].
    unfold forest_leaves in *. cbn [flat_map].
    rewrite length_app, tree_leaves_length.
    now rewrite Nat.add_assoc.
Qed.

(** X19 (soundness of the reconstruction, pair of ensembles). An attacker
    built from a positive and a negative ensemble, with a positive guard
    value and a prediction threshold of at most 0, every link resolving to
    both children and no threshold changed by the rounding: when the
    positive ensemble wins on the sample (label 1) and the query returns an
    example read back from a feasible assignment of the model it solved, the
    negative ensemble wins on that example. *)
Theorem reconstruction_sound_pairwise (ptrees ntrees : list json_tree)
    (jm : option (list json_tree)) (eps : option Q)
    (ord : norm_order) (g : Q) (d : Z) (thr : Q) (vb : bool) (nt : nat)
    (self self' : KantchelianAttack) (solver : Model -> Z * (var -> Q))
    (x x' : sample) :
  KantchelianAttack_init jm eps ord g d (Some ptrees) (Some ntrees) thr vb nt
    = Ok self ->
  forallb well_formed (ptrees ++ ntrees) = true ->
  forallb (thresholds_rounded d) (ptrees ++ ntrees) = true ->
  0 < g -> thr <= 0 ->
  predict self x = Ok 1%nat ->
  optimal_adversarial_example solver self x 1 = Ok (Some x', self') ->
  feasible (m self') (X (m self')) ->
  predict self x' = Ok 0%nat.
Proof.
  intros Hinit Hwf Hrd Hg Hthr Hpred Hopt Hfeas.
  destruct (init_unfold _ _ _ _ _ _ _ _ _ _ _ Hinit)
    as [_ [Hb [_ [Hpos [Hneg [_ [Hth [_ [HnP HnL]]]]]]]]].
  cbn in Hb.
  assert (Hens : ensemble self = ptrees ++ ntrees)
    by (unfold ensemble; now rewrite Hb, Hpos, Hneg).
  unfold optimal_adversarial_example in Hopt. rewrite Hpred in Hopt.
  cbn [bind Nat.eqb negb] in Hopt.
  destruct (minimal_distance_model self x 1) as [m4 |] eqn:Em4; [| discriminate].
  cbn [bind] in Hopt.
  destruct (status (optimize solver m4) =? INFEASIBLE)%Z; [discriminate |].
  destruct (reconstruct (X (optimize solver m4)) (guard_val self) (pdict self) x)
    as [x1 |] eqn:Erec; [| discriminate].
  cbn [bind] in Hopt.
  destruct (predict self x1) as [pr |] eqn:Epr; [| discriminate].
  cbn [bind] in Hopt. inversion Hopt; subst x1 self'. clear Hopt.
  cbn [m set_m] in Hfeas.
  set (a := X (optimize solver m4)) in *.
  destruct Hfeas as [[HbP [HbL _]] Hcs].
  cbn [optimize n_P n_L constrs] in HbP, HbL, Hcs.
  destruct (minimal_distance_model_keeps _ _ _ _ Em4)
    as [EP [EL [_ [Hkept [Hmis Hcov]]]]].
  rewrite EP in HbP. rewrite EL in HbL.
  destruct (init_guard_facts _ _ _ _ _ _ _ _ _ _ _ Hinit Hg) as [Hgpos _].
  destruct (init_leaf_values _ _ _ _ _ _ _ _ _ _ _ Hinit) as [Hlv _].
  unfold ensemble_leaf_values in Hlv. rewrite Hb, Hpos, Hneg in Hlv.
  rewrite forallb_app in Hwf, Hrd.
  apply andb_true_iff in Hwf. destruct Hwf as [Hwp Hwn].
  apply andb_true_iff in Hrd. destruct Hrd as [Hrp Hrn].
  assert (Hside : forall o,
            In o (forest_occurrences d (enumerate 0 (ptrees ++ ntrees)) 0) ->
            side_ok a x' o).
  { rewrite <- Hens. eapply reconstruct_side_ok; eauto. }
  assert (Hmass : forest_mass_ok a (enumerate 0 (ptrees ++ ntrees)) 0).
  { rewrite <- Hens. eapply init_mass_held; eauto. }
  rewrite enumerate_app in Hside, Hmass. cbn [Nat.add] in Hside, Hmass.
  rewrite (forest_occurrences_app d false) in Hside. cbn [Nat.add] in Hside.
  apply forest_mass_ok_app in Hmass. cbn [Nat.add] in Hmass.
  destruct Hmass as [Hmp Hmn].
  set (A := forest_leaves false (enumerate 0 ptrees)) in *.
  set (B' := forest_leaves false (enumerate (length ptrees) ntrees)) in *.
  assert (Hlen : length (leaf_v_list (compiled self)) = (length A + length B')%nat).
  { rewrite Hlv, length_app. f_equal. apply forest_leaves_length_neg. }
  destruct (forest_value d a x' (enumerate 0 ptrees) 0) as [vs1 [Hvs1 Hval1]].
  { now rewrite map_snd_enumerate. }
  { now rewrite map_snd_enumerate. }
  { intros i Hi. apply HbL. fold A in Hi. rewrite HnL, Hlen. lia. }
  { intros o Ho. apply Hside. apply in_or_app. now left. }
  { exact Hmp. }
  destruct (forest_value d a x' (enumerate (length ptrees) ntrees) (length A))
    as [vs2 [Hvs2 Hval2]].
  { now rewrite map_snd_enumerate. }
  { now rewrite map_snd_enumerate. }
  { intros i Hi. apply HbL. fold B' in Hi. rewrite HnL, Hlen. lia. }
  { intros o Ho. apply Hside. apply in_or_app. now right. }
  { exact Hmn. }
  rewrite map_snd_enumerate in Hvs1, Hvs2.
  unfold predict. rewrite Hb, Hpos, Hneg. unfold check.
  rewrite Hvs1, Hvs2. cbn [bind].
  pose proof (Hcs _ Hmis) as Hm. cbn [snd] in Hm.
  unfold mislabel_constr in Hm. rewrite Hb, HnL in Hm. cbn [negb orb] in Hm.
  unfold holds in Hm. cbn [rel lhs rhs] in Hm.
  rewrite eval_leaf_values, eval_const, Hlv, leaf_value_app in Hm.
  rewrite forest_leaves_neg, leaf_value_opp in Hm.
  fold A B' in Hm, Hval1, Hval2. cbn [Nat.add] in Hm.
  rewrite Hval1, Hval2, Hth in Hm.
  assert (E : Qle_bool (Qsum vs2) (Qsum vs1) = false).
  { apply Qle_bool_false. lra. }
  now rewrite E.
Qed.

Lemma reconstruction_sound_pairwise_witness :
  exists self self' x',
    KantchelianAttack_init None None inf GUARD_VAL ROUND_DIGITS
      (Some [stump]) (Some [JLeaf 0 0]) 0 false 1 = Ok self /\
    optimal_adversarial_example pair_solver self [7] 1 = Ok (Some x', self') /\
    predict self x' = Ok 0%nat.
Proof.
  destruct (KantchelianAttack_init None None inf GUARD_VAL ROUND_DIGITS
              (Some [stump]) (Some [JLeaf 0 0]) 0 false 1) as [self | e] eqn:E;
    [| vm_compute in E; discriminate E].
  pose proof E as E'. vm_compute in E'. injection E' as E'.
  destruct (optimal_adversarial_example pair_solver self [7] 1)
    as [[[x' |] self'] | e] eqn:Eo;
    [| subst self; vm_compute in Eo; discriminate Eo
     | subst self; vm_compute in Eo; discriminate Eo].
  exists self, self', x'. split; [reflexivity |]. split; [exact Eo |].
  refine (reconstruction_sound_pairwise [stump] [JLeaf 0 0] None None inf GUARD_VAL
            ROUND_DIGITS 0 false 1 self self' pair_solver [7] x'
            E eq_refl eq_refl eq_refl _ _ Eo _).
  - discriminate.
  - subst self. reflexivity.
  - subst self. vm_compute in Eo. injection Eo as _ <-.
    split; [split; [| split] |].
    + intros j _. right. reflexivity.
    + intros [| [| [| i]]] Hi; cbn in Hi |- *; try lia; split; discriminate.
    + cbn. discriminate.
    + intros nc Hnc. cbn in Hnc.
      destruct Hnc as [<- | [<- | [<- | [<- | [<- | [<- | []]]]]]];
        vm_compute; try reflexivity; discriminate.
Defined.

(** ** The feasibility query on a fresh or a used attacker *)


